(** * ThesisHub: the JSON-file repository layer and the upload copier

    A shallow embedding of [core/repo.py] (sidecar locking, backup
    rotation, resilient reads, the transactional [update_atomic] and the
    domain helpers built on it) and of the copy phase of [core/files.py].

    Conventions of the embedding.
    - Python values that travel through [json.dumps]/[json.loads] are
      terms of [json]; a Python [dict] is a finite map, [None] is [JNull],
      [int] is [Z] and [float] is an IEEE binary64 number.
    - Effects are explicit: every operation maps a [World] (clock, files,
      lock markers, backup directory, I/O trace) to a new world and a
      [result], which is either a value or a raised exception.
    - Wall-clock time is an integer number of milliseconds; it advances
      when the code sleeps and when the environment lets time pass. *)

From Stdlib Require Import ZArith Floats.
From stdpp Require Import gmap strings list fin_maps sorting pretty.
From Equations Require Import Equations.
From Equations.Prop Require Import Logic.

Set Warnings "-register-all".
Local Open Scope Z_scope.

(** ** JSON values and the Python operations the repository applies to them *)

Module Json.

Inductive json :=
| JNull
| JBool (b : bool)
| JInt (n : Z)
| JFloat (f : float)
| JStr (s : string)
| JArr (l : list json)
| JObj (d : gmap string json).

(** [d.get(k)]: the value stored under [k], or [None]. *)
Definition py_get (d : gmap string json) (k : string) : json :=
  default JNull (d !! k).

(** A Python number; [bool] is a subclass of [int]. *)
Inductive num := NInt (n : Z) | NFloat (f : float).

Definition as_num (v : json) : option num :=
  match v with
  | JBool b => Some (NInt (if b then 1 else 0))
  | JInt n => Some (NInt n)
  | JFloat f => Some (NFloat f)
  | _ => None
  end.

(** [int == float] compares the exact mathematical values. *)
Definition float_eq_int (f : float) (n : Z) : bool :=
  match Prim2SF f with
  | S754_zero _ => n =? 0
  | S754_finite s m e =>
      let v := if s then Z.neg m else Z.pos m in
      if 0 <=? e then n =? v * 2 ^ e else v =? n * 2 ^ (- e)
  | _ => false
  end.

Definition num_eq (x y : num) : bool :=
  match x, y with
  | NInt a, NInt b => a =? b
  | NFloat f, NFloat g => PrimFloat.eqb f g
  | NInt a, NFloat g => float_eq_int g a
  | NFloat f, NInt b => float_eq_int f b
  end.

(** Python's [==] on decoded JSON values. *)
Fixpoint py_eq (a b : json) {struct a} : bool :=
  match a, b with
  | JNull, JNull => true
  | JStr s, JStr t => bool_decide (s = t)
  | JArr l, JArr m =>
      (fix go (l m : list json) : bool :=
         match l, m with
         | [], [] => true
         | x :: l', y :: m' => py_eq x y && go l' m'
         | _, _ => false
         end) l m
  | JObj d, JObj e =>
      map_fold (λ _ (same : bool) acc, same && acc) true
        (merge (λ x y, match x, y with
                       | Some u, Some v => Some (py_eq u v)
                       | None, None => None
                       | _, _ => Some false
                       end) d e)
  | _, _ =>
      match as_num a, as_num b with
      | Some x, Some y => num_eq x y
      | _, _ => false
      end
  end.

(** Truth value of a decoded JSON value ([not v] is its negation). *)
Definition truthy (v : json) : bool :=
  match v with
  | JNull => false
  | JBool b => b
  | JInt n => negb (n =? 0)
  | JFloat f => negb (PrimFloat.eqb f 0%float)
  | JStr s => negb (bool_decide (s = ""%string))
  | JArr l => match l with [] => false | _ => true end
  | JObj d => match map_to_list d with [] => false | _ => true end
  end.

Definition is_obj (v : json) : bool :=
  match v with JObj _ => true | _ => false end.

Definition is_null (v : json) : bool :=
  match v with JNull => true | _ => false end.

(** [_deep_merge]: the value stored under a key that [incoming] provides.
    [cur] is what [out] holds under that key ([None] when absent). *)
Fixpoint merge_value (v : json) (cur : option json) {struct v} : json :=
  match v, cur with
  | JObj inc, Some (JObj ex) =>
      JObj (merge (λ oi oe, match oi with
                            | Some vi => Some (merge_value vi oe)
                            | None => oe
                            end) inc ex)
  | _, _ => v
  end.

(** [_deep_merge(existing, incoming)]. *)
Definition _deep_merge (existing incoming : gmap string json) : gmap string json :=
  merge (λ oi oe, match oi with
                  | Some vi => Some (merge_value vi oe)
                  | None => oe
                  end) incoming existing.

End Json.

(** ** The repository layer, [core/repo.py] *)

Module Repo.
Import Json.

(** A [pathlib.Path] split the way the code uses it: [name = stem ++ suffix]. *)
Record Path := mkPath { parent : string; stem : string; suffix : string }.

#[export] Instance Path_eq_dec : EqDecision Path.
Proof. solve_decision. Defined.

#[export] Instance Path_countable : Countable Path.
Proof.
  refine (inj_countable' (λ p, (parent p, stem p, suffix p))
                         (λ t, mkPath t.1.1 t.1.2 t.2) _).
  by intros [].
Defined.

Definition name (p : Path) : string := stem p +:+ suffix p.

Definition DATA_DIR : string := "data".
Definition STUDENTS_F := mkPath DATA_DIR "students" ".json".
Definition TEACHERS_F := mkPath DATA_DIR "teachers" ".json".
Definition COURSES_F := mkPath DATA_DIR "courses" ".json".
Definition THESIS_F := mkPath DATA_DIR "thesis" ".json".
Definition DEFENDED_F := mkPath DATA_DIR "defended_thesis" ".json".
Definition NOTIF_F := mkPath DATA_DIR "notifications" ".json".

(** JSON defaults *)
Definition _DEFAULTS : gmap Path json :=
  {[ STUDENTS_F := JArr []; TEACHERS_F := JArr []; COURSES_F := JArr [];
     THESIS_F := JArr []; DEFENDED_F := JArr []; NOTIF_F := JArr [] ]}.

(** Locking; the three durations are in milliseconds. *)
Definition LOCK_TIMEOUT_SEC : Z := 10000.
Definition LOCK_SLEEP_SEC : Z := 50.
Definition STALE_LOCK_SEC : Z := 60000.

(** Backup retention *)
Definition BACKUP_RETAIN_PER_FILE : nat := 10.

Inductive exn :=
| TimeoutError (path : Path)
| ValueError (msg : string)
| AttributeError
| TypeError
| FileNotFoundError
| JSONDecodeError.

Inductive result (A : Type) :=
| Ok (a : A)
| Raise (e : exn).
Arguments Ok {A} a.
Arguments Raise {A} e.

(** What the process does to the file system, newest event first. *)
Inductive event :=
| EvLockCreate (p : Path)               (* os.open(lockp, O_CREAT|O_EXCL) succeeded *)
| EvLockUnlink (p : Path)               (* lockp.unlink() *)
| EvSleep                               (* time.sleep(LOCK_SLEEP_SEC) *)
| EvRead (p : Path)                     (* path.read_text() *)
| EvReadSnapshot (st : string) (ts : Z) (* cand.read_text() *)
| EvSnapshot (p : Path) (ts : Z)        (* shutil.copy2(path, dst) *)
| EvPrune (st : string) (ts : Z)        (* old.unlink() *)
| EvWrite (p : Path)                    (* os.replace(tmp, path) *)
| EvAudit (level action detail : string).


Definition rbind {A B} (r : result A) (k : A → result B) : result B :=
  match r with
  | Ok a => k a
  | Raise e => Raise e
  end.

Notation "x <~ r ;; k" := (rbind r (λ x, k))
  (at level 100, r at next level, right associativity).

(** [sub in s] for two strings, [sub] not empty *)
Definition str_in (sub s : string) : bool :=
  match String.index 0 sub s with
  | Some _ => true
  | None => false
  end.

(** The order of [sorted(..., reverse=True)] on the seconds of slot names. *)
Definition newer_first (a b : Z) : Prop := b ≤ a.

#[export] Instance newer_first_dec a b : Decision (newer_first a b).
Proof. unfold newer_first. apply _. Defined.

Section Repository.

(** The text of a file and the two functions of Python's [json] module the
    repository calls: [json.dumps(data, ensure_ascii=False, indent=2)] and
    [json.loads(text)], which fails on text that is not JSON. *)
Context {text : Type}.
Variable dumps : json → text.
Variable loads : text → option json.

(** The part of the machine the repository touches. [files] holds the
    resource files, [markers] the sidecar lock files with their [st_mtime],
    [snapshots] the backup directory: the slot [BACKUP_DIR/<stem>_<ts>.json]
    is the key [(stem, ts)], with [ts] the UTC second that [strftime]
    prints (the printed names sort as the seconds do). *)
Record World := mkWorld {
  clock : Z;
  files : gmap Path text;
  markers : gmap Path Z;
  snapshots : gmap (string * Z) text;
  trace : list event;
}.

Definition log (e : event) (w : World) : World :=
  mkWorld (clock w) (files w) (markers w) (snapshots w) (e :: trace w).
Definition set_clock (t : Z) (w : World) : World :=
  mkWorld t (files w) (markers w) (snapshots w) (trace w).
Definition set_files (f : gmap Path text) (w : World) : World :=
  mkWorld (clock w) f (markers w) (snapshots w) (trace w).
Definition set_markers (m : gmap Path Z) (w : World) : World :=
  mkWorld (clock w) (files w) m (snapshots w) (trace w).
Definition set_snapshots (s : gmap (string * Z) text) (w : World) : World :=
  mkWorld (clock w) (files w) (markers w) s (trace w).

(** Computations that read and change the world and may raise. *)
Definition M (A : Type) : Type := World → World * result A.

Definition ret {A} (a : A) : M A := λ w, (w, Ok a).
Definition raise {A} (e : exn) : M A := λ w, (w, Raise e).
Definition bind {A B} (m : M A) (k : A → M B) : M B :=
  λ w, match m w with
       | (w', Ok a) => k a w'
       | (w', Raise e) => (w', Raise e)
       end.
(** [try: m finally: c], for a clean-up [c] that does not raise. *)
Definition finally {A} (m : M A) (c : World → World) : M A :=
  λ w, let (w', r) := m w in (c w', r).
(** [try: m except Exception: h]. *)
Definition catch {A} (m : M A) (h : exn → M A) : M A :=
  λ w, match m w with
       | (w', Ok a) => (w', Ok a)
       | (w', Raise e) => h e w'
       end.
(** A step that only changes the world. *)
Definition effect (f : World → World) : M unit := λ w, (f w, Ok tt).

Notation "x <- m ;; k" := (bind m (λ x, k))
  (at level 100, m at next level, right associativity).
Notation "m ;;; k" := (bind m (λ _, k))
  (at level 100, right associativity).

(** *** Lock helpers (sidecar .lock) *)

Record _Lock := mk_Lock { path : Path; locked : bool }.

Definition _lock_path (p : Path) : Path :=
  mkPath (parent p) (stem p +:+ suffix p) ".lock".

(** [time.sleep(LOCK_SLEEP_SEC)] *)
Definition sleep (w : World) : World :=
  log EvSleep (set_clock (clock w + LOCK_SLEEP_SEC) w).

(** One pass through the body of the [while True] loop of [_acquire_lock]. *)
Inductive poll :=
| Acquired (w : World) (lk : _Lock)
| TimedOut (w : World)
| Retry (w : World).

Definition poll_once (p : Path) (timeout start : Z) (w : World) : poll :=
  let lockp := _lock_path p in
  match markers w !! lockp with
  | None =>
      Acquired (log (EvLockCreate lockp)
                  (set_markers (<[lockp := clock w]> (markers w)) w))
               (mk_Lock lockp true)
  | Some st_mtime =>
      let age := clock w - st_mtime in
      if STALE_LOCK_SEC <? age
      then Retry (log (EvLockUnlink lockp)
                    (set_markers (delete lockp (markers w)) w))
      else if timeout <? clock w - start
      then TimedOut w
      else Retry (sleep w)
  end.

(** A bound on the passes still to come: a free marker is taken at once, a
    stale one is removed and then taken, a fresh one is polled until the
    timeout has gone by. *)
Definition polls_left (p : Path) (timeout start : Z) (w : World) : nat :=
  match markers w !! _lock_path p with
  | None => 0
  | Some st_mtime =>
      if STALE_LOCK_SEC <? clock w - st_mtime then 1
      else 2 + Z.to_nat (timeout - (clock w - start) + LOCK_SLEEP_SEC)
  end.

Lemma poll_once_decreases p timeout start w w' :
  poll_once p timeout start w = Retry w' →
  (polls_left p timeout start w' < polls_left p timeout start w)%nat.
Proof.
  unfold poll_once, polls_left.
  destruct (markers w !! _lock_path p) as [m|] eqn:Hm; [|done].
  destruct (STALE_LOCK_SEC <? clock w - m) eqn:Hs.
  - intros [= <-]; simpl. rewrite lookup_delete_eq. lia.
  - destruct (timeout <? clock w - start) eqn:Ht; [done|].
    intros [= <-]; simpl. rewrite Hm.
    apply Z.ltb_ge in Ht. unfold LOCK_SLEEP_SEC in *.
    case_match; lia.
Qed.

Equations acquire_from (p : Path) (timeout start : Z) (w : World) :
  World * result _Lock by wf (polls_left p timeout start w) lt :=
  acquire_from p timeout start w with inspect (poll_once p timeout start w) := {
    | exist _ (Acquired w' lk) _ => (w', Ok lk)
    | exist _ (TimedOut w') _ => (w', Raise (TimeoutError p))
    | exist _ (Retry w') Hstep => acquire_from p timeout start w' }.
Next Obligation. by apply poll_once_decreases. Qed.

(** [_acquire_lock(path, timeout)] *)
Definition _acquire_lock (p : Path) (timeout : Z) : M _Lock :=
  λ w, acquire_from p timeout (clock w) w.

(** [_release_lock(lock)] *)
Definition _release_lock (lock : _Lock) (w : World) : World :=
  if locked lock && bool_decide (is_Some (markers w !! path lock))
  then log (EvLockUnlink (path lock))
         (set_markers (delete (path lock) (markers w)) w)
  else w.

(** *** Atomic IO & backups *)

(** [BACKUP_DIR.glob(f"{path.stem}_*.json")]: the seconds of the slots kept
    for this stem, in directory order. *)
Definition glob_snapshots (st : string) (w : World) : list Z :=
  omap (λ kv : string * Z * text,
          if decide (kv.1.1 = st) then Some kv.1.2 else None)
       (map_to_list (snapshots w)).

(** [sorted(..., reverse=True)] *)
Definition sorted_reverse (l : list Z) : list Z :=
  merge_sort newer_first l.

Definition unlink_snapshot (st : string) (ts : Z) (w : World) : World :=
  log (EvPrune st ts) (set_snapshots (delete (st, ts) (snapshots w)) w).

(** [_rotate_backup(path)]; it swallows its own failures and never raises. *)
Definition _rotate_backup (p : Path) (w : World) : World :=
  match files w !! p with
  | None => w
  | Some cur =>
      let ts := clock w `div` 1000 in
      let w1 := log (EvSnapshot p ts)
                  (set_snapshots (<[(stem p, ts) := cur]> (snapshots w)) w) in
      if bool_decide (0 < BACKUP_RETAIN_PER_FILE)%nat then
        let snaps := sorted_reverse (glob_snapshots (stem p) w1) in
        foldl (λ w' old, unlink_snapshot (stem p) old w') w1
              (drop BACKUP_RETAIN_PER_FILE snaps)
      else w1
  end.

(** [_atomic_write_text(path, text)]: the temporary file is renamed onto
    [path], which is the one change a reader can see. *)
Definition _atomic_write_text (p : Path) (t : text) (w : World) : World :=
  log (EvWrite p) (set_files (<[p := t]> (files w)) w).

(** *** JSON read/write (public) *)

Definition _audit_warn (who action detail : string) : M unit :=
  effect (log (EvAudit "WARN" action detail)).
Definition _audit_log (action who detail : string) : M unit :=
  effect (log (EvAudit "INFO" action detail)).

(** [path.read_text(encoding="utf-8")] *)
Definition read_text (p : Path) : M text :=
  λ w, match files w !! p with
       | Some t => (log (EvRead p) w, Ok t)
       | None => (log (EvRead p) w, Raise FileNotFoundError)
       end.

(** [cand.read_text(encoding="utf-8")] for a slot of the backup directory *)
Definition read_snapshot (st : string) (ts : Z) : M text :=
  λ w, match snapshots w !! (st, ts) with
       | Some t => (log (EvReadSnapshot st ts) w, Ok t)
       | None => (log (EvReadSnapshot st ts) w, Raise FileNotFoundError)
       end.

(** [json.loads(text)] *)
Definition json_loads (t : text) : M json :=
  match loads t with
  | Some v => ret v
  | None => raise JSONDecodeError
  end.

(** The [for cand in candidates] loop of [read_json]: the first candidate
    that can be read and parsed, if there is one. *)
Fixpoint first_parsing (st : string) (candidates : list Z) : M (option json) :=
  match candidates with
  | [] => ret None
  | cand :: rest =>
      catch (t <- read_snapshot st cand ;; v <- json_loads t ;; ret (Some v))
            (λ _, first_parsing st rest)
  end.

Definition is_dict_or_list (v : json) : bool :=
  match v with JObj _ | JArr _ => true | _ => false end.

(** [read_json(path)] *)
Definition read_json (p : Path) : M json :=
  catch (t <- read_text p ;; json_loads t)
        (λ ex,
           _audit_warn "repo" "JSON_READ_FAILED" (name p) ;;;
           (λ w,
              let candidates := sorted_reverse (glob_snapshots (stem p) w) in
              (found <- first_parsing (stem p) candidates ;;
               match found with
               | Some v => ret v
               | None =>
                   let default := default (JArr []) (_DEFAULTS !! p) in
                   ret (if is_dict_or_list default then default else JArr [])
               end) w)).

(** [write_json(path, data)] *)
Definition write_json (p : Path) (data : json) : M unit :=
  lock <- _acquire_lock p LOCK_TIMEOUT_SEC ;;
  finally (effect (_rotate_backup p) ;;;
           effect (_atomic_write_text p (dumps data)))
          (_release_lock lock).

(** [atomic_write]: backward-compat alias *)
Definition atomic_write (p : Path) (data : json) : M unit := write_json p data.

(** What a call [fn(data)] of a transform does: it raises, or it returns
    after leaving the object it was given in the state [data'], and what it
    returns is that same object or some other object [out] (with [JNull]
    for [None]). A transform may read the world (the clock), not change it. *)
Inductive fn_outcome :=
| Raises (e : exn)
| ReturnsArg (data' : json)
| ReturnsObj (data' : json) (out : json).

Definition transform : Type := json → World → fn_outcome.

(** [update_atomic(path, fn)] *)
Definition update_atomic (p : Path) (fn : option transform) : M json :=
  lock <- _acquire_lock p LOCK_TIMEOUT_SEC ;;
  finally
    (data <- read_json p ;;
     step <- (λ w,
        match fn with
        | None => (w, Ok (data, JNull))
        | Some f =>
            match f data w with
            | Raises e => (w, Raise e)
            | ReturnsArg data' => (w, Ok (data', data'))
            | ReturnsObj data' out =>
                (* if out is not None and out is not data: data = out *)
                (w, Ok (if is_null out then data' else out, out))
            end
        end) ;;
     effect (_rotate_backup p) ;;;
     effect (_atomic_write_text p (dumps step.1)) ;;;
     ret step.2)
    (_release_lock lock).

(** *** Schema validation (light) *)

(** [_is_email(s)]: [bool(s) and ("@" in s) and (" " not in s)], for
    whatever value the record holds under ["email"]. *)
Definition _is_email (s : json) : result bool :=
  if negb (truthy s) then Ok false else
  match s with
  | JStr e => Ok (str_in "@" e && negb (str_in " " e))
  | JArr l => Ok (existsb (py_eq (JStr "@")) l && negb (existsb (py_eq (JStr " ")) l))
  | JObj d => Ok (bool_decide (is_Some (d !! "@")) && negb (bool_decide (is_Some (d !! " "))))
  | _ => Raise TypeError
  end.

Definition is_str (v : json) : bool :=
  match v with JStr _ => true | _ => false end.

(** [validate_student(rec)] *)
Definition validate_student (rec : gmap string json) : result (bool * string) :=
  let ok := is_str (default (JStr "") (rec !! "name"))
            && is_str (default (JStr "") (rec !! "student_code")) in
  let ok := ok && is_str (default (JStr "") (rec !! "password_hash")) in
  let email := default (JStr "") (rec !! "email") in
  if truthy email then
    good <~ _is_email email ;;
    if negb good then Ok (false, "Invalid student email") else Ok (ok, "OK")
  else Ok (ok, "OK").

(** *** Registration & updates *)

(** [core.security.hash_password] (bcrypt) and [_now_iso] (the clock
    printed as ISO-8601) are library code. *)
Variable hash_password : string → string.
Variable _now_iso : Z → string.

(** [any(s.get(key) == v for s in records)] *)
Fixpoint any_field_eq (key : string) (v : json) (records : list json) : result bool :=
  match records with
  | [] => Ok false
  | JObj s :: rest =>
      if py_eq (py_get s key) v then Ok true else any_field_eq key v rest
  | _ :: _ => Raise AttributeError
  end.

(** The record [register_student] builds *)
Definition student_record (name student_code password : string)
    (email : option string) (now : Z) : gmap string json :=
  {[ "name" := JStr name;
     "student_code" := JStr student_code;
     "password_hash" := JStr (hash_password password);
     "email" := JStr (default "" email);
     "created_at" := JStr (_now_iso now);
     "active" := JBool true ]}.

(** The transform [_fn] of [register_student] *)
Definition register_student_fn (name student_code password : string)
    (email : option string) : transform :=
  λ data w,
    let students := match data with JArr l => l | _ => [] end in
    match any_field_eq "student_code" (JStr student_code) students with
    | Raise e => Raises e
    | Ok true => Raises (ValueError "student_code already exists")
    | Ok false =>
        let rec := student_record name student_code password email (clock w) in
        match validate_student rec with
        | Raise e => Raises e
        | Ok (false, msg) => Raises (ValueError ("Invalid student record: " +:+ msg))
        | Ok (true, _) =>
            match data with
            | JArr l => ReturnsArg (JArr (l ++ [JObj rec]))
            | _ => ReturnsObj data (JArr [JObj rec])
            end
        end
    end.

(** [for s in records: if s.get(key) == v: return s], then [return {}] *)
Fixpoint first_with_field (key : string) (v : json) (records : list json) : result json :=
  match records with
  | [] => Ok (JObj ∅)
  | JObj s :: rest =>
      if py_eq (py_get s key) v then Ok (JObj s) else first_with_field key v rest
  | _ :: _ => Raise AttributeError
  end.

(** Iterating over a decoded value that need not be a list: a [dict]
    yields its keys and a [str] its characters, none of which has [get]. *)
Definition scan_for_field (key : string) (v : json) (data : json) : result json :=
  match data with
  | JArr l => first_with_field key v l
  | JObj d => if bool_decide (d = ∅ :> gmap string json) then Ok (JObj ∅) else Raise AttributeError
  | JStr s => if bool_decide (s = ""%string) then Ok (JObj ∅) else Raise AttributeError
  | _ => Raise TypeError
  end.

Definition lift {A} (r : result A) : M A :=
  λ w, (w, r).

(** [register_student(name, student_code, password, email)] *)
Definition register_student (name student_code password : string)
    (email : option string) : M json :=
  update_atomic STUDENTS_F
    (Some (register_student_fn name student_code password email)) ;;;
  _audit_log "REGISTER_STUDENT" "repo" student_code ;;;
  students <- read_json STUDENTS_F ;;
  lift (scan_for_field "student_code" (JStr student_code) students).

(** *** Thesis helpers *)

(** [str(x)], used to print a value into an audit line or a judge code *)
Variable py_str : json → string.

(** The [for i, th in enumerate(theses)] loop of [upsert_thesis]: the list
    with the first matching record merged, or [None] when none matched. *)
Fixpoint upsert_loop (sc cid : json) (thesis : gmap string json)
    (theses : list json) : result (option (list json)) :=
  match theses with
  | [] => Ok None
  | JObj th :: rest =>
      if py_eq (py_get th "student_code") sc && py_eq (py_get th "course_id") cid
      then Ok (Some (JObj (_deep_merge th thesis) :: rest))
      else
        done <~ upsert_loop sc cid thesis rest ;;
        Ok (cons (JObj th) <$> done)
  | _ :: _ => Raise AttributeError
  end.

(** The transform [_fn] of [upsert_thesis] *)
Definition upsert_thesis_fn (sc cid : json) (thesis : gmap string json) : transform :=
  λ data _,
    match data with
    | JArr theses =>
        match upsert_loop sc cid thesis theses with
        | Raise e => Raises e
        | Ok (Some theses') => ReturnsArg (JArr theses')
        | Ok None => ReturnsArg (JArr (theses ++ [JObj thesis]))
        end
    | _ => ReturnsObj data (JArr [JObj thesis])
    end.

(** [upsert_thesis(thesis)] *)
Definition upsert_thesis (thesis : gmap string json) : M unit :=
  let sc := py_get thesis "student_code" in
  let cid := py_get thesis "course_id" in
  if negb (truthy sc) || negb (truthy cid)
  then raise (ValueError "thesis must include student_code and course_id")
  else
    update_atomic THESIS_F (Some (upsert_thesis_fn sc cid thesis)) ;;;
    _audit_log "UPSERT_THESIS" "repo" (py_str sc +:+ "/" +:+ py_str cid).

(** *** Defense archive helpers *)

(** [str.lower], [round(x, 2)] and the notification record that
    [core.notifications.emit] builds (identifier, time stamp, sanitised
    payload) are library or out-of-core code. *)
Variable py_lower : string → string.
Variable py_round2 : float → float.
Variable notification_record : string → json → Z → json.

Definition judges_pair (internal external : string) : json :=
  JObj {[ "internal" := JStr internal; "external" := JStr external ]}.

(** [x or ""] *)
Definition or_empty (x : json) : json :=
  if truthy x then x else JStr "".

(** The [for j in judges] loop of [_normalize_judges], filling [role_map] *)
Fixpoint judges_by_role (judges : list json) (role_map : gmap string string) :
    result (gmap string string) :=
  match judges with
  | [] => Ok role_map
  | JObj j :: rest =>
      match or_empty (py_get j "role") with
      | JStr role =>
          let r := py_lower role in
          let c := py_str (or_empty (py_get j "code")) in
          if bool_decide (r = "internal"%string) || bool_decide (r = "external"%string)
          then judges_by_role rest (<[r := c]> role_map)
          else judges_by_role rest role_map
      | _ => Raise AttributeError
      end
  | _ :: _ => Raise AttributeError
  end.

(** [isinstance(x, (str, int))]; a [bool] is an [int] *)
Definition is_str_or_int (x : json) : bool :=
  match x with JStr _ | JInt _ | JBool _ => true | _ => false end.

(** [_normalize_judges(judges)] *)
Definition _normalize_judges (judges : json) : result json :=
  match judges with
  | JObj d =>
      Ok (judges_pair (py_str (default (JStr "") (d !! "internal")))
                      (py_str (default (JStr "") (d !! "external"))))
  | JArr (JObj j0 :: rest) =>
      role_map <~ judges_by_role (JObj j0 :: rest) ∅ ;;
      Ok (judges_pair (default "" (role_map !! "internal"))
                      (default "" (role_map !! "external")))
  | JArr (x0 :: x1 :: _) =>
      if is_str_or_int x0 && is_str_or_int x1
      then Ok (judges_pair (py_str x0) (py_str x1))
      else Ok (judges_pair "" "")
  | _ => Ok (judges_pair "" "")
  end.

(** [core.rules.ensure_score_range] *)
Definition ensure_score_range (s : float) : result float :=
  if PrimFloat.ltb s 0 || PrimFloat.ltb 20 s
  then Raise (ValueError "Score must be between 0 and 20")
  else Ok s.

(** [core.rules.grade_letter] *)
Definition grade_letter (s : float) : string :=
  if PrimFloat.leb 17 s && PrimFloat.leb s 20 then "A"
  else if PrimFloat.leb 13 s && PrimFloat.ltb s 17 then "B"
  else if PrimFloat.leb 10 s && PrimFloat.ltb s 13 then "C"
  else "D".

(** [core.rules.grade_letter_fa] *)
Definition grade_letter_fa (s : float) : string :=
  let g := grade_letter s in
  if bool_decide (g = "A"%string) then "الف"
  else if bool_decide (g = "B"%string) then "ب"
  else if bool_decide (g = "C"%string) then "ج"
  else "د".

(** The arguments of [archive_defense] *)
Record defense := mkDefense {
  student_code : string;
  course_id : string;
  title : string;
  year : Z;
  semester : string;
  supervisor_code : string;
  judges : json;
  scores : gmap string float;
  attendees : option (list string);
  defense_files : gmap string string;
}.

(** The record [rec] that [archive_defense] builds, at clock reading [now] *)
Definition defense_record (a : defense) (now : Z) : result (gmap string json) :=
  s_sup <~ ensure_score_range (default 0%float (scores a !! "supervisor")) ;;
  s_int <~ ensure_score_range (default 0%float (scores a !! "internal")) ;;
  s_ext <~ ensure_score_range (default 0%float (scores a !! "external")) ;;
  let avg := py_round2 (PrimFloat.div (PrimFloat.add (PrimFloat.add s_sup s_int) s_ext) 3) in
  norm <~ _normalize_judges (judges a) ;;
  Ok (list_to_map
        [ ("student_code", JStr (student_code a));
          ("course_id", JStr (course_id a));
          ("title", JStr (title a));
          ("year", JInt (year a));
          ("semester", JStr (semester a));
          ("supervisor", JStr (supervisor_code a));
          ("judges", norm);
          ("scores", JObj {[ "supervisor" := JFloat s_sup;
                             "internal" := JFloat s_int;
                             "external" := JFloat s_ext ]});
          ("score", JFloat avg);
          ("grade_letter", JStr (grade_letter avg));
          ("grade_letter_fa", JStr (grade_letter_fa avg));
          ("attendees", JArr (JStr <$> default [] (attendees a)));
          ("files", JObj (JStr <$> defense_files a));
          ("finalized_at", JStr (_now_iso now)) ] : gmap string json).

(** The list comprehension of [archive_defense]: the records whose key is
    not [(student_code, course_id)] *)
Fixpoint without_key (sc cid : string) (archive : list json) : result (list json) :=
  match archive with
  | [] => Ok []
  | JObj r :: rest =>
      kept <~ without_key sc cid rest ;;
      if py_eq (py_get r "student_code") (JStr sc) && py_eq (py_get r "course_id") (JStr cid)
      then Ok kept
      else Ok (JObj r :: kept)
  | _ :: _ => Raise AttributeError
  end.

(** The transform [_fn] of [archive_defense] *)
Definition archive_defense_fn (sc cid : string) (rec : gmap string json) : transform :=
  λ data _,
    let archive := match data with JArr l => l | _ => [] end in
    match without_key sc cid archive with
    | Raise e => Raises e
    | Ok kept => ReturnsObj data (JArr (kept ++ [JObj rec]))
    end.

(** [core.notifications]: the window of the notification list *)
Definition NOTIF_MEMORY_MAX : nat := 2000.

(** [core.notifications._append_to_notif_list(rec)] *)
Definition _append_to_notif_list (rec : json) : M unit :=
  data <- read_json NOTIF_F ;;
  let data := match data with JArr l => l | _ => [] end in
  let data := data ++ [rec] in
  let data := if bool_decide (NOTIF_MEMORY_MAX < length data)%nat
              then drop (length data - NOTIF_MEMORY_MAX) data
              else data in
  atomic_write NOTIF_F (JArr data).

(** [core.notifications.emit(event, payload, ...)], as far as it touches
    the resources: the console and the JSONL mirror are other sinks. *)
Definition _emit (ev : string) (payload : json) : M unit :=
  λ w, _append_to_notif_list (notification_record ev payload (clock w)) w.

(** [archive_defense(student_code, course_id, ...)] *)
Definition archive_defense (a : defense) : M json :=
  rec <- (λ w, (w, defense_record a (clock w))) ;;
  update_atomic DEFENDED_F
    (Some (archive_defense_fn (student_code a) (course_id a) rec)) ;;;
  _audit_log "ARCHIVE_DEFENSE" "repo"
    (student_code a +:+ "/" +:+ course_id a +:+ " grade="
       +:+ py_str (py_get rec "grade_letter")) ;;;
  _emit "finalized"
    (JObj {[ "student" := JStr (student_code a);
             "course" := JStr (course_id a);
             "score" := py_get rec "score" ]}) ;;;
  ret (JObj rec).

(** ** Properties of the lock helpers *)

Lemma acquire_from_step p timeout start w :
  acquire_from p timeout start w =
  match poll_once p timeout start w with
  | Acquired w' lk => (w', Ok lk)
  | TimedOut w' => (w', Raise (TimeoutError p))
  | Retry w' => acquire_from p timeout start w'
  end.
Proof.
  funelim (acquire_from p timeout start w);
    match goal with e : poll_once _ _ _ _ = _ |- _ => by rewrite e end.
Qed.

(** A free marker is taken by the first pass. *)
Lemma acquire_lock_free p timeout w :
  markers w !! _lock_path p = None →
  _acquire_lock p timeout w =
    (log (EvLockCreate (_lock_path p))
       (set_markers (<[_lock_path p := clock w]> (markers w)) w),
     Ok (mk_Lock (_lock_path p) true)).
Proof.
  intros Hfree. unfold _acquire_lock.
  rewrite acquire_from_step. unfold poll_once. by rewrite Hfree.
Qed.

(** [n] consecutive sleeps of the polling loop *)
Fixpoint sleeps (n : nat) (w : World) : World :=
  match n with
  | O => w
  | S k => sleeps k (sleep w)
  end.

Lemma sleeps_clock n w : clock (sleeps n w) = clock w + LOCK_SLEEP_SEC * Z.of_nat n.
Proof.
  revert w; induction n as [|n IH]; intros w; simpl; [lia|].
  rewrite IH. simpl. lia.
Qed.

Lemma sleeps_frame n w :
  files (sleeps n w) = files w ∧ markers (sleeps n w) = markers w
  ∧ snapshots (sleeps n w) = snapshots w
  ∧ trace (sleeps n w) = replicate n EvSleep ++ trace w.
Proof.
  revert w; induction n as [|n IH]; intros w; simpl; [done|].
  destruct (IH (sleep w)) as (-> & -> & -> & ->). simpl.
  repeat split.
  rewrite (app_comm_cons (replicate n EvSleep)), replicate_cons_app.
  by rewrite <- app_assoc.
Qed.

(** A marker that stays fresh is polled until the timeout has gone by. *)
Lemma acquire_from_held p timeout start m n : ∀ w,
  markers w !! _lock_path p = Some m →
  clock w + LOCK_SLEEP_SEC * Z.of_nat n - m ≤ STALE_LOCK_SEC →
  timeout < clock w - start + LOCK_SLEEP_SEC * Z.of_nat n →
  clock w - start + LOCK_SLEEP_SEC * (Z.of_nat n - 1) ≤ timeout ∨ n = O →
  acquire_from p timeout start w = (sleeps n w, Raise (TimeoutError p)).
Proof.
  unfold LOCK_SLEEP_SEC.
  induction n as [|n IH]; intros w Hm Hfresh Hlate Hearly;
    rewrite acquire_from_step; unfold poll_once; rewrite Hm; simpl.
  - rewrite (proj2 (Z.ltb_ge _ _)) by lia.
    by rewrite (proj2 (Z.ltb_lt _ _)) by lia.
  - rewrite (proj2 (Z.ltb_ge _ _)) by lia.
    rewrite (proj2 (Z.ltb_ge timeout _)) by lia.
    apply IH; simpl; unfold LOCK_SLEEP_SEC; try lia. done.
Qed.

(** Events of the lock protocol: no read or write of a resource or of the
    backup directory is among them. *)
Definition is_lock_event (e : event) : bool :=
  match e with
  | EvLockCreate _ | EvLockUnlink _ | EvSleep => true
  | _ => false
  end.

(** What [_acquire_lock] leaves alone, and what it returns. *)
Lemma acquire_from_frame p timeout start w :
  ∀ w' r, acquire_from p timeout start w = (w', r) →
  files w' = files w ∧ snapshots w' = snapshots w ∧ clock w ≤ clock w'
  ∧ (∃ evs, trace w' = evs ++ trace w ∧ forallb is_lock_event evs = true)
  ∧ match r with
    | Ok lk => lk = mk_Lock (_lock_path p) true
               ∧ markers w' = <[_lock_path p := clock w']> (markers w)
    | Raise e => e = TimeoutError p ∧ markers w' = markers w
                 ∧ is_Some (markers w !! _lock_path p)
    end.
Proof.
  remember (polls_left p timeout start w) as n eqn:Hn. revert w Hn.
  induction n as [n IH] using lt_wf_ind. intros w Hn w1 r.
  rewrite acquire_from_step.
  destruct (poll_once p timeout start w) as [w'|w'|w'] eqn:Hpoll.
  3: { pose proof (poll_once_decreases _ _ _ _ _ Hpoll) as Hdec. intros Heq.
       destruct (IH _ ltac:(subst n; exact Hdec) w' eq_refl _ _ Heq)
         as (Hf & Hs & Hc & (evs & Ht & Hevs) & Hr).
       clear IH Hdec Heq. revert Hpoll. unfold poll_once.
       destruct (markers w !! _lock_path p) as [m|] eqn:Hm; [|done].
       destruct (STALE_LOCK_SEC <? clock w - m) eqn:Hstale.
       - intros [= <-]. simpl in *. repeat split; try done.
         + exists (evs ++ [EvLockUnlink (_lock_path p)]).
           rewrite <- app_assoc. split; [done|].
           rewrite forallb_app, Hevs. done.
         + destruct r as [lk|ex].
           * destruct Hr as [-> ->]. split; [done|]. by rewrite insert_delete_eq.
           * destruct Hr as (_ & _ & [? Hx]). by rewrite lookup_delete_eq in Hx.
       - destruct (timeout <? clock w - start) eqn:Hlate; [done|].
         intros [= <-]. simpl in *. unfold LOCK_SLEEP_SEC in *.
         repeat split; try done; try lia.
         + exists (evs ++ [EvSleep]).
           rewrite <- app_assoc. split; [done|].
           rewrite forallb_app, Hevs. done.
         + destruct r as [lk0|ex]; [done|].
           destruct Hr as (-> & -> & _). done. }
  all: intros [= <- <-]; clear IH; revert Hpoll; unfold poll_once;
    destruct (markers w !! _lock_path p) as [m|] eqn:Hm;
    repeat case_match; try done; intros [= <-]; subst; simpl.
  - repeat split; try done; try lia. by exists [EvLockCreate (_lock_path p)].
  - repeat split; try done; try lia. by exists [].
Qed.

Lemma acquire_lock_frame p timeout w w' r :
  _acquire_lock p timeout w = (w', r) →
  files w' = files w ∧ snapshots w' = snapshots w ∧ clock w ≤ clock w'
  ∧ (∃ evs, trace w' = evs ++ trace w ∧ forallb is_lock_event evs = true)
  ∧ match r with
    | Ok lk => lk = mk_Lock (_lock_path p) true
               ∧ markers w' = <[_lock_path p := clock w']> (markers w)
    | Raise e => e = TimeoutError p ∧ markers w' = markers w
                 ∧ is_Some (markers w !! _lock_path p)
    end.
Proof. apply acquire_from_frame. Qed.

(** Releasing the lock just acquired removes the marker and nothing else. *)
Lemma release_lock_frame p w :
  let w' := _release_lock (mk_Lock (_lock_path p) true) w in
  files w' = files w ∧ snapshots w' = snapshots w ∧ clock w' = clock w
  ∧ markers w' = delete (_lock_path p) (markers w)
  ∧ (∃ evs, trace w' = evs ++ trace w ∧ forallb is_lock_event evs = true).
Proof.
  unfold _release_lock; simpl. case_bool_decide as Hm; simpl.
  - repeat split. by exists [EvLockUnlink (_lock_path p)].
  - repeat split; [|by exists []].
    symmetry. apply delete_id. by apply eq_None_not_Some.
Qed.

(** C4. Stale lock recovery: a marker older than the staleness threshold is
    removed by the first pass of [_acquire_lock] and the second pass takes
    the lock, so acquisition succeeds without any sleep, whatever the
    timeout is; the clock has not moved and the new marker carries the
    current time. *)
Theorem acquire_lock_takes_over_stale_marker p timeout w st_mtime :
  markers w !! _lock_path p = Some st_mtime →
  STALE_LOCK_SEC < clock w - st_mtime →
  ∃ w', _acquire_lock p timeout w = (w', Ok (mk_Lock (_lock_path p) true))
    ∧ clock w' = clock w
    ∧ markers w' = <[_lock_path p := clock w]> (markers w)
    ∧ trace w' = [EvLockCreate (_lock_path p); EvLockUnlink (_lock_path p)] ++ trace w
    ∧ files w' = files w ∧ snapshots w' = snapshots w.
Proof.
  intros Hm Hstale. unfold _acquire_lock.
  rewrite acquire_from_step. unfold poll_once at 1. rewrite Hm. simpl.
  rewrite (proj2 (Z.ltb_lt _ _)) by done.
  rewrite acquire_from_step. unfold poll_once. simpl.
  rewrite lookup_delete_eq. eexists; split; [done|]. simpl.
  by rewrite insert_delete_eq.
Qed.

(** C5. Lock timeout: while the marker of another holder stays in place and
    never becomes stale during the attempt, [_acquire_lock] polls until the
    elapsed wait exceeds the timeout and then raises [TimeoutError]; it has
    only slept. With the default timeout the callers [update_atomic] and
    [write_json] raise the same error in the same world: the transform is
    not called and the resource is neither read nor written. *)
Theorem acquire_lock_times_out p timeout w st_mtime :
  markers w !! _lock_path p = Some st_mtime →
  0 ≤ timeout →
  clock w + timeout + LOCK_SLEEP_SEC - st_mtime ≤ STALE_LOCK_SEC →
  ∃ w' n, _acquire_lock p timeout w = (w', Raise (TimeoutError p))
    ∧ timeout < clock w' - clock w ≤ timeout + LOCK_SLEEP_SEC
    ∧ files w' = files w ∧ snapshots w' = snapshots w ∧ markers w' = markers w
    ∧ trace w' = replicate n EvSleep ++ trace w
    ∧ (timeout = LOCK_TIMEOUT_SEC →
       (∀ fn, update_atomic p fn w = (w', Raise (TimeoutError p)))
       ∧ (∀ data, write_json p data w = (w', Raise (TimeoutError p)))).
Proof.
  intros Hm Hpos Hfresh.
  set (n := Z.to_nat (timeout `div` LOCK_SLEEP_SEC + 1)).
  assert (Hn : LOCK_SLEEP_SEC * (Z.of_nat n - 1) ≤ timeout
               < LOCK_SLEEP_SEC * Z.of_nat n).
  { unfold n, LOCK_SLEEP_SEC.
    pose proof (Z.div_mod timeout 50 ltac:(done)).
    pose proof (Z.mod_pos_bound timeout 50 ltac:(done)).
    assert (0 ≤ timeout `div` 50) by (apply Z.div_pos; lia).
    rewrite Z2Nat.id by lia. lia. }
  assert (Hacq : _acquire_lock p timeout w = (sleeps n w, Raise (TimeoutError p))).
  { unfold _acquire_lock. apply (acquire_from_held _ _ _ st_mtime); try done.
    - unfold LOCK_SLEEP_SEC in *. lia.
    - lia.
    - left. lia. }
  exists (sleeps n w), n. destruct (sleeps_frame n w) as (Hf & Hmk & Hs & Ht).
  rewrite sleeps_clock. repeat split; try done; try (unfold LOCK_SLEEP_SEC in *; lia).
  - intros fn. unfold update_atomic, bind. subst timeout. by rewrite Hacq.
  - intros data. unfold write_json, bind. subst timeout. by rewrite Hacq.
Qed.

(** ** Properties of the backup directory listing *)

#[local] Instance newer_first_total : Total newer_first.
Proof. intros a b. unfold newer_first. lia. Qed.
#[local] Instance newer_first_trans : Transitive newer_first.
Proof. intros a b c. unfold newer_first. lia. Qed.
#[local] Instance newer_first_antisymm : AntiSymm (=) newer_first.
Proof. intros a b. unfold newer_first. lia. Qed.

Lemma glob_snapshots_keys st w :
  glob_snapshots st w
  = snd <$> filter (λ k : string * Z, k.1 = st) (map_to_list (snapshots w)).*1.
Proof.
  unfold glob_snapshots. induction (map_to_list (snapshots w)) as [|[[s ts] t] l IH];
    [done|]. cbn [omap list_omap fmap list_fmap]. rewrite filter_cons. cbn [fst snd].
  destruct (decide (s = st)); simpl; by rewrite IH.
Qed.

Lemma glob_snapshots_elem st w ts :
  ts ∈ glob_snapshots st w ↔ is_Some (snapshots w !! (st, ts)).
Proof.
  rewrite glob_snapshots_keys, list_elem_of_fmap. split.
  - intros ([s ts'] & -> & Hin). apply list_elem_of_filter in Hin as [Hs Hin].
    simpl in Hs; subst s. apply list_elem_of_fmap in Hin as ([k t] & Hk & Hin).
    simpl in Hk; subst k. apply elem_of_map_to_list in Hin. simpl. by eexists.
  - intros [t Ht]. exists (st, ts). split; [done|].
    apply list_elem_of_filter. split; [done|].
    apply list_elem_of_fmap. exists ((st, ts), t). split; [done|].
    by apply elem_of_map_to_list.
Qed.

Lemma glob_snapshots_NoDup st w : NoDup (glob_snapshots st w).
Proof.
  rewrite glob_snapshots_keys. apply NoDup_fmap_2_strong.
  - intros [s1 t1] [s2 t2] H1 H2 Heq. simpl in Heq. subst t2.
    apply list_elem_of_filter in H1 as [H1 _], H2 as [H2 _]. simpl in *. congruence.
  - apply NoDup_filter, NoDup_fst_map_to_list.
Qed.

Lemma sorted_reverse_elem l ts : ts ∈ sorted_reverse l ↔ ts ∈ l.
Proof. unfold sorted_reverse. by rewrite merge_sort_Permutation. Qed.

Lemma sorted_reverse_NoDup l : NoDup l → NoDup (sorted_reverse l).
Proof. unfold sorted_reverse. by rewrite merge_sort_Permutation. Qed.

Lemma sorted_reverse_sorted l : StronglySorted newer_first (sorted_reverse l).
Proof. apply StronglySorted_merge_sort; apply _. Qed.

(** A duplicate-free listing has one newest-first order. *)
Lemma sorted_reverse_unique l k :
  StronglySorted newer_first k → NoDup k → NoDup l →
  (∀ ts, ts ∈ k ↔ ts ∈ l) → sorted_reverse l = k.
Proof.
  intros Hk Hnd Hl Hel. apply (StronglySorted_unique newer_first).
  - apply sorted_reverse_sorted.
  - done.
  - apply NoDup_Permutation; [by apply sorted_reverse_NoDup|done|].
    intros ts. by rewrite sorted_reverse_elem, Hel.
Qed.

(** The newest-first list of the slots kept for a stem *)
Definition slots (st : string) (w : World) : list Z :=
  sorted_reverse (glob_snapshots st w).

Lemma slots_elem st w ts : ts ∈ slots st w ↔ is_Some (snapshots w !! (st, ts)).
Proof. unfold slots. by rewrite sorted_reverse_elem, glob_snapshots_elem. Qed.

Lemma slots_NoDup st w : NoDup (slots st w).
Proof. apply sorted_reverse_NoDup, glob_snapshots_NoDup. Qed.

Lemma slots_sorted st w : StronglySorted newer_first (slots st w).
Proof. apply sorted_reverse_sorted. Qed.

Lemma slots_unique st w k :
  StronglySorted newer_first k → NoDup k →
  (∀ ts, ts ∈ k ↔ is_Some (snapshots w !! (st, ts))) → slots st w = k.
Proof.
  intros Hk Hnd Hel. apply sorted_reverse_unique; try done.
  - apply glob_snapshots_NoDup.
  - intros ts. by rewrite Hel, glob_snapshots_elem.
Qed.

(** ** Properties of [read_json] *)

(** Events that read files or report to the audit sink *)
Definition is_read_event (e : event) : bool :=
  match e with
  | EvRead _ | EvReadSnapshot _ _ | EvAudit _ _ _ => true
  | _ => false
  end.

(** Nothing on disk differs between two worlds, nor the clock. *)
Definition same_disk (w w' : World) : Prop :=
  files w' = files w ∧ snapshots w' = snapshots w
  ∧ markers w' = markers w ∧ clock w' = clock w.

(** The first slot of [candidates], in that order, whose text parses *)
Definition first_loadable (st : string) (candidates : list Z) (w : World) :
    option json :=
  head (omap (λ ts, snapshots w !! (st, ts) ≫= loads) candidates).

(** What [read_json] returns: the primary content when it parses, else the
    first parsing slot newest first, else the empty list. *)
Definition recovered (p : Path) (w : World) : json :=
  match files w !! p ≫= loads with
  | Some v => v
  | None => default (JArr []) (first_loadable (stem p) (slots (stem p) w) w)
  end.

Lemma first_parsing_spec st candidates : ∀ w,
  ∃ w', first_parsing st candidates w = (w', Ok (first_loadable st candidates w))
    ∧ same_disk w w'
    ∧ ∃ evs, trace w' = evs ++ trace w ∧ forallb is_read_event evs = true.
Proof.
  induction candidates as [|ts rest IH]; intros w.
  - exists w. split; [done|]. split; [by repeat split|]. by exists [].
  - unfold first_loadable. simpl.
    unfold catch, bind, read_snapshot, json_loads.
    destruct (snapshots w !! (st, ts)) as [t|] eqn:Hts; simpl.
    + destruct (loads t) as [v|] eqn:Hv; simpl.
      * eexists. split; [done|]. split; [by repeat split|]. by exists [EvReadSnapshot st ts].
      * destruct (IH (log (EvReadSnapshot st ts) w))
          as (w' & -> & (? & ? & ? & ?) & evs & Ht & Hevs).
        exists w'. split; [done|]. split; [by repeat split|].
        exists (evs ++ [EvReadSnapshot st ts]). rewrite <- app_assoc.
        split; [done|]. by rewrite forallb_app, Hevs.
    + destruct (IH (log (EvReadSnapshot st ts) w))
        as (w' & -> & (? & ? & ? & ?) & evs & Ht & Hevs).
      exists w'. split; [done|]. split; [by repeat split|].
      exists (evs ++ [EvReadSnapshot st ts]). rewrite <- app_assoc.
      split; [done|]. by rewrite forallb_app, Hevs.
Qed.

(** Every declared default is the empty list, and so is the fallback. *)
Lemma declared_defaults p d : _DEFAULTS !! p = Some d → d = JArr [].
Proof.
  unfold _DEFAULTS. intros Hp.
  repeat (apply lookup_insert_Some in Hp as [[_ <-]|[_ Hp]]; [done|]).
  by apply lookup_singleton_Some in Hp as [_ <-].
Qed.

Lemma defaults_empty p :
  (let default := default (JArr []) (_DEFAULTS !! p) in
   if is_dict_or_list default then default else JArr []) = JArr [].
Proof.
  simpl. destruct (_DEFAULTS !! p) as [v|] eqn:Hp; [|done].
  by rewrite (declared_defaults _ _ Hp).
Qed.

Lemma read_json_fallback p w w0 :
  snapshots w0 = snapshots w → files w0 = files w →
  markers w0 = markers w → clock w0 = clock w →
  ∃ w', (let candidates := sorted_reverse (glob_snapshots (stem p) w0) in
         (found <- first_parsing (stem p) candidates ;;
          match found with
          | Some v => ret v
          | None =>
              let default := default (JArr []) (_DEFAULTS !! p) in
              ret (if is_dict_or_list default then default else JArr [])
          end) w0)
        = (w', Ok (default (JArr []) (first_loadable (stem p) (slots (stem p) w) w)))
    ∧ same_disk w w'
    ∧ ∃ evs, trace w' = evs ++ trace w0 ∧ forallb is_read_event evs = true.
Proof.
  intros Hs Hf Hm Hc. cbv zeta. unfold bind.
  destruct (first_parsing_spec (stem p) (sorted_reverse (glob_snapshots (stem p) w0)) w0)
    as (w' & -> & (? & ? & ? & ?) & evs & Ht & Hevs).
  assert (first_loadable (stem p) (sorted_reverse (glob_snapshots (stem p) w0)) w0
          = first_loadable (stem p) (slots (stem p) w) w) as ->.
  { unfold first_loadable, slots, glob_snapshots. by rewrite Hs. }
  exists w'. split.
  - destruct (first_loadable _ _ w) as [v|]; [done|].
    unfold ret. by rewrite defaults_empty.
  - split; [repeat split; congruence|]. by exists evs.
Qed.

Lemma read_json_spec p w :
  ∃ w', read_json p w = (w', Ok (recovered p w))
    ∧ same_disk w w'
    ∧ ∃ evs, trace w' = evs ++ trace w ∧ forallb is_read_event evs = true
        ∧ (files w !! p ≫= loads = None →
           EvAudit "WARN" "JSON_READ_FAILED" (name p) ∈ evs).
Proof.
  unfold read_json, recovered, catch, bind at 1 2, read_text, json_loads.
  destruct (files w !! p) as [t|] eqn:Hp; simpl;
    [destruct (loads t) as [v|] eqn:Hv; simpl|].
  { eexists. split; [done|]. split; [by repeat split|]. exists [EvRead p].
    repeat split. done. }
  all: unfold _audit_warn, effect; simpl;
    set (w0 := log (EvAudit "WARN" "JSON_READ_FAILED" (name p)) (log (EvRead p) w));
    destruct (read_json_fallback p w w0) as (w' & Hfb & Hsame & evs & Ht & Hevs);
      try done;
    exists w'; (split; [exact Hfb|]); (split; [done|]);
    exists (evs ++ [EvAudit "WARN" "JSON_READ_FAILED" (name p); EvRead p]);
    rewrite <- app_assoc; (split; [done|]);
    (split; [by rewrite forallb_app, Hevs|]); intros _;
    apply elem_of_app; right; left.
Qed.

Lemma first_loadable_newest st w ts t v : ∀ candidates,
  StronglySorted newer_first candidates → ts ∈ candidates →
  snapshots w !! (st, ts) = Some t → loads t = Some v →
  (∀ ts' t', ts < ts' → snapshots w !! (st, ts') = Some t' → loads t' = None) →
  first_loadable st candidates w = Some v.
Proof.
  intros candidates Hsorted Hin Hts Hv Hnewer. unfold first_loadable.
  induction Hsorted as [|h rest Hrest IH Hh]; [by apply elem_of_nil in Hin|].
  simpl. destruct (decide (h = ts)) as [->|Hne].
  - by rewrite Hts; simpl; rewrite Hv.
  - apply elem_of_cons in Hin as [->|Hin]; [done|].
    rewrite Forall_forall in Hh. specialize (Hh _ Hin). unfold newer_first in Hh.
    destruct (snapshots w !! (st, h)) as [t'|] eqn:Hh'; simpl; [|by apply IH].
    rewrite (Hnewer h t') by (done || lia). by apply IH.
Qed.

Lemma first_loadable_none st w candidates :
  (∀ ts t, snapshots w !! (st, ts) = Some t → loads t = None) →
  first_loadable st candidates w = None.
Proof.
  intros Hnone. unfold first_loadable.
  induction candidates as [|h rest IH]; [done|]. simpl.
  destruct (snapshots w !! (st, h)) as [t|] eqn:Hh; simpl; [|done].
  by rewrite (Hnone _ _ Hh).
Qed.


(** ** Properties of writes and of the transactional update *)

(** Events of the backup rotation *)
Definition is_backup_event (e : event) : bool :=
  match e with
  | EvSnapshot _ _ | EvPrune _ _ => true
  | _ => false
  end.

Lemma prune_frame st olds : ∀ w,
  let w' := foldl (λ w' old, unlink_snapshot st old w') w olds in
  files w' = files w ∧ markers w' = markers w ∧ clock w' = clock w
  ∧ snapshots w' = foldl (λ s old, delete (st, old) s) (snapshots w) olds
  ∧ ∃ evs, trace w' = evs ++ trace w ∧ forallb is_backup_event evs = true.
Proof.
  induction olds as [|old olds IH]; intros w; simpl.
  - repeat split. by exists [].
  - destruct (IH (unlink_snapshot st old w)) as (-> & -> & -> & -> & evs & -> & Hevs).
    simpl. repeat split. exists (evs ++ [EvPrune st old]).
    rewrite <- app_assoc. split; [done|]. by rewrite forallb_app, Hevs.
Qed.

Lemma rotate_backup_frame p w :
  files (_rotate_backup p w) = files w
  ∧ markers (_rotate_backup p w) = markers w
  ∧ clock (_rotate_backup p w) = clock w
  ∧ ∃ evs, trace (_rotate_backup p w) = evs ++ trace w
           ∧ forallb is_backup_event evs = true.
Proof.
  unfold _rotate_backup. destruct (files w !! p) as [cur|]; [|by repeat split; exists []].
  case_bool_decide.
  - match goal with |- context [foldl _ ?w1 ?olds] =>
      destruct (prune_frame (stem p) olds w1) as (-> & -> & -> & _ & evs & -> & Hevs) end.
    simpl. repeat split. exists (evs ++ [EvSnapshot p (clock w `div` 1000)]).
    rewrite <- app_assoc. split; [done|]. by rewrite forallb_app, Hevs.
  - simpl. repeat split. by exists [EvSnapshot p (clock w `div` 1000)].
Qed.

Lemma forallb_impl {A} (f g : A → bool) (l : list A) :
  (∀ x, f x = true → g x = true) → forallb f l = true → forallb g l = true.
Proof.
  intros Hfg. induction l as [|x l IH]; simpl; [done|].
  intros [Hx Hl]%andb_true_iff. by rewrite (Hfg _ Hx), IH.
Qed.

Lemma string_length_app (s1 s2 : string) :
  String.length (s1 +:+ s2) = (String.length s1 + String.length s2)%nat.
Proof.
  induction s1 as [|a s1 IH]; [done|].
  change (S (String.length (s1 +:+ s2)) = S (String.length s1 + String.length s2)%nat).
  by rewrite IH.
Qed.

(** The lock path of a resource is not the resource. *)
Lemma lock_path_ne p : _lock_path p ≠ p.
Proof.
  destruct p as [d st sf]. unfold _lock_path. simpl. intros [= Hst Hsf].
  subst sf. apply (f_equal String.length) in Hst.
  rewrite string_length_app in Hst. simpl in Hst. lia.
Qed.


Hypothesis loads_dumps : ∀ data, loads (dumps data) = Some data.

(** C2. Round trip: once [write_json] has returned, the resource file
    holds the text of [data], that text parses back to [data], and
    [read_json] returns [data]. *)
Theorem write_json_then_read_json p data w w' :
  write_json p data w = (w', Ok tt) →
  files w' !! p = Some (dumps data)
  ∧ loads (dumps data) = Some data
  ∧ ∃ w'', read_json p w' = (w'', Ok data).
Proof.
  unfold write_json, bind at 1.
  destruct (_acquire_lock p LOCK_TIMEOUT_SEC w) as [w1 [lk|ex]] eqn:Hacq; [|done].
  destruct (acquire_lock_frame _ _ _ _ _ Hacq) as (_ & _ & _ & _ & -> & _).
  unfold finally, bind, effect. intros [= <-].
  destruct (release_lock_frame p (_atomic_write_text p (dumps data) (_rotate_backup p w1)))
    as (Hf & _).
  assert (Hp : files (_release_lock (mk_Lock (_lock_path p) true)
                 (_atomic_write_text p (dumps data) (_rotate_backup p w1))) !! p
               = Some (dumps data)).
  { rewrite Hf. simpl. apply lookup_insert_eq. }
  split; [done|]. split; [done|].
  destruct (read_json_spec p (_release_lock (mk_Lock (_lock_path p) true)
              (_atomic_write_text p (dumps data) (_rotate_backup p w1))))
    as (w'' & Hread & _).
  exists w''. rewrite Hread. unfold recovered. rewrite Hp. simpl.
  by rewrite loads_dumps.
Qed.

(** ** Backup retention *)

Lemma slots_ext st w w' : snapshots w = snapshots w' → slots st w = slots st w'.
Proof. unfold slots, glob_snapshots. by intros ->. Qed.

Lemma lookup_pruned st olds : ∀ (s : gmap (string * Z) text) k,
  foldl (λ s old, delete (st, old) s) s olds !! k
  = if decide (k.1 = st ∧ k.2 ∈ olds) then None else s !! k.
Proof.
  induction olds as [|old olds IH]; intros s k; simpl.
  - case_decide as Hk; [|done]. destruct Hk as [_ Hk]. by apply elem_of_nil in Hk.
  - rewrite IH. destruct k as [st' ts]. simpl.
    destruct (decide ((st, old) = (st', ts))) as [[= <- <-]|Hne].
    + rewrite lookup_delete_eq.
      rewrite (decide_True (P := st = st ∧ old ∈ old :: olds)) by (split; [done|left]).
      by case_decide.
    + rewrite lookup_delete_ne by done.
      destruct (decide (st' = st ∧ ts ∈ olds)) as [[E1 H1]|H1];
        destruct (decide (st' = st ∧ ts ∈ old :: olds)) as [[E H2]|H2]; try done.
      * exfalso. apply H2. split; [done|by right].
      * exfalso. subst. apply elem_of_cons in H2 as [->|H2]; [done|]. by apply H1.
Qed.

Lemma StronglySorted_take {A} (R : relation A) (l : list A) n :
  StronglySorted R l → StronglySorted R (take n l).
Proof.
  intros Hl. rewrite <- (take_drop n l) in Hl. by apply StronglySorted_app_1_l in Hl.
Qed.

(** The slots of a resource after [_rotate_backup], when the file exists
    and no slot is dated in or after the current second: the new slot
    heads the list and only the first [BACKUP_RETAIN_PER_FILE] are kept. *)
Lemma rotate_backup_slots p w cur :
  files w !! p = Some cur →
  (∀ ts, ts ∈ slots (stem p) w → ts < clock w `div` 1000) →
  let now := clock w `div` 1000 in
  let w' := _rotate_backup p w in
  slots (stem p) w' = take BACKUP_RETAIN_PER_FILE (now :: slots (stem p) w)
  ∧ ∀ ts, ts ∈ take BACKUP_RETAIN_PER_FILE (now :: slots (stem p) w) →
          snapshots w' !! (stem p, ts)
          = <[(stem p, now) := cur]> (snapshots w) !! (stem p, ts).
Proof.
  intros Hcur Hold now w'. subst w'. unfold _rotate_backup. rewrite Hcur.
  fold now. rewrite bool_decide_true by (unfold BACKUP_RETAIN_PER_FILE; lia).
  set (w1 := log (EvSnapshot p now)
               (set_snapshots (<[(stem p, now) := cur]> (snapshots w)) w)).
  fold (slots (stem p) w1).
  assert (Hnew : now ∉ slots (stem p) w).
  { intros Hin. apply Hold in Hin. lia. }
  assert (H1 : slots (stem p) w1 = now :: slots (stem p) w).
  { apply slots_unique.
    - constructor; [apply slots_sorted|]. apply Forall_forall.
      intros ts Hts. apply Hold in Hts. unfold newer_first. lia.
    - constructor; [done|apply slots_NoDup].
    - intros ts. rewrite elem_of_cons, slots_elem. simpl.
      rewrite lookup_insert_is_Some'. split.
      + intros [->|Hts]; [by left|by right].
      + intros [[= ->]|Hts]; [by left|by right]. }
  rewrite H1.
  match goal with |- context [foldl _ w1 ?olds] =>
    destruct (prune_frame (stem p) olds w1) as (_ & _ & _ & Hs & _) end.
  cbv zeta in Hs.
  assert (Hnd : NoDup (now :: slots (stem p) w)).
  { constructor; [done|apply slots_NoDup]. }
  assert (Hlook : ∀ ts, snapshots (foldl (λ w' old, unlink_snapshot (stem p) old w') w1
                    (drop BACKUP_RETAIN_PER_FILE (now :: slots (stem p) w))) !! (stem p, ts)
            = if decide (ts ∈ drop BACKUP_RETAIN_PER_FILE (now :: slots (stem p) w))
              then None else <[(stem p, now) := cur]> (snapshots w) !! (stem p, ts)).
  { intros ts. rewrite Hs, lookup_pruned. cbn [fst snd].
    destruct (decide (ts ∈ drop BACKUP_RETAIN_PER_FILE (now :: slots (stem p) w)));
      [by rewrite decide_True|rewrite decide_False; [done|by intros [_ ?]]]. }
  assert (Hsplit : ∀ ts, ts ∈ take BACKUP_RETAIN_PER_FILE (now :: slots (stem p) w) →
                   ts ∉ drop BACKUP_RETAIN_PER_FILE (now :: slots (stem p) w)).
  { intros ts Htake Hdrop.
    rewrite <- (take_drop BACKUP_RETAIN_PER_FILE (now :: slots (stem p) w)) in Hnd.
    apply NoDup_app in Hnd as (_ & Hnd & _). by apply (Hnd ts). }
  split.
  - apply slots_unique.
    + apply StronglySorted_take. rewrite <- H1. apply slots_sorted.
    + rewrite <- (take_drop BACKUP_RETAIN_PER_FILE (now :: slots (stem p) w)) in Hnd.
      by apply NoDup_app in Hnd as (? & _ & _).
    + intros ts. rewrite Hlook. case_decide as Hd.
      * split; [intros Ht; by apply Hsplit in Ht|intros []; done].
      * change (<[(stem p, now) := cur]> (snapshots w)) with (snapshots w1).
        rewrite <- (slots_elem (stem p) w1), H1.
        rewrite <- (take_drop BACKUP_RETAIN_PER_FILE (now :: slots (stem p) w)) at 2.
        rewrite elem_of_app. split; [by left|by intros [?|?]].
  - intros ts Hts. rewrite Hlook. by rewrite decide_False by by apply Hsplit.
Qed.

(** The backup slots of a stem with their content, newest first *)
Definition backups (st : string) (w : World) : list (Z * text) :=
  omap (λ ts, (λ t, (ts, t)) <$> snapshots w !! (st, ts)) (slots st w).

(** The environment lets [delay] milliseconds pass. *)
Definition pass (delay : Z) (w : World) : World :=
  set_clock (clock w + delay) w.

(** Successive calls [write_json(path, data)], each after a delay *)
Fixpoint write_all (p : Path) (script : list (Z * json)) (w : World) : World :=
  match script with
  | [] => w
  | (delay, data) :: rest => write_all p rest (write_json p data (pass delay w)).1
  end.

(** The slots that the writes of [script] take, oldest first, when the
    clock reads [now] and the file holds [prev] before the first of them:
    each write files the content the previous one left. *)
Fixpoint taken (now : Z) (prev : json) (script : list (Z * json)) : list (Z * text) :=
  match script with
  | [] => []
  | (delay, data) :: rest =>
      ((now + delay) `div` 1000, dumps prev) :: taken (now + delay) data rest
  end.

Lemma omap_ext_in {A B} (f g : A → option B) (l : list A) :
  (∀ x, x ∈ l → f x = g x) → omap f l = omap g l.
Proof.
  induction l as [|x l IH]; intros Hfg; [done|].
  change (omap f (x :: l)) with (match f x with Some y => y :: omap f l | None => omap f l end).
  change (omap g (x :: l)) with (match g x with Some y => y :: omap g l | None => omap g l end).
  rewrite (Hfg x) by left. rewrite IH; [done|]. intros y Hy. apply Hfg. by right.
Qed.

Lemma omap_cons_Some {A B} (f : A → option B) (l : list A) x y :
  f x = Some y → omap f (x :: l) = y :: omap f l.
Proof.
  intros Hx.
  change (omap f (x :: l)) with (match f x with Some y => y :: omap f l | None => omap f l end).
  by rewrite Hx.
Qed.

Lemma omap_take {A B} (f : A → option B) (l : list A) : ∀ n,
  (∀ x, x ∈ l → is_Some (f x)) → omap f (take n l) = take n (omap f l).
Proof.
  induction l as [|x l IH]; intros n Hall; [by destruct n|].
  destruct n as [|n]; [done|].
  change (take (S n) (x :: l)) with (x :: take n l).
  change (omap f (x :: l)) with (match f x with Some y => y :: omap f l | None => omap f l end).
  change (omap f (x :: take n l))
    with (match f x with Some y => y :: omap f (take n l) | None => omap f (take n l) end).
  destruct (Hall x) as [y Hy]; [by left|]. rewrite Hy. simpl. f_equal.
  apply IH. intros z Hz. apply Hall. by right.
Qed.

Lemma backups_length st w : length (backups st w) = length (slots st w).
Proof.
  unfold backups.
  assert (Hall : ∀ ts, ts ∈ slots st w → is_Some (snapshots w !! (st, ts)))
    by (intros ts; apply slots_elem).
  induction (slots st w) as [|ts l IH]; [done|].
  change (omap ?f (ts :: l)) with (match f ts with Some y => y :: omap f l | None => omap f l end).
  destruct (Hall ts) as [t ->]; [by left|]. simpl. f_equal.
  apply IH. intros ts' Hts'. apply Hall. by right.
Qed.

(** One locked write to an existing file whose slots are all dated before
    the current second *)
Lemma write_json_slots p data w cur :
  markers w !! _lock_path p = None →
  files w !! p = Some cur →
  (∀ ts, ts ∈ slots (stem p) w → ts < clock w `div` 1000) →
  ∃ w', write_json p data w = (w', Ok tt)
    ∧ markers w' !! _lock_path p = None
    ∧ files w' !! p = Some (dumps data)
    ∧ clock w' = clock w
    ∧ slots (stem p) w'
      = take BACKUP_RETAIN_PER_FILE (clock w `div` 1000 :: slots (stem p) w)
    ∧ backups (stem p) w'
      = take BACKUP_RETAIN_PER_FILE ((clock w `div` 1000, cur) :: backups (stem p) w).
Proof.
  intros Hfree Hcur Hold. unfold write_json, bind at 1.
  rewrite acquire_lock_free by done.
  set (wb := log _ (set_markers _ w)).
  unfold finally, bind, effect.
  set (wr := _rotate_backup p wb).
  destruct (rotate_backup_frame p wb) as (Hf & Hm & Hc & _). fold wr in Hf, Hm, Hc.
  destruct (rotate_backup_slots p wb cur) as [Hslots Hlook]; [done|done|].
  fold wr in Hslots, Hlook. change (clock wb) with (clock w) in *.
  rewrite (slots_ext (stem p) wb w) in Hslots, Hlook by done.
  destruct (release_lock_frame p (_atomic_write_text p (dumps data) wr))
    as (Hf' & Hs' & Hc' & Hm' & _).
  eexists. split; [done|]. split; [|split; [|split; [|split]]].
  - rewrite Hm'. apply lookup_delete_eq.
  - rewrite Hf'. simpl. apply lookup_insert_eq.
  - rewrite Hc'. simpl. by rewrite Hc.
  - rewrite (slots_ext _ _ wr) by (rewrite Hs'; done). done.
  - unfold backups at 1.
    rewrite (slots_ext _ _ wr) by (rewrite Hs'; done).
    rewrite Hs'.
    change (snapshots (_atomic_write_text p (dumps data) wr)) with (snapshots wr).
    rewrite Hslots.
    rewrite (omap_ext_in _ (λ ts, (λ t, (ts, t)) <$>
               <[(stem p, clock w `div` 1000) := cur]> (snapshots w) !! (stem p, ts)))
      by (intros ts Hts; by rewrite Hlook).
    rewrite omap_take.
    + f_equal. rewrite (omap_cons_Some _ _ _ (clock w `div` 1000, cur))
        by by rewrite lookup_insert_eq.
      f_equal. apply omap_ext_in. intros ts Hts. rewrite lookup_insert_ne; [done|].
      intros [= Heq]. apply Hold in Hts. lia.
    + intros ts Hts. apply elem_of_cons in Hts as [->|Hts].
      * rewrite lookup_insert_eq. by eexists.
      * rewrite lookup_insert_ne by (intros [= Heq]; apply Hold in Hts; lia).
        apply slots_elem in Hts as [t ->]. by eexists.
Qed.

Lemma rotate_backup_bound p w st ts :
  is_Some (snapshots (_rotate_backup p w) !! (st, ts)) →
  is_Some (snapshots w !! (st, ts)) ∨ (st = stem p ∧ ts = clock w `div` 1000).
Proof.
  unfold _rotate_backup. destruct (files w !! p) as [cur|]; [|by left].
  case_bool_decide.
  - match goal with |- context [foldl _ ?w1 ?olds] =>
      destruct (prune_frame (stem p) olds w1) as (_ & _ & _ & -> & _) end.
    rewrite lookup_pruned. case_decide; [by intros []|]. simpl.
    rewrite lookup_insert_is_Some'. intros [[= <- <-]|?]; [by right|by left].
  - simpl. rewrite lookup_insert_is_Some'. intros [[= <- <-]|?]; [by right|by left].
Qed.

(** One locked write, whatever the file and the slots were *)
Lemma write_json_bound p data w :
  markers w !! _lock_path p = None →
  (∀ ts, ts ∈ slots (stem p) w → ts ≤ clock w `div` 1000) →
  ∃ w', write_json p data w = (w', Ok tt)
    ∧ markers w' !! _lock_path p = None
    ∧ files w' !! p = Some (dumps data)
    ∧ clock w' = clock w
    ∧ (∀ ts, ts ∈ slots (stem p) w' → ts ≤ clock w `div` 1000).
Proof.
  intros Hfree Hold. unfold write_json, bind at 1.
  rewrite acquire_lock_free by done.
  set (wb := log _ (set_markers _ w)).
  unfold finally, bind, effect.
  set (wr := _rotate_backup p wb).
  destruct (rotate_backup_frame p wb) as (Hf & Hm & Hc & _). fold wr in Hf, Hm, Hc.
  destruct (release_lock_frame p (_atomic_write_text p (dumps data) wr))
    as (Hf' & Hs' & Hc' & Hm' & _).
  eexists. split; [done|]. split; [|split; [|split]].
  - rewrite Hm'. apply lookup_delete_eq.
  - rewrite Hf'. simpl. apply lookup_insert_eq.
  - rewrite Hc'. simpl. by rewrite Hc.
  - intros ts Hts. apply slots_elem in Hts. rewrite Hs' in Hts.
    change (snapshots (_atomic_write_text p (dumps data) wr)) with (snapshots wr) in Hts.
    apply rotate_backup_bound in Hts as [Hts|[_ ->]]; [|done].
    apply Hold. by apply slots_elem.
Qed.

Lemma take_app_take {A} n (l1 l2 : list A) :
  take n (l1 ++ take n l2) = take n (l1 ++ l2).
Proof.
  rewrite !take_app. f_equal. rewrite take_take. f_equal. lia.
Qed.

(** Successive writes at least a second apart: every write files the
    previous content in a slot of its own and keeps the newest
    [BACKUP_RETAIN_PER_FILE] slots. *)
Lemma write_all_backups p : ∀ rest w prev,
  markers w !! _lock_path p = None →
  files w !! p = Some (dumps prev) →
  (∀ ts, ts ∈ slots (stem p) w → ts ≤ clock w `div` 1000) →
  Forall (λ step : Z * json, 1000 ≤ step.1) rest →
  rest ≠ [] →
  backups (stem p) (write_all p rest w)
  = take BACKUP_RETAIN_PER_FILE
      (reverse (taken (clock w) prev rest) ++ backups (stem p) w).
Proof.
  induction rest as [|[delay data] rest IH]; intros w prev Hfree Hprev Hold Hdelay Hne;
    [done|]. clear Hne.
  apply Forall_cons in Hdelay as [Hd Hdelay]. simpl in Hd.
  assert (Hstep : clock w `div` 1000 < (clock w + delay) `div` 1000).
  { replace (clock w + delay) with ((clock w + (delay - 1000)) + 1 * 1000) by lia.
    rewrite Z.div_add by done.
    pose proof (Z.div_le_mono (clock w) (clock w + (delay - 1000)) 1000). lia. }
  destruct (write_json_slots p data (pass delay w) (dumps prev))
    as (w1 & Hw & Hfree1 & Hfile1 & Hclock1 & Hslots1 & Hbak1); try done.
  { intros ts Hts. rewrite (slots_ext _ _ w) in Hts by done.
    apply Hold in Hts. simpl. lia. }
  change (write_all p ((delay, data) :: rest) w)
    with (write_all p rest (write_json p data (pass delay w)).1).
  rewrite Hw. change ((w1, Ok tt).1) with w1.
  change (clock (pass delay w)) with (clock w + delay) in Hclock1, Hslots1, Hbak1.
  change (backups (stem p) (pass delay w)) with (backups (stem p) w) in Hbak1.
  destruct rest as [|step rest].
  - change (write_all p [] w1) with w1. by rewrite Hbak1.
  - rewrite (IH w1 data); try done.
    + rewrite Hbak1, take_app_take, Hclock1.
      change (taken (clock w) prev ((delay, data) :: step :: rest))
        with (((clock w + delay) `div` 1000, dumps prev)
                :: taken (clock w + delay) data (step :: rest)).
      by rewrite (reverse_cons (taken _ _ _)), <- app_assoc.
    + intros ts Hts. rewrite Hslots1 in Hts. rewrite Hclock1.
      apply elem_of_take in Hts as (i & Hts & _).
      apply list_elem_of_lookup_2, elem_of_cons in Hts as [->|Hts]; [done|].
      rewrite (slots_ext _ _ w) in Hts by done. apply Hold in Hts. lia.
Qed.

(** C6, as amended. Backup retention: after more than
    [BACKUP_RETAIN_PER_FILE] successive locked writes to a resource whose
    lock is free, each at least one second after the previous one and the
    first not before the date of any slot already kept, exactly
    [BACKUP_RETAIN_PER_FILE] slots of the resource remain; newest first they
    hold the contents that the last [BACKUP_RETAIN_PER_FILE] writes
    replaced. *)
Theorem backup_retention p w delay0 data0 rest :
  markers w !! _lock_path p = None →
  (∀ ts, is_Some (snapshots w !! (stem p, ts)) → ts ≤ (clock w + delay0) `div` 1000) →
  Forall (λ step : Z * json, 1000 ≤ step.1) rest →
  (BACKUP_RETAIN_PER_FILE ≤ length rest)%nat →
  let w' := write_all p ((delay0, data0) :: rest) w in
  backups (stem p) w'
  = take BACKUP_RETAIN_PER_FILE (reverse (taken (clock w + delay0) data0 rest))
  ∧ length (backups (stem p) w') = BACKUP_RETAIN_PER_FILE.
Proof.
  intros Hfree Hold Hdelay Hlen.
  change (write_all p ((delay0, data0) :: rest) w)
    with (write_all p rest (write_json p data0 (pass delay0 w)).1). cbv zeta.
  destruct (write_json_bound p data0 (pass delay0 w))
    as (w1 & Hw & Hfree1 & Hfile1 & Hclock1 & Hold1); try done.
  { intros ts Hts. rewrite (slots_ext _ _ w) in Hts by done.
    apply Hold. by apply slots_elem. }
  rewrite Hw. change ((w1, Ok tt).1) with w1.
  change (clock (pass delay0 w)) with (clock w + delay0) in Hclock1, Hold1.
  assert (Hlen' : length (taken (clock w + delay0) data0 rest) = length rest).
  { generalize (clock w + delay0) data0. clear.
    induction rest as [|[d x] rest IH]; intros now prev; simpl; [done|]. by rewrite IH. }
  rewrite (write_all_backups p rest w1 data0); try done.
  - rewrite Hclock1. rewrite take_app_le by (rewrite length_reverse; lia).
    split; [done|]. rewrite length_take, length_reverse. lia.
  - intros ts Hts. rewrite Hclock1. by apply Hold1.
  - intros ->. unfold BACKUP_RETAIN_PER_FILE in Hlen. simpl in Hlen. lia.
Qed.

(** ** The transactional update, when the transform returns *)

Lemma recovered_ext p w w' :
  files w' = files w → snapshots w' = snapshots w → recovered p w' = recovered p w.
Proof.
  intros Hf Hs. unfold recovered, first_loadable, slots, glob_snapshots.
  by rewrite Hf, Hs.
Qed.

(** [v] has been written to [p] between [w] and [w']: the other files are
    as they were, the lock is free, and a read returns [v]. *)
Definition committed (p : Path) (v : json) (w w' : World) : Prop :=
  files w' = <[p := dumps v]> (files w)
  ∧ markers w' !! _lock_path p = None
  ∧ recovered p w' = v.

(** What [update_atomic] persists and what it returns, from the outcome of
    the transform *)
Definition persisted (o : fn_outcome) : option (json * json) :=
  match o with
  | Raises _ => None
  | ReturnsArg data' => Some (data', data')
  | ReturnsObj data' out => Some (if is_null out then data' else out, out)
  end.

Lemma update_atomic_spec p (f : transform) w :
  ∃ w1 r, _acquire_lock p LOCK_TIMEOUT_SEC w = (w1, r)
    ∧ match r with
      | Raise e => update_atomic p (Some f) w = (w1, Raise e)
      | Ok _ =>
          ∃ w2, same_disk w1 w2 ∧ files w2 = files w ∧ snapshots w2 = snapshots w
            ∧ match f (recovered p w) w2 with
              | Raises e =>
                  ∃ w', update_atomic p (Some f) w = (w', Raise e)
                    ∧ files w' = files w ∧ snapshots w' = snapshots w
              | o =>
                  ∃ w', update_atomic p (Some f) w
                        = (w', Ok (default JNull (snd <$> persisted o)))
                    ∧ committed p (default JNull (fst <$> persisted o)) w w'
              end
      end.
Proof.
  remember (update_atomic p (Some f) w) as res eqn:Hres.
  unfold update_atomic, bind at 1 in Hres.
  destruct (_acquire_lock p LOCK_TIMEOUT_SEC w) as [w1 [lk|ex]] eqn:Hacq.
  2: { by exists w1, (Raise ex). }
  exists w1, (Ok lk). split; [done|].
  destruct (acquire_lock_frame _ _ _ _ _ Hacq) as (Hf1 & Hs1 & _ & _ & -> & Hm1).
  unfold finally, bind at 1 in Hres.
  destruct (read_json_spec p w1) as (w2 & Hread & (Hf2 & Hs2 & Hm2 & Hc2) & _).
  rewrite Hread in Hres. cbv beta iota in Hres.
  rewrite (recovered_ext p w w1) in Hres by done.
  exists w2. split; [done|]. split; [congruence|]. split; [congruence|].
  unfold bind, effect in Hres.
  assert (Hcommit : ∀ v,
    committed p v w (_release_lock (mk_Lock (_lock_path p) true)
                       (_atomic_write_text p (dumps v) (_rotate_backup p w2)))).
  { intros v.
    destruct (release_lock_frame p (_atomic_write_text p (dumps v) (_rotate_backup p w2)))
      as (Hf3 & Hs3 & _ & Hm3 & _).
    destruct (rotate_backup_frame p w2) as (Hf4 & _).
    assert (Hfiles : files (_release_lock (mk_Lock (_lock_path p) true)
              (_atomic_write_text p (dumps v) (_rotate_backup p w2)))
            = <[p := dumps v]> (files w)).
    { rewrite Hf3. simpl. rewrite Hf4. congruence. }
    split; [done|]. split; [rewrite Hm3; apply lookup_delete_eq|].
    unfold recovered. rewrite Hfiles, lookup_insert_eq. simpl.
    by rewrite loads_dumps. }
  destruct (f (recovered p w) w2) as [e|data'|data' out]; simpl in *; subst res.
  - destruct (release_lock_frame p w2) as (Hf3 & Hs3 & _).
    eexists. split; [done|]. split; congruence.
  - eexists. split; [done|]. apply Hcommit.
  - eexists. split; [done|]. apply Hcommit.
Qed.

(** ** Merge-upsert of a thesis *)

(** The record [v] carries the composite key [(sc, cid)]. *)
Definition has_key (sc cid : json) (v : json) : bool :=
  match v with
  | JObj th => py_eq (py_get th "student_code") sc && py_eq (py_get th "course_id") cid
  | _ => false
  end.

(** [v] is a record with another key. *)
Definition other_record (sc cid : json) (v : json) : Prop :=
  is_obj v = true ∧ has_key sc cid v = false.

Lemma upsert_loop_match sc cid thesis pre r post :
  Forall (other_record sc cid) pre →
  has_key sc cid (JObj r) = true →
  upsert_loop sc cid thesis (pre ++ JObj r :: post)
  = Ok (Some (pre ++ JObj (_deep_merge r thesis) :: post)).
Proof.
  intros Hpre Hr. induction Hpre as [|v pre [Hv1 Hv2] Hpre IH]; simpl.
  - simpl in Hr. by rewrite Hr.
  - destruct v; try done. simpl in Hv2. rewrite Hv2. by rewrite IH.
Qed.

Lemma upsert_loop_no_match sc cid thesis theses :
  Forall (other_record sc cid) theses →
  upsert_loop sc cid thesis theses = Ok None.
Proof.
  intros Hall. induction Hall as [|v l [Hv1 Hv2] Hall IH]; simpl; [done|].
  destruct v; try done. simpl in Hv2. rewrite Hv2. by rewrite IH.
Qed.

Lemma deep_merge_lookup existing incoming k :
  _deep_merge existing incoming !! k
  = match incoming !! k with
    | Some v => Some (merge_value v (existing !! k))
    | None => existing !! k
    end.
Proof. unfold _deep_merge. rewrite lookup_merge. by destruct (incoming !! k), (existing !! k). Qed.

Lemma merge_value_replaces v cur :
  is_obj v && is_obj (default JNull cur) = false → merge_value v cur = v.
Proof. destruct v, cur as [[]|]; simpl; try done. Qed.


(** ** Archive of finalized defenses *)

(** [data if isinstance(data, list) else []] *)
Definition as_list (data : json) : list json :=
  match data with JArr l => l | _ => [] end.

Lemma recovered_primary p w v : files w !! p = Some (dumps v) → recovered p w = v.
Proof. intros Hp. unfold recovered. rewrite Hp. simpl. by rewrite loads_dumps. Qed.

(** A write to one resource leaves the files of the others alone. *)
Lemma write_json_other p data w q :
  q ≠ p → files (write_json p data w).1 !! q = files w !! q.
Proof.
  intros Hq. unfold write_json, bind at 1.
  destruct (_acquire_lock p LOCK_TIMEOUT_SEC w) as [w1 [lk|ex]] eqn:Hacq;
    destruct (acquire_lock_frame _ _ _ _ _ Hacq) as (Hf1 & _ & _ & _ & Hr); simpl.
  - destruct Hr as [-> _]. unfold finally, bind, effect. simpl.
    destruct (release_lock_frame p (_atomic_write_text p (dumps data) (_rotate_backup p w1)))
      as (-> & _).
    simpl. rewrite lookup_insert_ne by done.
    destruct (rotate_backup_frame p w1) as (-> & _). by rewrite Hf1.
  - by rewrite Hf1.
Qed.

Lemma emit_other ev payload w q :
  q ≠ NOTIF_F → files (_emit ev payload w).1 !! q = files w !! q.
Proof.
  intros Hq. unfold _emit, _append_to_notif_list, bind, atomic_write.
  destruct (read_json_spec NOTIF_F w) as (w1 & -> & (Hf & _) & _).
  rewrite write_json_other by done. by rewrite Hf.
Qed.

Lemma without_key_spec sc cid archive kept :
  without_key sc cid archive = Ok kept →
  kept = filter (λ v, has_key (JStr sc) (JStr cid) v = false) archive
  ∧ Forall (λ v, is_obj v = true) archive.
Proof.
  revert kept. induction archive as [|v archive IH]; intros kept; simpl.
  - by intros [= <-].
  - destruct v; try done.
    destruct (without_key sc cid archive) as [kept'|] eqn:Hrest; [|done]. simpl.
    destruct (IH _ eq_refl) as [-> Hall].
    rewrite filter_cons. simpl.
    destruct (py_eq _ _ && py_eq _ _) eqn:Hk; intros [= <-].
    + rewrite decide_False by done. split; [done|]. by constructor.
    + rewrite decide_True by done. split; [done|]. by constructor.
Qed.

Lemma defense_record_key a now rec :
  defense_record a now = Ok rec →
  has_key (JStr (student_code a)) (JStr (course_id a)) (JObj rec) = true.
Proof.
  unfold defense_record, rbind.
  repeat (match goal with |- context [match ?r with Ok _ => _ | Raise _ => _ end] =>
            destruct r; [|done] end).
  intros [= <-]. simpl. unfold py_get.
  rewrite lookup_insert_eq. rewrite lookup_insert_ne by done.
  rewrite lookup_insert_eq. simpl. by rewrite !bool_decide_true.
Qed.

(** What a successful call of [archive_defense] has done *)
Lemma archive_defense_inv a w w' r :
  archive_defense a w = (w', Ok r) →
  ∃ rec kept,
    defense_record a (clock w) = Ok rec ∧ r = JObj rec
    ∧ without_key (student_code a) (course_id a) (as_list (recovered DEFENDED_F w))
      = Ok kept
    ∧ files w' !! DEFENDED_F = Some (dumps (JArr (kept ++ [JObj rec]))).
Proof.
  unfold archive_defense, bind at 1.
  destruct (defense_record a (clock w)) as [rec|e] eqn:Hrec; [|done].
  unfold bind at 1.
  destruct (update_atomic_spec DEFENDED_F
              (archive_defense_fn (student_code a) (course_id a) rec) w)
    as (w1 & r1 & Hacq & Hr).
  destruct r1 as [lk|e].
  2: { by rewrite Hr. }
  destruct Hr as (w2 & _ & _ & _ & Hr).
  assert (Hfn : archive_defense_fn (student_code a) (course_id a) rec
                  (recovered DEFENDED_F w) w2
                = match without_key (student_code a) (course_id a)
                          (as_list (recovered DEFENDED_F w)) with
                  | Raise e => Raises e
                  | Ok kept => ReturnsObj (recovered DEFENDED_F w)
                                 (JArr (kept ++ [JObj rec]))
                  end) by done.
  rewrite Hfn in Hr. clear Hfn.
  destruct (without_key _ _ _) as [kept|e] eqn:Hkept.
  2: { destruct Hr as (w3 & -> & _). done. }
  simpl in Hr. destruct Hr as (w3 & -> & Hfiles & _).
  unfold bind, _audit_log, effect.
  match goal with |- context [_emit ?ev ?pl ?w0] =>
    pose proof (emit_other ev pl w0 DEFENDED_F ltac:(done)) as Hemit;
    destruct (_emit ev pl w0) as [w4 [[]|e]] end; [|done].
  unfold ret. intros [= <- <-]. exists rec, kept. repeat split; try done.
  simpl in Hemit. rewrite Hemit, Hfiles. apply lookup_insert_eq.
Qed.


(** ** Registration of students *)

(** The record [v] carries the student code [code]. *)
Definition has_code (code : string) (v : json) : bool :=
  match v with
  | JObj s => py_eq (py_get s "student_code") (JStr code)
  | _ => false
  end.

(** The student codes of the records of a list, in order *)
Definition student_codes (students : list json) : list string :=
  omap (λ v, match v with
             | JObj s => match s !! "student_code" with
                         | Some (JStr c) => Some c
                         | _ => None
                         end
             | _ => None
             end) students.

(** The e-mail passes [validate_student]: it is absent or empty, or it
    has an at sign and no space. *)
Definition email_accepted (email : option string) : bool :=
  let e := default ""%string email in
  bool_decide (e = ""%string) || (str_in "@" e && negb (str_in " " e)).

Lemma any_field_eq_records code students :
  Forall (λ v, is_obj v = true) students →
  any_field_eq "student_code" (JStr code) students
  = Ok (existsb (has_code code) students).
Proof.
  intros Hall. induction Hall as [|v l Hv Hall IH]; simpl; [done|].
  destruct v; try done. simpl. destruct (py_eq _ _); [done|]. by rewrite IH.
Qed.

Lemma first_with_field_new code students rec :
  Forall (λ v, is_obj v = true) students →
  existsb (has_code code) students = false →
  has_code code (JObj rec) = true →
  first_with_field "student_code" (JStr code) (students ++ [JObj rec]) = Ok (JObj rec).
Proof.
  intros Hall. induction Hall as [|v l Hv Hall IH]; simpl; intros Hnone Hrec.
  - simpl in Hrec. by rewrite Hrec.
  - destruct v; try done. simpl in Hnone. apply orb_false_iff in Hnone as [-> Hnone].
    by apply IH.
Qed.

Lemma student_codes_fresh code students :
  existsb (has_code code) students = false → code ∉ student_codes students.
Proof.
  induction students as [|v l IH]; simpl; intros Hnone Hin.
  - by apply elem_of_nil in Hin.
  - apply orb_false_iff in Hnone as [Hv Hnone].
    unfold student_codes in Hin.
    change (omap ?f (v :: l)) with (match f v with Some y => y :: omap f l | None => omap f l end) in Hin.
    destruct v as [| | | | |?|s]; try by apply IH.
    destruct (s !! "student_code") as [[| | | |c| |]|] eqn:Hs; try by apply IH.
    apply elem_of_cons in Hin as [->|Hin]; [|by apply IH].
    simpl in Hv. unfold py_get in Hv. rewrite Hs in Hv. simpl in Hv.
    by rewrite bool_decide_true in Hv.
Qed.

Lemma student_record_valid name code password email now :
  validate_student (student_record name code password email now)
  = Ok (if email_accepted email then (true, "OK"%string)
        else (false, "Invalid student email"%string)).
Proof.
  unfold validate_student, student_record, email_accepted.
  rewrite lookup_insert_eq.
  rewrite (lookup_insert_ne _ "name" "student_code") by done. rewrite lookup_insert_eq.
  do 2 rewrite (lookup_insert_ne _ _ "password_hash") by done. rewrite lookup_insert_eq.
  do 3 rewrite (lookup_insert_ne _ _ "email") by done. rewrite lookup_insert_eq.
  simpl. destruct (default ""%string email) as [|a e] eqn:He; [done|].
  rewrite !(bool_decide_false (String a e = ""%string)) by done. simpl.
  by destruct (str_in "@" (String a e) && negb (str_in " " (String a e))).
Qed.

(** C9, as amended. Registration keeps student codes unique: with the lock
    acquired and students.json holding a list of records, a code that a
    record already carries makes [register_student] raise [ValueError]
    with the files unchanged, and so does an e-mail that fails validation;
    otherwise exactly one record is appended, which carries the code and is
    returned, and if no two records shared a code before, none do after. *)
Theorem register_student_unique name code password email w students :
  (_acquire_lock STUDENTS_F LOCK_TIMEOUT_SEC w).2
    = Ok (mk_Lock (_lock_path STUDENTS_F) true) →
  recovered STUDENTS_F w = JArr students →
  Forall (λ v, is_obj v = true) students →
  (existsb (has_code code) students = true →
   ∃ w', register_student name code password email w
         = (w', Raise (ValueError "student_code already exists"))
     ∧ files w' = files w ∧ snapshots w' = snapshots w)
  ∧ (existsb (has_code code) students = false → email_accepted email = false →
     ∃ w', register_student name code password email w
           = (w', Raise (ValueError "Invalid student record: Invalid student email"))
       ∧ files w' = files w ∧ snapshots w' = snapshots w)
  ∧ (existsb (has_code code) students = false → email_accepted email = true →
     ∃ w' rec, register_student name code password email w = (w', Ok (JObj rec))
       ∧ recovered STUDENTS_F w' = JArr (students ++ [JObj rec])
       ∧ rec !! "student_code" = Some (JStr code)
       ∧ student_codes (students ++ [JObj rec]) = student_codes students ++ [code]
       ∧ (NoDup (student_codes students) →
          NoDup (student_codes (students ++ [JObj rec])))).
Proof.
  intros Hlock Hdata Hall.
  destruct (update_atomic_spec STUDENTS_F
              (register_student_fn name code password email) w)
    as (w1 & r & Hacq & Hr).
  rewrite Hacq in Hlock. simpl in Hlock. subst r.
  destruct Hr as (w2 & _ & _ & _ & Hr). rewrite Hdata in Hr.
  assert (Hfn : register_student_fn name code password email (JArr students) w2
    = if existsb (has_code code) students
      then Raises (ValueError "student_code already exists")
      else if email_accepted email
      then ReturnsArg (JArr (students ++
             [JObj (student_record name code password email (clock w2))]))
      else Raises (ValueError "Invalid student record: Invalid student email")).
  { unfold register_student_fn. rewrite any_field_eq_records by done.
    destruct (existsb _ _); [done|]. rewrite student_record_valid.
    by destruct (email_accepted email). }
  rewrite Hfn in Hr. clear Hfn.
  assert (Hreg : register_student name code password email w
    = match update_atomic STUDENTS_F
              (Some (register_student_fn name code password email)) w with
      | (w', Ok _) =>
          (_audit_log "REGISTER_STUDENT" "repo" code ;;;
           students <- read_json STUDENTS_F ;;
           lift (scan_for_field "student_code" (JStr code) students)) w'
      | (w', Raise e) => (w', Raise e)
      end) by done.
  rewrite Hreg. clear Hreg.
  split; [|split].
  - intros Htaken. rewrite Htaken in Hr. destruct Hr as (w' & -> & ? & ?).
    by exists w'.
  - intros Hfree Hbad. rewrite Hfree, Hbad in Hr. destruct Hr as (w' & -> & ? & ?).
    by exists w'.
  - intros Hfree Hgood. rewrite Hfree, Hgood in Hr. simpl in Hr.
    destruct Hr as (w' & -> & Hfiles & Hm & Hrec).
    set (rec := student_record name code password email (clock w2)) in *.
    assert (Hcode : rec !! "student_code" = Some (JStr code)).
    { unfold rec, student_record. rewrite lookup_insert_ne by done.
      apply lookup_insert_eq. }
    assert (Hhas : has_code code (JObj rec) = true).
    { simpl. unfold py_get. rewrite Hcode. simpl. by rewrite bool_decide_true. }
    unfold bind, _audit_log, effect.
    destruct (read_json_spec STUDENTS_F (log (EvAudit "INFO" "REGISTER_STUDENT" code) w'))
      as (w'' & -> & (Hf'' & Hs'' & _) & _).
    rewrite (recovered_ext STUDENTS_F w' (log (EvAudit "INFO" "REGISTER_STUDENT" code) w'))
      by done.
    rewrite Hrec.
    unfold lift, scan_for_field. rewrite first_with_field_new by done.
    exists w'', rec. split; [done|]. split.
    { rewrite <- Hrec. apply recovered_ext; done. }
    split; [done|].
    assert (Hcodes : student_codes (students ++ [JObj rec])
                     = student_codes students ++ [code]).
    { unfold student_codes. rewrite omap_app. by f_equal. }
    split; [done|]. intros Hnd. rewrite Hcodes.
    apply NoDup_app. split; [done|]. split; [|apply NoDup_singleton].
    intros c Hc Hc'. apply list_elem_of_singleton in Hc'. subst c.
    by apply student_codes_fresh in Hc.
Qed.

End Repository.

(** ** Worked instances

    For the instances the text of a file is either the value it parses to
    or no JSON at all, and the library functions are simple stand-ins. *)

Definition demo_text : Type := option json.
Definition demo_dumps (v : json) : demo_text := Some v.
Definition demo_loads (t : demo_text) : option json := t.
Definition demo_hash (password : string) : string := "bcrypt$" +:+ password.
Definition demo_now_iso (now : Z) : string := "2026-01-01T00:00:00.000Z".
Definition demo_str (v : json) : string :=
  match v with JStr s => s | _ => "" end.
Definition demo_lower (s : string) : string := s.
Definition demo_round2 (x : float) : float := x.
Definition demo_notification (ev : string) (payload : json) (now : Z) : json :=
  JObj {[ "event" := JStr ev; "payload" := payload ]}.

Lemma demo_round_trip data : demo_loads (demo_dumps data) = Some data.
Proof. reflexivity. Qed.

Definition empty_world : @World demo_text := mkWorld 5000000 ∅ ∅ ∅ [].

(** A marker written 70 seconds ago *)
Definition stale_world : @World demo_text :=
  mkWorld 5000000 ∅ {[ _lock_path THESIS_F := 4930000 ]} ∅ [].

Lemma acquire_lock_takes_over_stale_marker_witness :
  markers stale_world !! _lock_path THESIS_F = Some 4930000
  ∧ STALE_LOCK_SEC < clock stale_world - 4930000
  ∧ ∃ w', _acquire_lock THESIS_F LOCK_TIMEOUT_SEC stale_world
          = (w', Ok (mk_Lock (_lock_path THESIS_F) true))
      ∧ clock w' = clock stale_world.
Proof.
  assert (H1 : markers stale_world !! _lock_path THESIS_F = Some 4930000)
    by (vm_compute; reflexivity).
  assert (H2 : STALE_LOCK_SEC < clock stale_world - 4930000)
    by (vm_compute; reflexivity).
  split; [exact H1|]. split; [exact H2|].
  destruct (acquire_lock_takes_over_stale_marker THESIS_F LOCK_TIMEOUT_SEC
              stale_world 4930000 H1 H2) as (w' & Hacq & Hclock & _).
  exists w'. split; [exact Hacq|exact Hclock].
Defined.

(** A marker written 5 seconds ago and never removed *)
Definition held_world : @World demo_text :=
  mkWorld 5000000 {[ THESIS_F := demo_dumps (JArr []) ]}
          {[ _lock_path THESIS_F := 4995000 ]} ∅ [].

Lemma acquire_lock_times_out_witness :
  ∃ w', (∀ fn, update_atomic demo_dumps demo_loads THESIS_F fn held_world
               = (w', Raise (TimeoutError THESIS_F)))
    ∧ files w' = files held_world
    ∧ LOCK_TIMEOUT_SEC < clock w' - clock held_world.
Proof.
  assert (H1 : markers held_world !! _lock_path THESIS_F = Some 4995000)
    by (vm_compute; reflexivity).
  assert (H2 : 0 ≤ LOCK_TIMEOUT_SEC) by (vm_compute; discriminate).
  assert (H3 : clock held_world + LOCK_TIMEOUT_SEC + LOCK_SLEEP_SEC - 4995000
               ≤ STALE_LOCK_SEC) by (vm_compute; discriminate).
  destruct (acquire_lock_times_out demo_dumps demo_loads THESIS_F LOCK_TIMEOUT_SEC
              held_world 4995000 H1 H2 H3)
    as (w' & n & _ & [Hlate _] & Hfiles & _ & _ & _ & Hcallers).
  exists w'. split; [exact (proj1 (Hcallers eq_refl))|].
  split; [exact Hfiles|exact Hlate].
Defined.

(** A transform that always raises *)
Definition failing_fn : @transform demo_text :=
  λ _ _, Raises (ValueError "boom").

Definition thesis_world : @World demo_text :=
  mkWorld 5000000
    {[ THESIS_F := demo_dumps (JArr [JObj {[ "student_code" := JStr "s1";
                                             "course_id" := JStr "c1";
                                             "score" := JInt 18 ]}]) ]}
    ∅ ∅ [].


Lemma write_json_then_read_json_witness :
  let w' := (write_json demo_dumps THESIS_F (JArr [JInt 7]) thesis_world).1 in
  write_json demo_dumps THESIS_F (JArr [JInt 7]) thesis_world = (w', Ok tt)
  ∧ ∃ w'', read_json demo_loads THESIS_F w' = (w'', Ok (JArr [JInt 7])).
Proof.
  assert (H : write_json demo_dumps THESIS_F (JArr [JInt 7]) thesis_world
              = ((write_json demo_dumps THESIS_F (JArr [JInt 7]) thesis_world).1, Ok tt))
    by (vm_compute; reflexivity).
  split; [exact H|].
  exact (proj2 (proj2 (write_json_then_read_json demo_dumps demo_loads demo_round_trip
                         THESIS_F (JArr [JInt 7]) thesis_world _ H))).
Defined.

(** Twelve writes one second apart, the first at once *)
Definition spaced_script : list (Z * json) :=
  (0, JArr [JInt 0])
    :: ((λ i : Z, (1000, JArr [JInt i])) <$> [1; 2; 3; 4; 5; 6; 7; 8; 9; 10; 11]).

Lemma backup_retention_witness :
  let w' := write_all demo_dumps THESIS_F spaced_script thesis_world in
  length (backups (stem THESIS_F) w') = BACKUP_RETAIN_PER_FILE
  ∧ backups (stem THESIS_F) w'
    = (λ i : Z, (5000 + i + 1, demo_dumps (JArr [JInt i])))
        <$> [10; 9; 8; 7; 6; 5; 4; 3; 2; 1].
Proof.
  assert (H1 : markers thesis_world !! _lock_path THESIS_F = None)
    by (vm_compute; reflexivity).
  assert (H2 : ∀ ts, is_Some (snapshots thesis_world !! (stem THESIS_F, ts)) →
               ts ≤ (clock thesis_world + 0) `div` 1000).
  { intros ts [t Ht]. vm_compute in Ht. discriminate. }
  assert (H3 : Forall (λ step : Z * json, 1000 ≤ step.1) (tail spaced_script)).
  { repeat constructor; vm_compute; discriminate. }
  assert (H4 : (BACKUP_RETAIN_PER_FILE ≤ length (tail spaced_script))%nat)
    by (vm_compute; repeat constructor).
  destruct (backup_retention demo_dumps THESIS_F thesis_world 0 (JArr [JInt 0])
              (tail spaced_script) H1 H2 H3 H4) as [Hbak Hlen].
  split; [exact Hlen|]. etrans; [exact Hbak|]. vm_compute. reflexivity.
Defined.

(** The result of every write of a script, in order *)
Fixpoint write_results (p : Path) (script : list (Z * json)) (w : @World demo_text) :
    list (result unit) :=
  match script with
  | [] => []
  | (delay, data) :: rest =>
      let (w', r) := write_json demo_dumps p data (pass delay w) in
      r :: write_results p rest w'
  end.

(** Eleven writes within one second *)
Definition rapid_script : list (Z * json) :=
  (λ i : Z, (10, JArr [JInt i])) <$> [1; 2; 3; 4; 5; 6; 7; 8; 9; 10; 11].

(** C6 as the specification words it fails: eleven successive locked
    writes, all returning, leave one slot, since each write files the
    previous content under the name of the same second. *)
Lemma backup_retention_same_second :
  (BACKUP_RETAIN_PER_FILE < length rapid_script)%nat
  ∧ write_results THESIS_F rapid_script thesis_world = replicate 11 (Ok tt)
  ∧ backups (stem THESIS_F) (write_all demo_dumps THESIS_F rapid_script thesis_world)
    = [(5000, demo_dumps (JArr [JInt 10]))]
  ∧ length (backups (stem THESIS_F)
              (write_all demo_dumps THESIS_F rapid_script thesis_world))
    ≠ BACKUP_RETAIN_PER_FILE.
Proof.
  split; [vm_compute; lia|]. split; [vm_compute; reflexivity|].
  split; [vm_compute; reflexivity|]. vm_compute. discriminate.
Qed.

Definition candidate : gmap string json :=
  {[ "student_code" := JStr "s1"; "course_id" := JStr "c1"; "title" := JStr "On maps" ]}.


Definition first_defense : defense :=
  mkDefense "s1" "c1" "On maps" 2026 "fall" "t1"
    (JObj {[ "internal" := JStr "t2"; "external" := JStr "t3" ]})
    {[ "supervisor" := 18%float; "internal" := 17%float; "external" := 19%float ]}
    None ∅.

Definition second_defense : defense :=
  mkDefense "s1" "c1" "On finite maps" 2026 "fall" "t1"
    (JArr [JStr "t2"; JStr "t4"])
    {[ "supervisor" := 20%float; "internal" := 20%float; "external" := 20%float ]}
    (Some ["guest"%string]) ∅.

Definition archive_demo (a : defense) (w : @World demo_text) :=
  archive_defense demo_dumps demo_loads demo_now_iso demo_str demo_lower
    demo_round2 demo_notification a w.


Definition register_demo (name code password : string) (email : option string)
    (w : @World demo_text) :=
  register_student demo_dumps demo_loads demo_hash demo_now_iso
    name code password email w.

Definition students_world : @World demo_text :=
  mkWorld 5000000
    {[ STUDENTS_F := demo_dumps (JArr [JObj {[ "student_code" := JStr "1" ]}]) ]}
    ∅ ∅ [].

Lemma register_student_unique_witness :
  ∃ w' rec, register_demo "Ann" "2" "secret" (Some "ann@example.org"%string) students_world
            = (w', Ok (JObj rec))
    ∧ student_codes (as_list (recovered demo_loads STUDENTS_F w')) = ["1"; "2"]%string
    ∧ NoDup (student_codes (as_list (recovered demo_loads STUDENTS_F w'))).
Proof.
  pose (students := [JObj ({[ "student_code" := JStr "1" ]} : gmap string json)]).
  assert (H1 : (_acquire_lock STUDENTS_F LOCK_TIMEOUT_SEC students_world).2
               = Ok (mk_Lock (_lock_path STUDENTS_F) true)) by (vm_compute; reflexivity).
  assert (H2 : recovered demo_loads STUDENTS_F students_world = JArr students)
    by (vm_compute; reflexivity).
  assert (H3 : Forall (λ v, is_obj v = true) students) by (repeat constructor).
  destruct (register_student_unique demo_dumps demo_loads demo_hash demo_now_iso
              demo_round_trip "Ann" "2" "secret" (Some "ann@example.org"%string)
              students_world students H1 H2 H3) as (_ & _ & Happend).
  destruct (Happend ltac:(vm_compute; reflexivity) ltac:(vm_compute; reflexivity))
    as (w' & rec & Hrun & Hrec & _ & Hcodes & Hnd).
  exists w', rec. split; [exact Hrun|]. rewrite Hrec. simpl as_list.
  split; [exact Hcodes|]. apply Hnd. vm_compute. apply NoDup_singleton.
Defined.

(** Two records share the code "1" before the call *)
Definition duplicated_world : @World demo_text :=
  mkWorld 5000000
    {[ STUDENTS_F := demo_dumps (JArr [JObj {[ "student_code" := JStr "1" ]};
                                       JObj {[ "student_code" := JStr "1" ]}]) ]}
    ∅ ∅ [].

(** C9 as the specification words it fails: registration does not append
    when the e-mail is rejected, although no record carries the code; and
    after a successful call two records can still share a code, when they
    did before. *)
Lemma register_student_not_always_unique :
  (register_demo "Bob" "3" "secret" (Some "bob at example.org"%string) students_world).2
    = Raise (ValueError "Invalid student record: Invalid student email")
  ∧ existsb (has_code "3") (as_list (recovered demo_loads STUDENTS_F students_world))
    = false
  ∧ files (register_demo "Bob" "3" "secret" (Some "bob at example.org"%string)
             students_world).1
    = files students_world
  ∧ (∃ rec, (register_demo "Ann" "2" "secret" None duplicated_world).2 = Ok rec)
  ∧ student_codes
      (as_list (recovered demo_loads STUDENTS_F
                  (register_demo "Ann" "2" "secret" None duplicated_world).1))
    = ["1"; "1"; "2"]%string.
Proof.
  split; [vm_compute; reflexivity|]. split; [vm_compute; reflexivity|].
  split; [vm_compute; reflexivity|]. split; [eexists; vm_compute; reflexivity|].
  vm_compute; reflexivity.
Qed.

End Repo.

(** ** The upload copier, [core/files.py] *)

Module Files.

(** The two destination directories; a destination path is a directory
    and a file name. *)
Inductive dir := THESIS_DIR | IMAGES_DIR.

#[export] Instance dir_eq_dec : EqDecision dir.
Proof. solve_decision. Defined.

#[export] Instance dir_countable : Countable dir.
Proof.
  refine (inj_countable' (λ d, match d with THESIS_DIR => true | IMAGES_DIR => false end)
                         (λ b : bool, if b then THESIS_DIR else IMAGES_DIR) _).
  by intros [].
Defined.

Notation fpath := (dir * string)%type.

(** The files of the destination directories, with their bytes *)
Notation Disk := (gmap fpath string).

(** Policies *)
Definition ALLOWED_PDF_EXT : list string := [".pdf"].
Definition ALLOWED_IMG_EXT : list string := [".jpg"; ".jpeg"].
Definition PDF_MAX_BYTES : Z := 50 * 1024 * 1024.
Definition IMG_MAX_BYTES : Z := 10 * 1024 * 1024.

Inductive exn :=
| FileNotFoundError
| ValueError (msg : string)
| OSError.

Inductive result (A : Type) :=
| Ok (a : A)
| Raise (e : exn).
Arguments Ok {A} a.
Arguments Raise {A} e.

(** An input file: its lower-cased suffix ([Path.suffix.lower()]) and its
    bytes, or [None] when it does not exist. *)
Record source := mkSource { src_suffix : string; src_bytes : option string }.

(** [path.stat().st_size] of a file with these bytes *)
Definition st_size (bytes : string) : Z := Z.of_nat (String.length bytes).

(** [_size_ok(path, max_bytes)] *)
Definition _size_ok (s : source) (max_bytes : Z) : bool :=
  match src_bytes s with
  | Some bytes => (st_size bytes <=? max_bytes) && (0 <? st_size bytes)
  | None => false
  end.

(** [sub in s] on bytes *)
Definition bytes_in (sub s : string) : bool :=
  match String.index 0 sub s with
  | Some _ => true
  | None => false
  end.

(** [_pdf_has_eof(path)]: the end-of-file mark in the last 4096 bytes *)
Definition _pdf_has_eof (s : source) : bool :=
  match src_bytes s with
  | Some bytes =>
      let n := String.length bytes in
      if (n <? 8)%nat then false
      else
        let to_read := Nat.min 4096 n in
        bytes_in "%%EOF" (String.substring (n - to_read) to_read bytes)
  | None => false
  end.

Definition jpeg_magic : string :=
  String (Ascii.ascii_of_nat 255) (String (Ascii.ascii_of_nat 216) "").

(** [_guess_mime_and_sig_ok(path)] *)
Definition _guess_mime_and_sig_ok (s : source) : string * bool :=
  match src_bytes s with
  | None => ("application/octet-stream", false)
  | Some bytes =>
      let header := String.substring 0 5 bytes in
      if bool_decide (src_suffix s = ".pdf")
      then ("application/pdf", String.prefix "%PDF" header && _pdf_has_eof s)
      else if bool_decide (src_suffix s ∈ [".jpg"; ".jpeg"])
      then ("image/jpeg", bool_decide (String.substring 0 2 header = jpeg_magic))
      else ("application/octet-stream", false)
  end.

(** What the environment does to the file operations of one call: where a
    copy or a sidecar write fails, which unlinks fail, and the random token
    of each temporary name. *)
Inductive copy_fault :=
| CopyOk
| CopyFailsEarly                      (* opening the source or the temporary file raises *)
| CopyFailsWriting (partial : string) (* copyfileobj, flush or fsync raises *)
| CopyFailsReplace.                   (* os.replace raises *)

Inductive write_fault :=
| WriteOk
| WriteFailsEarly                     (* opening the temporary file raises *)
| WriteFailsWriting (partial : string)
| WriteFailsReplace.

Record Env := mkEnv {
  copy_fault_at : fpath → copy_fault;
  write_fault_at : fpath → write_fault;
  unlink_fails : fpath → bool;
  uuid_hex : fpath → string;
}.

(** [dst.with_name(f".{dst.name}.tmp.{uuid.uuid4().hex}")] *)
Definition tmp_path (env : Env) (dst : fpath) : fpath :=
  (dst.1, "." +:+ dst.2 +:+ ".tmp." +:+ uuid_hex env dst).

(** [p.with_suffix(p.suffix + ".sha256")] *)
Definition sidecar (p : fpath) : fpath := (p.1, p.2 +:+ ".sha256").

(** [_atomic_copy(src, dst)] *)
Definition _atomic_copy (env : Env) (bytes : string) (dst : fpath) (disk : Disk) :
    Disk * result unit :=
  let tmp := tmp_path env dst in
  match copy_fault_at env dst with
  | CopyFailsEarly => (disk, Raise OSError)
  | CopyFailsWriting partial => (<[tmp := partial]> disk, Raise OSError)
  | CopyFailsReplace => (<[tmp := bytes]> disk, Raise OSError)
  | CopyOk => (<[dst := bytes]> (delete tmp (<[tmp := bytes]> disk)), Ok tt)
  end.

(** [_atomic_write_text(path, text)] *)
Definition _atomic_write_text (env : Env) (path : fpath) (text : string) (disk : Disk) :
    Disk * result unit :=
  let tmp := tmp_path env path in
  match write_fault_at env path with
  | WriteFailsEarly => (disk, Raise OSError)
  | WriteFailsWriting partial => (<[tmp := partial]> disk, Raise OSError)
  | WriteFailsReplace => (<[tmp := text]> disk, Raise OSError)
  | WriteOk => (<[path := text]> (delete tmp (<[tmp := text]> disk)), Ok tt)
  end.

(** [_write_sidecar_hash(path, sha256_hex)]: best-effort, never raises *)
Definition _write_sidecar_hash (env : Env) (path : fpath) (sha256_hex : string)
    (disk : Disk) : Disk :=
  (_atomic_write_text env (sidecar path) sha256_hex disk).1.

(** [name.endswith(suffix)], the pattern [f"*{suffix}"] of the glob *)
Definition ends_with (suffix name : string) : bool :=
  let n := String.length name in
  let k := String.length suffix in
  (k <=? n)%nat && bool_decide (String.substring (n - k) k name = suffix).

Section Copier.

(** [hashlib.sha256] of the bytes, [_secure_filename] (Unicode
    normalisation and a regular expression) and [str.strip] *)
Variable sha256 : string → string.
Variable _secure_filename : string → string.
Variable py_strip : string → string.

(** The test of [_find_duplicate_by_hash] on one file of the glob: its
    sidecar exists and holds the digest. *)
Definition holds_digest (sha256_hex : string) (disk : Disk) (p : fpath) : bool :=
  match disk !! sidecar p with
  | Some text => bool_decide (py_strip text = sha256_hex)
  | None => false
  end.

(** [_find_duplicate_by_hash(target_dir, sha256_hex, suffix)]: the first
    file of the directory, in directory order, that ends in [suffix] and
    whose sidecar holds the digest *)
Definition _find_duplicate_by_hash (target_dir : dir) (sha256_hex suffix : string)
    (disk : Disk) : option fpath :=
  List.find
    (λ p : fpath, bool_decide (p.1 = target_dir) && ends_with suffix p.2
                  && holds_digest sha256_hex disk p)
    (map_to_list disk).*1.

(** [path.exists()] *)
Definition exists_on (disk : Disk) (p : fpath) : bool :=
  bool_decide (is_Some (disk !! p)).

(** A destination candidate before dedupe and versioning: its directory
    and the stem and suffix of its name *)
Record destination := mkDestination {
  dest_dir : dir;
  dest_stem : string;
  dest_suffix : string;
}.

Definition dest_path (c : destination) : fpath :=
  (dest_dir c, dest_stem c +:+ dest_suffix c).

(** The [while True] loop of [_versioned], from index [i]; the search
    stops for want of fuel only after more tries than there are files. *)
Fixpoint versioned_from (fuel i : nat) (dest : destination) (disk : Disk) : option fpath :=
  match fuel with
  | O => None
  | S fuel' =>
      let new := (dest_dir dest,
                  dest_stem dest +:+ "_v" +:+ pretty i +:+ dest_suffix dest) in
      if exists_on disk new then versioned_from fuel' (S i) dest disk else Some new
  end.

(** [_versioned(dest)] *)
Definition _versioned (dest : destination) (disk : Disk) : option fpath :=
  if exists_on disk (dest_path dest)
  then versioned_from (S (size disk)) 2 dest disk
  else Some (dest_path dest).

(** The deduplicate-or-version step for one destination *)
Definition choose_destination (deduplicate : bool) (dup : option fpath)
    (dest : destination) (disk : Disk) : option fpath :=
  match deduplicate, dup with
  | true, Some p => Some p
  | _, _ =>
      if exists_on disk (dest_path dest) then _versioned dest disk
      else Some (dest_path dest)
  end.

(** One block of the copy phase: copy unless the destination exists,
    write the sidecar, record the destination in [created]. *)
Definition copy_one (env : Env) (bytes sha256_hex : string) (dst : fpath)
    (st : Disk * list fpath) : (Disk * list fpath) * result unit :=
  if exists_on st.1 dst then (st, Ok tt)
  else
    match _atomic_copy env bytes dst st.1 with
    | (disk', Raise e) => ((disk', st.2), Raise e)
    | (disk', Ok _) =>
        ((_write_sidecar_hash env dst sha256_hex disk', st.2 ++ [dst]), Ok tt)
    end.

(** The body of the rollback loop: [p.unlink(missing_ok=True)], then the
    same for the sidecar, any exception swallowed *)
Definition unlink_created (env : Env) (disk : Disk) (p : fpath) : Disk :=
  if unlink_fails env p then disk
  else if unlink_fails env (sidecar p) then delete p disk
  else delete (sidecar p) (delete p disk).

(** [for p in reversed(created): ...] *)
Definition rollback (env : Env) (created : list fpath) (disk : Disk) : Disk :=
  foldl (unlink_created env) disk (reverse created).

(** One block of the [try] body; after a raise the later blocks do not run. *)
Definition copy_step (env : Env) (acc : (Disk * list fpath) * result unit)
    (step : string * string * fpath) : (Disk * list fpath) * result unit :=
  match acc.2 with
  | Ok _ => copy_one env step.1.1 step.1.2 step.2 acc.1
  | Raise e => acc
  end.

(** The [try: ... except Exception: rollback; raise] of the copy phase,
    each file given as its bytes, its digest and its destination *)
Definition copy_with_rollback (env : Env)
    (pdf cov last : string * string * fpath) (disk : Disk) : Disk * result unit :=
  match foldl (copy_step env) ((disk, []), Ok tt) [pdf; cov; last] with
  | (st, Ok _) => (st.1, Ok tt)
  | (st, Raise e) => (rollback env st.2 st.1, Raise e)
  end.

Record meta := mkMeta { mime : string; meta_size : Z; signature_ok : bool }.

(** The dict that [validate_and_copy] returns *)
Record report := mkReport {
  pdf_path : fpath; cover_path : fpath; last_path : fpath;
  pdf_hash : string; cover_hash : string; last_hash : string;
  pdf_meta : meta; cover_meta : meta; last_meta : meta;
}.

(** [dst.stat().st_size] *)
Definition stat_size (disk : Disk) (p : fpath) : result Z :=
  match disk !! p with
  | Some bytes => Ok (st_size bytes)
  | None => Raise FileNotFoundError
  end.

(** [validate_and_copy(pdf, cover, last, out_prefix, deduplicate=...,
    pdf_max_bytes=..., img_max_bytes=...)]. The result would be [None]
    if the search of [_versioned] ran out of fuel, which it does not
    ([validate_and_copy_total]). The path-safety check [_ensure_within]
    is left out: a destination name is one sanitised path component
    under its directory. *)
Definition validate_and_copy (env : Env) (pdf cover last : source)
    (out_prefix : string) (deduplicate : bool) (pdf_max_bytes img_max_bytes : Z)
    (disk : Disk) : option (Disk * result report) :=
  match src_bytes pdf, src_bytes cover, src_bytes last with
  | Some pdf_b, Some cov_b, Some last_b =>
      if negb (bool_decide (src_suffix pdf ∈ ALLOWED_PDF_EXT))
      then Some (disk, Raise (ValueError "PDF must have .pdf extension"))
      else if negb (bool_decide (src_suffix cover ∈ ALLOWED_IMG_EXT))
              || negb (bool_decide (src_suffix last ∈ ALLOWED_IMG_EXT))
      then Some (disk, Raise (ValueError "Images must be .jpg or .jpeg"))
      else if negb (_size_ok pdf pdf_max_bytes)
      then Some (disk, Raise (ValueError ("PDF exceeds size limit ("
                   +:+ pretty pdf_max_bytes +:+ " bytes) or is empty")))
      else if negb (_size_ok cover img_max_bytes)
      then Some (disk, Raise (ValueError ("Cover image exceeds size limit ("
                   +:+ pretty img_max_bytes +:+ " bytes) or is empty")))
      else if negb (_size_ok last img_max_bytes)
      then Some (disk, Raise (ValueError ("Last image exceeds size limit ("
                   +:+ pretty img_max_bytes +:+ " bytes) or is empty")))
      else
        let '(pdf_mime, pdf_sig) := _guess_mime_and_sig_ok pdf in
        let '(cov_mime, cov_sig) := _guess_mime_and_sig_ok cover in
        let '(last_mime, last_sig) := _guess_mime_and_sig_ok last in
        if negb pdf_sig
        then Some (disk, Raise (ValueError "Invalid PDF signature (header/EOF)"))
        else if negb cov_sig || negb last_sig
        then Some (disk, Raise (ValueError "Invalid JPEG signature for cover/last"))
        else
          let out_prefix :=
            let safe := _secure_filename out_prefix in
            if bool_decide (safe = ""%string) then "thesis"%string else safe in
          let pdf_cand := mkDestination THESIS_DIR out_prefix ".pdf" in
          let cov_cand := mkDestination IMAGES_DIR (out_prefix +:+ "_cover") (src_suffix cover) in
          let last_cand := mkDestination IMAGES_DIR (out_prefix +:+ "_last") (src_suffix last) in
          let pdf_h := sha256 pdf_b in
          let cov_h := sha256 cov_b in
          let last_h := sha256 last_b in
          let dup_pdf := _find_duplicate_by_hash THESIS_DIR pdf_h ".pdf" disk in
          let dup_cov := _find_duplicate_by_hash IMAGES_DIR cov_h (src_suffix cover) disk in
          let dup_last := _find_duplicate_by_hash IMAGES_DIR last_h (src_suffix last) disk in
          match choose_destination deduplicate dup_pdf pdf_cand disk,
                choose_destination deduplicate dup_cov cov_cand disk,
                choose_destination deduplicate dup_last last_cand disk with
          | Some pdf_dst, Some cov_dst, Some last_dst =>
              match copy_with_rollback env (pdf_b, pdf_h, pdf_dst)
                      (cov_b, cov_h, cov_dst) (last_b, last_h, last_dst) disk with
              | (disk', Raise e) => Some (disk', Raise e)
              | (disk', Ok _) =>
                  match stat_size disk' pdf_dst, stat_size disk' cov_dst,
                        stat_size disk' last_dst with
                  | Ok pdf_n, Ok cov_n, Ok last_n =>
                      Some (disk',
                            Ok (mkReport pdf_dst cov_dst last_dst pdf_h cov_h last_h
                                  (mkMeta pdf_mime pdf_n true)
                                  (mkMeta cov_mime cov_n true)
                                  (mkMeta last_mime last_n true)))
                  | _, _, _ => Some (disk', Raise FileNotFoundError)
                  end
              end
          | _, _, _ => None
          end
  | _, _, _ => Some (disk, Raise FileNotFoundError)
  end.

(** *** Which names the copier writes *)

(** A name that a destination of an upload can have: it ends in one of
    the allowed extensions. *)
Definition is_upload (k : fpath) : bool :=
  ends_with ".pdf" k.2 || ends_with ".jpg" k.2 || ends_with ".jpeg" k.2.

(** The temporary file of some copy or sidecar write *)
Definition is_temporary (env : Env) (k : fpath) : Prop :=
  ∃ d, k = tmp_path env d.

(** What holds of the disk and of [created] throughout the copy phase
    that started on [disk0] *)
Definition copy_inv (env : Env) (disk0 : Disk) (st : Disk * list fpath) : Prop :=
  (∀ k, disk0 !! k = None → is_Some (st.1 !! k) →
        k ∈ st.2 ∨ (∃ p, p ∈ st.2 ∧ k = sidecar p) ∨ is_temporary env k)
  ∧ (∀ k c, disk0 !! k = Some c → is_upload k = true → st.1 !! k = Some c)
  ∧ (∀ p, p ∈ st.2 → is_upload p = true → disk0 !! p = None).

Lemma string_app_length (a b : string) :
  String.length (a +:+ b) = (String.length a + String.length b)%nat.
Proof.
  induction a as [|c a IH]; [done|].
  change (S (String.length (a +:+ b)) = S (String.length a + String.length b)).
  by rewrite IH.
Qed.

Lemma substring_app_r (a b : string) (m k : nat) :
  String.substring (String.length a + m) k (a +:+ b) = String.substring m k b.
Proof. induction a as [|c a IH]; [done|]. exact IH. Qed.

(** Whether a name ends in [s] is decided by its last characters. *)
Lemma ends_with_app (s a b : string) :
  (String.length s ≤ String.length b)%nat →
  ends_with s (a +:+ b) = ends_with s b.
Proof.
  intros Hle. unfold ends_with. rewrite string_app_length.
  replace (String.length a + String.length b - String.length s)%nat
    with (String.length a + (String.length b - String.length s))%nat by lia.
  rewrite substring_app_r.
  replace (String.length s <=? String.length a + String.length b)%nat with true
    by (symmetry; apply Nat.leb_le; lia).
  replace (String.length s <=? String.length b)%nat with true
    by (symmetry; apply Nat.leb_le; lia).
  done.
Qed.

Lemma substring_all (s : string) :
  String.substring 0 (String.length s) s = s.
Proof. induction s as [|c s IH]; [done|]. simpl. by rewrite IH. Qed.

Lemma ends_with_suffix (a s : string) : ends_with s (a +:+ s) = true.
Proof.
  unfold ends_with. rewrite string_app_length.
  replace (String.length a + String.length s - String.length s)%nat
    with (String.length a + 0)%nat by lia.
  rewrite substring_app_r, substring_all.
  rewrite bool_decide_eq_true_2 by done.
  rewrite andb_true_r. apply Nat.leb_le. lia.
Qed.

(** A sidecar does not have the name of an upload. *)
Lemma sidecar_not_upload (p : fpath) : is_upload (sidecar p) = false.
Proof.
  unfold is_upload, sidecar. cbn [snd].
  rewrite !ends_with_app by (cbn; lia). done.
Qed.

Lemma upload_not_sidecar (k p : fpath) : is_upload k = true → k ≠ sidecar p.
Proof. intros Hk ->. by rewrite sidecar_not_upload in Hk. Qed.

(** *** The file operations, key by key *)

Lemma atomic_copy_frame env bytes dst disk k :
  k ≠ dst → k ≠ tmp_path env dst →
  (_atomic_copy env bytes dst disk).1 !! k = disk !! k.
Proof.
  intros Hdst Htmp. unfold _atomic_copy.
  destruct (copy_fault_at env dst); cbn [fst];
    rewrite ?lookup_insert_ne, ?lookup_delete_ne, ?lookup_insert_ne by done; done.
Qed.

Lemma atomic_copy_raises env bytes dst disk e k :
  (_atomic_copy env bytes dst disk).2 = Raise e →
  k ≠ tmp_path env dst →
  (_atomic_copy env bytes dst disk).1 !! k = disk !! k.
Proof.
  intros Hr Htmp. unfold _atomic_copy in *.
  destruct (copy_fault_at env dst); cbn [fst snd] in *; try done;
    rewrite ?lookup_insert_ne by done; done.
Qed.

Lemma atomic_copy_returns env bytes dst disk :
  (_atomic_copy env bytes dst disk).2 = Ok tt →
  (_atomic_copy env bytes dst disk).1 !! dst = Some bytes.
Proof.
  unfold _atomic_copy.
  destruct (copy_fault_at env dst); cbn [fst snd]; try done.
  intros _. by rewrite lookup_insert_eq.
Qed.

Lemma atomic_copy_keeps env bytes dst disk k :
  is_Some (disk !! k) → k ≠ tmp_path env dst →
  is_Some ((_atomic_copy env bytes dst disk).1 !! k).
Proof.
  intros Hk Htmp. destruct (decide (k = dst)) as [->|Hdst].
  - unfold _atomic_copy.
    destruct (copy_fault_at env dst); cbn [fst];
      rewrite ?lookup_insert_eq, ?lookup_insert_ne by done; eauto.
  - by rewrite atomic_copy_frame.
Qed.

Lemma write_sidecar_frame env path sha256_hex disk k :
  k ≠ sidecar path → k ≠ tmp_path env (sidecar path) →
  _write_sidecar_hash env path sha256_hex disk !! k = disk !! k.
Proof.
  intros Hside Htmp. unfold _write_sidecar_hash, _atomic_write_text.
  destruct (write_fault_at env (sidecar path)); cbn [fst];
    rewrite ?lookup_insert_ne, ?lookup_delete_ne, ?lookup_insert_ne by done; done.
Qed.

(** *** The copy phase *)

Lemma copy_one_inv env disk0 bytes sha256_hex dst st :
  (∀ d, is_upload (tmp_path env d) = false) →
  copy_inv env disk0 st →
  copy_inv env disk0 (copy_one env bytes sha256_hex dst st).1.
Proof.
  intros Htok (HA & HB & HC). unfold copy_one.
  destruct (exists_on st.1 dst) eqn:Hex; [done|].
  apply bool_decide_eq_false in Hex.
  assert (Hnew : ∀ c, disk0 !! dst = Some c → is_upload dst = true → False).
  { intros c Hc Hup. apply Hex. rewrite (HB _ _ Hc Hup). eauto. }
  destruct (_atomic_copy env bytes dst st.1) as [disk1 [[]|e]] eqn:Hcopy; cbn [fst snd].
  - assert (Hone : ∀ k, k ≠ dst → k ≠ tmp_path env dst → disk1 !! k = st.1 !! k).
    { intros k ? ?. change disk1 with (disk1, @Ok unit ()).1. rewrite <-Hcopy.
      by apply atomic_copy_frame. }
    repeat split; cbn [fst snd].
    + intros k Hk0 Hk.
      destruct (decide (k = dst)) as [->|Hdst]; [left; set_solver|].
      destruct (decide (k = sidecar dst)) as [->|Hside];
        [right; left; exists dst; set_solver|].
      destruct (decide (k = tmp_path env (sidecar dst))) as [->|Htmp'];
        [right; right; by eexists|].
      destruct (decide (k = tmp_path env dst)) as [->|Htmp];
        [right; right; by eexists|].
      rewrite write_sidecar_frame, Hone in Hk by done.
      destruct (HA k Hk0 Hk) as [?|[(p & ? & ?)|?]];
        [left|right; left; exists p|by right; right]; set_solver.
    + intros k c Hk0 Hup.
      assert (k ≠ dst) by (intros ->; eauto).
      assert (k ≠ sidecar dst) by by apply upload_not_sidecar.
      assert (k ≠ tmp_path env (sidecar dst)) by (intros ->; by rewrite Htok in Hup).
      assert (k ≠ tmp_path env dst) by (intros ->; by rewrite Htok in Hup).
      rewrite write_sidecar_frame, Hone by done. eauto.
    + intros p [Hp| ->%list_elem_of_singleton]%elem_of_app Hup; [eauto|].
      destruct (disk0 !! dst) as [c|] eqn:Hc; [|done].
      by destruct (Hnew c).
  - assert (Hone : ∀ k, k ≠ tmp_path env dst → disk1 !! k = st.1 !! k).
    { intros k ?. change disk1 with (disk1, @Raise unit e).1. rewrite <-Hcopy.
      apply (atomic_copy_raises _ _ _ _ e); [by rewrite Hcopy|done]. }
    repeat split; cbn [fst snd]; [| |done].
    + intros k Hk0 Hk.
      destruct (decide (k = tmp_path env dst)) as [->|Htmp];
        [right; right; by eexists|].
      rewrite Hone in Hk by done. eauto.
    + intros k c Hk0 Hup.
      assert (k ≠ tmp_path env dst) by (intros ->; by rewrite Htok in Hup).
      rewrite Hone by done. eauto.
Qed.

Lemma copy_one_returns env bytes sha256_hex dst st :
  (∀ d, is_upload (tmp_path env d) = false) →
  is_upload dst = true →
  (copy_one env bytes sha256_hex dst st).2 = Ok tt →
  is_Some ((copy_one env bytes sha256_hex dst st).1.1 !! dst).
Proof.
  intros Htok Hup. unfold copy_one.
  destruct (exists_on st.1 dst) eqn:Hex; [by apply bool_decide_eq_true in Hex|].
  destruct (_atomic_copy env bytes dst st.1) as [disk1 [[]|e]] eqn:Hcopy;
    cbn [fst snd]; [intros _|done].
  rewrite write_sidecar_frame.
  - change disk1 with (disk1, @Ok unit ()).1. rewrite <-Hcopy.
    rewrite atomic_copy_returns; [eauto|by rewrite Hcopy].
  - by apply upload_not_sidecar.
  - intros Heq. by rewrite Heq, Htok in Hup.
Qed.

Lemma copy_one_keeps env bytes sha256_hex dst st k :
  (∀ d, is_upload (tmp_path env d) = false) →
  is_upload k = true →
  is_Some (st.1 !! k) →
  is_Some ((copy_one env bytes sha256_hex dst st).1.1 !! k).
Proof.
  intros Htok Hup Hk. unfold copy_one.
  destruct (exists_on st.1 dst); [done|].
  assert (is_Some ((_atomic_copy env bytes dst st.1).1 !! k)) as Hk1.
  { apply atomic_copy_keeps; [done|]. intros Heq. by rewrite Heq, Htok in Hup. }
  destruct (_atomic_copy env bytes dst st.1) as [disk1 [[]|e]]; cbn [fst snd] in *; [|done].
  rewrite write_sidecar_frame; [done|by apply upload_not_sidecar|].
  intros Heq. by rewrite Heq, Htok in Hup.
Qed.

Lemma copy_steps_inv env disk0 steps acc :
  (∀ d, is_upload (tmp_path env d) = false) →
  copy_inv env disk0 acc.1 →
  copy_inv env disk0 (foldl (copy_step env) acc steps).1.
Proof.
  intros Htok. revert acc. induction steps as [|step steps IH]; intros acc Hacc; [done|].
  cbn [foldl]. apply IH. unfold copy_step.
  destruct acc.2; [by apply copy_one_inv|done].
Qed.

(** When the copy phase ends without a raise, every destination exists. *)
Lemma copy_steps_return env steps acc :
  (∀ d, is_upload (tmp_path env d) = false) →
  (foldl (copy_step env) acc steps).2 = Ok tt →
  ∀ step, step ∈ steps → is_upload step.2 = true →
  is_Some ((foldl (copy_step env) acc steps).1.1 !! step.2).
Proof.
  intros Htok. induction steps as [|last steps IH] using rev_ind;
    intros Hret step Hin Hup; [by apply elem_of_nil in Hin|].
  rewrite foldl_snoc in *.
  remember (foldl (copy_step env) acc steps) as mid eqn:Hmid.
  unfold copy_step in *. destruct (mid.2) as [[]|e] eqn:Hm; [|by rewrite Hm in Hret].
  apply elem_of_app in Hin as [Hin| ->%list_elem_of_singleton].
  - apply copy_one_keeps; [done..|]. by apply IH.
  - by apply copy_one_returns.
Qed.

(** *** The rollback *)

Lemma unlink_created_lookup_Some env disk p k c :
  unlink_created env disk p !! k = Some c → disk !! k = Some c.
Proof.
  unfold unlink_created.
  destruct (unlink_fails env p); [done|].
  destruct (unlink_fails env (sidecar p)); rewrite ?lookup_delete_Some; naive_solver.
Qed.

Lemma unlink_created_frame env disk p k :
  k ≠ p → k ≠ sidecar p → unlink_created env disk p !! k = disk !! k.
Proof.
  intros Hp Hside. unfold unlink_created.
  destruct (unlink_fails env p); [done|].
  destruct (unlink_fails env (sidecar p)); by rewrite ?lookup_delete_ne.
Qed.

Lemma unlink_all_lookup_Some env l disk k c :
  foldl (unlink_created env) disk l !! k = Some c → disk !! k = Some c.
Proof.
  revert disk. induction l as [|p l IH]; intros disk; [done|].
  cbn [foldl]. intros Hk%IH. by eapply unlink_created_lookup_Some.
Qed.

Lemma unlink_all_frame env l disk k :
  (∀ p, p ∈ l → k ≠ p ∧ k ≠ sidecar p) →
  foldl (unlink_created env) disk l !! k = disk !! k.
Proof.
  revert disk. induction l as [|p l IH]; intros disk Hl; [done|].
  cbn [foldl]. rewrite IH by (intros; apply Hl; set_solver).
  apply unlink_created_frame; apply Hl; set_solver.
Qed.

Lemma unlink_all_gone env l disk p :
  (∀ k, unlink_fails env k = false) →
  p ∈ l →
  foldl (unlink_created env) disk l !! p = None
  ∧ foldl (unlink_created env) disk l !! sidecar p = None.
Proof.
  intros Hun. revert disk. induction l as [|q l IH]; intros disk Hin;
    [by apply elem_of_nil in Hin|].
  cbn [foldl]. apply elem_of_cons in Hin as [->|Hin]; [|by apply IH].
  assert (Hq : unlink_created env disk q !! q = None
               ∧ unlink_created env disk q !! sidecar q = None).
  { unfold unlink_created. rewrite !Hun. split.
    - destruct (decide (q = sidecar q)) as [Heq|Hne].
      + rewrite <-Heq. by rewrite lookup_delete_eq.
      + by rewrite lookup_delete_ne, lookup_delete_eq.
    - by rewrite lookup_delete_eq. }
  destruct Hq as [Hq1 Hq2]. split.
  - destruct (foldl _ _ l !! q) as [c|] eqn:Hc; [|done].
    apply unlink_all_lookup_Some in Hc. congruence.
  - destruct (foldl _ _ l !! sidecar q) as [c|] eqn:Hc; [|done].
    apply unlink_all_lookup_Some in Hc. congruence.
Qed.

(** The copy phase with its rollback: after a raise, with every unlink of
    the rollback succeeding, the new files are temporary files and the
    uploads that were there are as they were. *)
Lemma copy_with_rollback_raises env pdf cov last disk disk' e :
  (∀ d, is_upload (tmp_path env d) = false) →
  (∀ k, unlink_fails env k = false) →
  copy_with_rollback env pdf cov last disk = (disk', Raise e) →
  (∀ k, disk !! k = None → is_Some (disk' !! k) → is_temporary env k)
  ∧ (∀ k c, disk !! k = Some c → is_upload k = true → disk' !! k = Some c).
Proof.
  intros Htok Hun. unfold copy_with_rollback.
  pose proof (copy_steps_inv env disk [pdf; cov; last] ((disk, []), Ok tt) Htok) as Hinv.
  destruct (foldl _ _ _) as [st [[]|e']]; [done|]. intros [= <- <-].
  destruct Hinv as (HA & HB & HC).
  { repeat split; cbn [fst snd].
    - intros k -> [c Hc]. discriminate.
    - done.
    - intros p Hp. by apply elem_of_nil in Hp. }
  cbn [fst snd] in *. unfold rollback. split.
  - intros k Hk0 [c Hk].
    pose proof (unlink_all_lookup_Some _ _ _ _ _ Hk) as Hst.
    destruct (HA k Hk0 (mk_is_Some _ _ Hst)) as [Hin|[(p & Hin & ->)|Htmp]]; [| |done].
    + apply (proj2 (elem_of_reverse _ _)) in Hin.
      destruct (unlink_all_gone env _ st.1 k Hun Hin). congruence.
    + apply (proj2 (elem_of_reverse _ _)) in Hin.
      destruct (unlink_all_gone env _ st.1 p Hun Hin). congruence.
  - intros k c Hk0 Hup. rewrite unlink_all_frame; [eauto|].
    intros p Hp. apply (proj1 (elem_of_reverse _ _)) in Hp. split.
    + intros ->. specialize (HC _ Hp Hup). congruence.
    + by apply upload_not_sidecar.
Qed.

(** *** The destinations are uploads *)

Lemma ends_with_app_r (s a b : string) :
  ends_with s b = true → ends_with s (a +:+ b) = true.
Proof.
  intros Hb. rewrite ends_with_app; [done|].
  unfold ends_with in Hb. apply andb_true_iff in Hb as [Hle _].
  by apply Nat.leb_le in Hle.
Qed.

Lemma ends_with_upload (suffix : string) (k : fpath) :
  suffix ∈ [".pdf"; ".jpg"; ".jpeg"] → ends_with suffix k.2 = true → is_upload k = true.
Proof.
  intros Hin Hk. unfold is_upload.
  repeat (apply elem_of_cons in Hin as [->|Hin]; [rewrite Hk; by rewrite ?orb_true_r|]).
  by apply elem_of_nil in Hin.
Qed.

Lemma find_duplicate_ends target_dir sha256_hex suffix disk p :
  _find_duplicate_by_hash target_dir sha256_hex suffix disk = Some p →
  ends_with suffix p.2 = true.
Proof.
  unfold _find_duplicate_by_hash. intros [_ Hp]%find_some.
  by apply andb_true_iff in Hp as [[_ Hp]%andb_true_iff _].
Qed.

Lemma versioned_from_ends fuel i dest disk p :
  versioned_from fuel i dest disk = Some p →
  ends_with (dest_suffix dest) p.2 = true.
Proof.
  revert i. induction fuel as [|fuel IH]; intros i; [done|].
  cbn [versioned_from]. destruct (exists_on _ _); [by apply IH|].
  intros [= <-]. cbn [snd].
  do 3 apply ends_with_app_r. apply (ends_with_suffix "").
Qed.

Lemma choose_destination_ends deduplicate dup dest disk p :
  (∀ q, dup = Some q → ends_with (dest_suffix dest) q.2 = true) →
  choose_destination deduplicate dup dest disk = Some p →
  ends_with (dest_suffix dest) p.2 = true.
Proof.
  intros Hdup. unfold choose_destination, _versioned.
  assert (Hcand : ends_with (dest_suffix dest) (dest_path dest).2 = true)
    by apply ends_with_suffix.
  destruct deduplicate, dup as [q|]; repeat case_match;
    try (intros [= <-]; by eauto); apply versioned_from_ends.
Qed.

Lemma chosen_upload deduplicate target_dir sha256_hex stem suffix disk p :
  suffix ∈ [".pdf"; ".jpg"; ".jpeg"] →
  choose_destination deduplicate
    (_find_duplicate_by_hash target_dir sha256_hex suffix disk)
    (mkDestination target_dir stem suffix) disk = Some p →
  is_upload p = true.
Proof.
  intros Hsuffix Hp. apply (ends_with_upload suffix); [done|].
  apply choose_destination_ends in Hp; [done|].
  intros q. apply find_duplicate_ends.
Qed.

(** When the copy phase returns, the three destinations exist. *)
Lemma copy_with_rollback_returns env pdf cov last disk disk' u :
  (∀ d, is_upload (tmp_path env d) = false) →
  is_upload pdf.2 = true → is_upload cov.2 = true → is_upload last.2 = true →
  copy_with_rollback env pdf cov last disk = (disk', Ok u) →
  is_Some (disk' !! pdf.2) ∧ is_Some (disk' !! cov.2) ∧ is_Some (disk' !! last.2).
Proof.
  intros Htok Hpdf Hcov Hlast. unfold copy_with_rollback.
  pose proof (copy_steps_return env [pdf; cov; last] ((disk, []), Ok tt) Htok) as Hret.
  destruct (foldl _ _ _) as [st [[]|e]]; [|done]. intros [= <- <-].
  cbn [fst snd] in Hret.
  repeat split; apply Hret; try done; set_solver.
Qed.

(** *** The search for a free versioned name ends *)

Definition versioned_name (dest : destination) (i : nat) : fpath :=
  (dest_dir dest, dest_stem dest +:+ "_v" +:+ pretty i +:+ dest_suffix dest).

Lemma string_app_inj_r (a b s : string) : a +:+ s = b +:+ s → a = b.
Proof.
  revert b. induction a as [|c a IH]; intros [|c' b] Heq; [done| | |].
  - apply (f_equal String.length) in Heq.
    rewrite !string_app_length in Heq. cbn [String.length] in Heq. lia.
  - apply (f_equal String.length) in Heq.
    rewrite !string_app_length in Heq. cbn [String.length] in Heq. lia.
  - injection Heq as -> Heq. f_equal. by apply IH.
Qed.

Lemma versioned_name_inj dest : Inj (=) (=) (versioned_name dest).
Proof.
  intros i j [= Heq]. apply (inj (String.app _)) in Heq.
  apply (inj (String.app _)) in Heq. apply string_app_inj_r in Heq.
  by apply (inj pretty) in Heq.
Qed.

Lemma versioned_from_None fuel i dest disk :
  versioned_from fuel i dest disk = None →
  ∀ j, (i ≤ j < i + fuel)%nat → is_Some (disk !! versioned_name dest j).
Proof.
  revert i. induction fuel as [|fuel IH]; intros i Hnone j Hj; [lia|].
  cbn [versioned_from] in Hnone. fold (versioned_name dest i) in Hnone.
  destruct (exists_on disk (versioned_name dest i)) eqn:Hex; [|done].
  destruct (decide (j = i)) as [->|Hne]; [by apply bool_decide_eq_true in Hex|].
  apply (IH (S i)); [done|lia].
Qed.

Lemma versioned_from_total dest disk :
  is_Some (versioned_from (S (size disk)) 2 dest disk).
Proof.
  destruct (versioned_from _ _ _ _) as [p|] eqn:Hnone; [eauto|]. exfalso.
  pose proof (versioned_from_None _ _ _ _ Hnone) as Hall.
  assert (Hsub : versioned_name dest <$> seq 2 (S (size disk)) ⊆+ (map_to_list disk).*1).
  { apply NoDup_submseteq.
    - apply (NoDup_fmap_2 _ (Inj0 := versioned_name_inj dest)), NoDup_seq.
    - intros k (j & -> & Hj%elem_of_seq)%list_elem_of_fmap.
      destruct (Hall j) as [c Hc]; [lia|].
      apply list_elem_of_fmap. exists (versioned_name dest j, c).
      split; [done|]. by apply elem_of_map_to_list. }
  apply submseteq_length in Hsub.
  rewrite !length_fmap, length_seq, length_map_to_list in Hsub. lia.
Qed.

Lemma choose_destination_total deduplicate dup dest disk :
  is_Some (choose_destination deduplicate dup dest disk).
Proof.
  unfold choose_destination, _versioned.
  repeat case_match; eauto using versioned_from_total.
Qed.

(** [validate_and_copy] always returns or raises. *)
Lemma validate_and_copy_total env pdf cover last out_prefix deduplicate
    pdf_max_bytes img_max_bytes disk :
  is_Some (validate_and_copy env pdf cover last out_prefix deduplicate
             pdf_max_bytes img_max_bytes disk).
Proof.
  unfold validate_and_copy.
  repeat case_match; eauto;
    match goal with
    | H : choose_destination ?a ?b ?c ?d = None |- _ =>
        by destruct (choose_destination_total a b c d) as [? ?]; congruence
    end.
Qed.

(** C10, as amended. Rollback of a failed upload: when
    [validate_and_copy] raises, and the unlinks of its rollback succeed,
    every file that the call added to the destination directories and
    that is still there is a temporary file [.<name>.tmp.<token>] of a
    copy or of a sidecar write: the destination files it copied and their
    sidecars are gone. Every upload (a file named [*.pdf], [*.jpg] or
    [*.jpeg]) that was there before the call is there afterwards with the
    same bytes. Temporary names are taken not to end in an upload's
    extension, as the hexadecimal tokens of the code ensure. *)
Theorem validate_and_copy_rolls_back env pdf cover last out_prefix deduplicate
    pdf_max_bytes img_max_bytes disk disk' e :
  (∀ d, is_upload (tmp_path env d) = false) →
  (∀ k, unlink_fails env k = false) →
  validate_and_copy env pdf cover last out_prefix deduplicate
    pdf_max_bytes img_max_bytes disk = Some (disk', Raise e) →
  (∀ k, disk !! k = None → is_Some (disk' !! k) → is_temporary env k)
  ∧ (∀ k c, disk !! k = Some c → is_upload k = true → disk' !! k = Some c).
Proof.
  intros Htok Hun. unfold validate_and_copy.
  assert (Hsame : Some (disk, @Raise report e) = Some (disk', Raise e) →
     (∀ k, disk !! k = None → is_Some (disk' !! k) → is_temporary env k)
     ∧ (∀ k c, disk !! k = Some c → is_upload k = true → disk' !! k = Some c)).
  { intros [= <-]. split; [|done]. intros k -> [c Hc]. discriminate. }
  repeat case_match; try done; try (intros [= <- <-]; by apply Hsame);
    try (intros [= <- <-]; by eapply copy_with_rollback_raises).
  all: exfalso.
  all: repeat match goal with
       | H : negb _ = false |- _ => apply negb_false_iff in H
       | H : _ || _ = false |- _ => apply orb_false_iff in H as [? ?]
       end.
  all: repeat match goal with
       | H : bool_decide (_ ∈ _) = true |- _ => apply bool_decide_eq_true in H
       end.
  all: repeat match goal with
       | H : choose_destination _ _ _ _ = Some _ |- _ =>
           apply chosen_upload in H; [|set_solver]
       end.
  all: match goal with
       | H : copy_with_rollback _ _ _ _ _ = (_, Ok _) |- _ =>
           apply copy_with_rollback_returns in H as (Hpdf & Hcov & Hlast); try done
       end.
  all: unfold stat_size in *; cbn [snd] in *;
    destruct Hpdf as [? Hpdf], Hcov as [? Hcov], Hlast as [? Hlast];
    rewrite ?Hpdf, ?Hcov, ?Hlast in *; discriminate.
Qed.

End Copier.

(** *** Worked instances *)

(** Stand-ins for the digest and for the two string functions *)
Definition demo_sha256 (bytes : string) : string := "sha256:" +:+ bytes.
Definition demo_secure_filename (name : string) : string := name.
Definition demo_strip (text : string) : string := text.

Definition demo_pdf : source :=
  mkSource ".pdf" (Some "%PDF-1.7 thesis %%EOF").

Definition demo_jpeg (body : string) : source :=
  mkSource ".jpg" (Some (jpeg_magic +:+ body)).

(** An environment where the copy of the cover fails while it is being
    written, and everything else succeeds *)
Definition failing_cover : Env :=
  mkEnv (λ dst, if bool_decide (dst = (IMAGES_DIR, "s1_c1_cover.jpg"))
                then CopyFailsWriting "part" else CopyOk)
        (λ _, WriteOk) (λ _, false) (λ _, "0f3a").

(** A disk that holds an earlier upload with its sidecar *)
Definition earlier_uploads : Disk :=
  {[ (THESIS_DIR, "s0_c0.pdf") := "%PDF-1.7 earlier %%EOF";
     (THESIS_DIR, "s0_c0.pdf.sha256") := "sha256:%PDF-1.7 earlier %%EOF" ]}.

Lemma failing_cover_tokens (d : fpath) : is_upload (tmp_path failing_cover d) = false.
Proof.
  unfold is_upload, tmp_path. cbn [snd uuid_hex failing_cover].
  rewrite !(ends_with_app _ "."), !(ends_with_app _ d.2); [done|..];
    rewrite ?string_app_length; cbn; lia.
Qed.

(** The disk after the failed call on [earlier_uploads]: the temporary
    file of the failed copy is all that was added. *)
Definition after_failed_cover : Disk :=
  <[ (IMAGES_DIR, ".s1_c1_cover.jpg.tmp.0f3a") := "part"%string ]> earlier_uploads.

Lemma validate_and_copy_rolls_back_witness :
  validate_and_copy demo_sha256 demo_secure_filename demo_strip failing_cover
    demo_pdf (demo_jpeg "cover") (demo_jpeg "last") "s1_c1" true
    PDF_MAX_BYTES IMG_MAX_BYTES earlier_uploads
  = Some (after_failed_cover, Raise OSError)
  ∧ (∀ k, earlier_uploads !! k = None → is_Some (after_failed_cover !! k) →
          is_temporary failing_cover k)
  ∧ (∀ k c, earlier_uploads !! k = Some c → is_upload k = true →
            after_failed_cover !! k = Some c).
Proof.
  assert (Hrun :
    validate_and_copy demo_sha256 demo_secure_filename demo_strip failing_cover
      demo_pdf (demo_jpeg "cover") (demo_jpeg "last") "s1_c1" true
      PDF_MAX_BYTES IMG_MAX_BYTES earlier_uploads
    = Some (after_failed_cover, Raise OSError)) by (vm_compute; reflexivity).
  split; [exact Hrun|].
  exact (validate_and_copy_rolls_back demo_sha256 demo_secure_filename demo_strip
           failing_cover demo_pdf (demo_jpeg "cover") (demo_jpeg "last") "s1_c1" true
           PDF_MAX_BYTES IMG_MAX_BYTES earlier_uploads after_failed_cover OSError
           failing_cover_tokens (λ _, eq_refl) Hrun).
Defined.

(** C10 as the specification words it fails. On empty destination
    directories the copy of the cover fails after the PDF was copied: the
    call raises, the PDF and its sidecar are rolled back, and the
    temporary file of the failed copy stays in the images directory. The
    failed call has left a new file there. *)
Lemma validate_and_copy_leaves_temporary_file :
  validate_and_copy demo_sha256 demo_secure_filename demo_strip failing_cover
    demo_pdf (demo_jpeg "cover") (demo_jpeg "last") "s1_c1" true
    PDF_MAX_BYTES IMG_MAX_BYTES ∅
  = Some ({[ (IMAGES_DIR, ".s1_c1_cover.jpg.tmp.0f3a") := "part"%string ]},
          Raise OSError)
  ∧ ¬ (∀ k, (∅ : Disk) !! k = None →
            ({[ (IMAGES_DIR, ".s1_c1_cover.jpg.tmp.0f3a") := "part"%string ]} : Disk)
              !! k = None).
Proof.
  split; [vm_compute; reflexivity|].
  intros Hnone.
  specialize (Hnone (IMAGES_DIR, ".s1_c1_cover.jpg.tmp.0f3a"%string) (lookup_empty _)).
  by rewrite lookup_singleton_eq in Hnone.
Qed.

End Files.

(** ** Induction on JSON values

    [json] is nested through finite maps, so the properties of the
    recursive [_deep_merge] of [core/repo.py] go by induction on the size
    of a value. *)

Module JsonInd.
Import Json.

(** The number of constructors of a value *)
Fixpoint json_size (v : json) : nat :=
  match v with
  | JArr l => S ((fix go (l : list json) : nat :=
                    match l with
                    | [] => O
                    | x :: l' => (json_size x + go l')%nat
                    end) l)
  | JObj d => S (map_fold (λ _ x acc, (json_size x + acc)%nat) O d)
  | _ => 1%nat
  end.

Lemma json_size_lookup (d : gmap string json) k v :
  d !! k = Some v → (json_size v < json_size (JObj d))%nat.
Proof.
  intros Hk. cbn [json_size].
  rewrite (map_fold_delete_L _ _ k v d); [lia| |done].
  intros. lia.
Qed.

(** Induction on a value, through the fields of a dict *)
Lemma json_fields_ind (P : json → Prop) :
  (∀ v, is_obj v = false → P v) →
  (∀ d, (∀ k v, d !! k = Some v → P v) → P (JObj d)) →
  ∀ v, P v.
Proof.
  intros Hleaf Hobj v.
  remember (json_size v) as n eqn:Hn. revert v Hn.
  induction (lt_wf n) as [n _ IH]. intros v ->.
  destruct v; try by apply Hleaf.
  apply Hobj. intros k v Hk. apply (IH (json_size v)); [|done].
  by eapply json_size_lookup.
Qed.

Lemma merge_value_leaf v cur : is_obj v = false → merge_value v cur = v.
Proof. by destruct v, cur as [[]|]. Qed.

(** Merging the same incoming value twice changes nothing more, and a
    value merged into itself is itself. *)
Lemma merge_value_absorbs v :
  merge_value v (Some v) = v
  ∧ ∀ cur, merge_value v (Some (merge_value v cur)) = merge_value v cur.
Proof.
  induction v as [v Hv|inc IH] using json_fields_ind.
  - split; [|intros cur]; by rewrite !merge_value_leaf.
  - assert (Hself : merge_value (JObj inc) (Some (JObj inc)) = JObj inc).
    { cbn [merge_value]. f_equal. apply map_eq. intros k. rewrite lookup_merge.
      destruct (inc !! k) as [vi|] eqn:Hk; [|done]. simpl.
      f_equal. by apply (IH k vi). }
    split; [done|]. intros [[| | | | | |ex]|]; try done.
    cbn [merge_value]. f_equal. apply map_eq. intros k. rewrite !lookup_merge.
    destruct (inc !! k) as [vi|] eqn:Hk; simpl.
    + destruct (ex !! k) as [ve|] eqn:He; simpl; f_equal.
      * by apply (IH k vi).
      * by apply (IH k vi).
    + by destruct (ex !! k).
Qed.

Lemma deep_merge_lookup' (existing incoming : gmap string json) k :
  _deep_merge existing incoming !! k
  = match incoming !! k with
    | Some v => Some (merge_value v (existing !! k))
    | None => existing !! k
    end.
Proof.
  unfold _deep_merge. rewrite lookup_merge.
  by destruct (incoming !! k), (existing !! k).
Qed.

Lemma deep_merge_self (d : gmap string json) : _deep_merge d d = d.
Proof.
  apply map_eq. intros k. rewrite deep_merge_lookup'.
  destruct (d !! k) as [v|]; [|done]. f_equal. apply merge_value_absorbs.
Qed.

Lemma deep_merge_twice (existing incoming : gmap string json) :
  _deep_merge (_deep_merge existing incoming) incoming = _deep_merge existing incoming.
Proof.
  apply map_eq. intros k. rewrite !deep_merge_lookup'.
  destruct (incoming !! k) as [v|]; [|done]. f_equal. apply merge_value_absorbs.
Qed.

(** X1. [_deep_merge] never drops a key, is the identity against an
    empty dict on either side, and is idempotent: merging a dict into
    itself gives that dict, and merging the same incoming dict a second
    time changes nothing more. *)
Theorem deep_merge_idempotent (existing incoming : gmap string json) :
  dom (_deep_merge existing incoming) = dom existing ∪ dom incoming
  ∧ _deep_merge existing ∅ = existing
  ∧ _deep_merge ∅ incoming = incoming
  ∧ _deep_merge incoming incoming = incoming
  ∧ _deep_merge (_deep_merge existing incoming) incoming
    = _deep_merge existing incoming.
Proof.
  split; [|split; [|split; [|split]]].
  - apply set_eq. intros k. rewrite elem_of_union, !elem_of_dom, deep_merge_lookup'.
    destruct (incoming !! k), (existing !! k); split; eauto; intros [[]|[]]; eauto.
  - apply map_eq. intros k. by rewrite deep_merge_lookup', lookup_empty.
  - apply map_eq. intros k. rewrite deep_merge_lookup', lookup_empty.
    destruct (incoming !! k) as [v|]; [|done]. f_equal. by destruct v.
  - apply deep_merge_self.
  - apply deep_merge_twice.
Qed.

End JsonInd.

(** ** More of the repository layer

    The operations of [core/repo.py] built on the lock, the backup
    rotation and [update_atomic], and how they compose. *)

Module RepoOps.
Import Json Repo JsonInd.

Section Operations.

Context {text : Type}.
Variable dumps : json → text.
Variable loads : text → option json.
Hypothesis loads_dumps : ∀ data, loads (dumps data) = Some data.

Local Notation read_json := (Repo.read_json loads).
Local Notation write_json := (Repo.write_json dumps).
Local Notation update_atomic := (Repo.update_atomic dumps loads).
Local Notation recovered := (Repo.recovered loads).
Local Notation committed := (Repo.committed dumps loads).

(** [append_json(path, obj)]: its transform appends to the list it was
    given, or returns a new one-element list when the content is not a
    list. *)
Definition append_json_fn (obj : json) : @transform text :=
  λ data _,
    match data with
    | JArr l => ReturnsArg (JArr (l ++ [obj]))
    | _ => ReturnsObj data (JArr [obj])
    end.

Definition append_json (p : Path) (obj : json) : M json :=
  update_atomic p (Some (append_json_fn obj)).

(** [str(x)] and [_now_iso] (the clock printed as ISO-8601) are library
    code. *)
Variable py_str : json → string.
Variable _now_iso : Z → string.

Local Notation upsert_thesis := (Repo.upsert_thesis dumps loads py_str).
Local Notation "x <- m ;; k" := (bind m (λ x, k))
  (at level 100, m at next level, right associativity).
Local Notation "m ;;; k" := (bind m (λ _, k))
  (at level 100, right associativity).

(** The loop of [find_thesis]: the first record with the key, or [None] *)
Fixpoint find_record (sc cid : json) (theses : list json) : result json :=
  match theses with
  | [] => Ok JNull
  | JObj th :: rest =>
      if py_eq (py_get th "student_code") sc && py_eq (py_get th "course_id") cid
      then Ok (JObj th)
      else find_record sc cid rest
  | _ :: _ => Raise AttributeError
  end.

(** The same loop over a decoded value that need not be a list: a [dict]
    yields its keys and a [str] its characters, none of which has [get]. *)
Definition find_in (sc cid : json) (data : json) : result json :=
  match data with
  | JArr l => find_record sc cid l
  | JObj d =>
      if bool_decide (d = ∅ :> gmap string json) then Ok JNull else Raise AttributeError
  | JStr s => if bool_decide (s = ""%string) then Ok JNull else Raise AttributeError
  | _ => Raise TypeError
  end.

(** [find_thesis(student_code, course_id)] *)
Definition find_thesis (student_code course_id : string) : M json :=
  theses <- read_json THESIS_F ;;
  lift (find_in (JStr student_code) (JStr course_id) theses).

(** The [for i, th in enumerate(theses)] loop of [add_thesis_metadata]:
    the index of the first record with the key, and that record *)
Fixpoint index_of_key (sc cid : json) (theses : list json) :
    result (option (nat * gmap string json)) :=
  match theses with
  | [] => Ok None
  | JObj th :: rest =>
      if py_eq (py_get th "student_code") sc && py_eq (py_get th "course_id") cid
      then Ok (Some (O, th))
      else
        found <~ index_of_key sc cid rest ;;
        Ok (prod_map S id <$> found)
  | _ :: _ => Raise AttributeError
  end.

(** The record created when the thesis is missing *)
Definition pending_thesis (student_code course_id : string) (now : Z) :
    gmap string json :=
  {[ "student_code" := JStr student_code;
     "course_id" := JStr course_id;
     "request_date" := JStr (_now_iso now);
     "approval_date" := JNull;
     "status" := JStr "pending" ]}.

(** [th["abstract"] = abstract; th["keywords"] = list(keywords)] *)
Definition with_metadata (abstract : string) (keywords : list string)
    (th : gmap string json) : gmap string json :=
  <["keywords" := JArr (JStr <$> keywords)]> (<["abstract" := JStr abstract]> th).

(** The transform [_fn] of [add_thesis_metadata] *)
Definition add_thesis_metadata_fn (student_code course_id abstract : string)
    (keywords : list string) : @transform text :=
  λ data w,
    let theses := match data with JArr l => l | _ => [] end in
    match index_of_key (JStr student_code) (JStr course_id) theses with
    | Raise e => Raises e
    | Ok found =>
        let theses' :=
          match found with
          | Some (idx, th) => <[idx := JObj (with_metadata abstract keywords th)]> theses
          | None =>
              theses ++ [JObj (with_metadata abstract keywords
                                 (pending_thesis student_code course_id (clock w)))]
          end in
        match data with
        | JArr _ => ReturnsArg (JArr theses')
        | _ => ReturnsObj data (JArr theses')
        end
    end.

(** [add_thesis_metadata(student_code, course_id, abstract, keywords)] *)
Definition add_thesis_metadata (student_code course_id abstract : string)
    (keywords : list string) : M json :=
  update_atomic THESIS_F
    (Some (add_thesis_metadata_fn student_code course_id abstract keywords)) ;;;
  _audit_log "ADD_THESIS_METADATA" "repo" (student_code +:+ "/" +:+ course_id) ;;;
  find_thesis student_code course_id.

(** [str.lower] is library code. *)
Variable py_lower : string → string.

Local Notation _normalize_judges := (Repo._normalize_judges py_str py_lower).
Local Notation _append_to_notif_list := (Repo._append_to_notif_list dumps loads).

(** [core.security.hash_password] (bcrypt) is library code, and so is the
    grammar of the strings that [int] accepts. *)
Variable hash_password : string → string.
Variable int_literal : string → bool.

(** Whether [int(x)] returns, for a decoded value [x]: it raises on [None],
    lists and dicts, on a float that is not finite and on a string that is
    no integer literal. *)
Definition int_returns (x : json) : bool :=
  match x with
  | JInt _ | JBool _ => true
  | JFloat f => negb (PrimFloat.is_nan f || PrimFloat.is_infinity f)
  | JStr s => int_literal s
  | _ => false
  end.

(** [validate_teacher(rec)] *)
Definition validate_teacher (rec : gmap string json) : result (bool * string) :=
  let ok := is_str (default (JStr "") (rec !! "name"))
            && is_str (default (JStr "") (rec !! "teacher_code")) in
  let ok := ok && is_str (default (JStr "") (rec !! "password_hash")) in
  if negb (int_returns (default (JInt 5) (rec !! "capacity_supervise"))
           && int_returns (default (JInt 10) (rec !! "capacity_judge")))
  then Ok (false, "capacity_supervise/judge must be numeric"%string)
  else
    let email := default (JStr "") (rec !! "email") in
    if truthy email then
      good <~ _is_email email ;;
      if negb good then Ok (false, "Invalid teacher email"%string) else Ok (ok, "OK"%string)
    else Ok (ok, "OK"%string).

(** The record [register_teacher] builds; the capacities are Python ints. *)
Definition teacher_record (name teacher_code password : string)
    (email : option string) (capacity_supervise capacity_judge : Z) (now : Z) :
    gmap string json :=
  {[ "name" := JStr name;
     "teacher_code" := JStr teacher_code;
     "password_hash" := JStr (hash_password password);
     "email" := JStr (default "" email);
     "capacity_supervise" := JInt capacity_supervise;
     "capacity_judge" := JInt capacity_judge;
     "created_at" := JStr (_now_iso now);
     "active" := JBool true ]}.

(** The transform [_fn] of [register_teacher] *)
Definition register_teacher_fn (name teacher_code password : string)
    (email : option string) (capacity_supervise capacity_judge : Z) : @transform text :=
  λ data w,
    let teachers := match data with JArr l => l | _ => [] end in
    match any_field_eq "teacher_code" (JStr teacher_code) teachers with
    | Raise e => Raises e
    | Ok true => Raises (ValueError "teacher_code already exists")
    | Ok false =>
        let rec := teacher_record name teacher_code password email
                     capacity_supervise capacity_judge (clock w) in
        match validate_teacher rec with
        | Raise e => Raises e
        | Ok (false, msg) => Raises (ValueError ("Invalid teacher record: " +:+ msg))
        | Ok (true, _) =>
            match data with
            | JArr l => ReturnsArg (JArr (l ++ [JObj rec]))
            | _ => ReturnsObj data (JArr [JObj rec])
            end
        end
    end.

(** [register_teacher(name, teacher_code, password, email,
    capacity_supervise, capacity_judge)] *)
Definition register_teacher (name teacher_code password : string)
    (email : option string) (capacity_supervise capacity_judge : Z) : M json :=
  update_atomic TEACHERS_F
    (Some (register_teacher_fn name teacher_code password email
             capacity_supervise capacity_judge)) ;;;
  _audit_log "REGISTER_TEACHER" "repo" teacher_code ;;;
  teachers <- read_json TEACHERS_F ;;
  lift (scan_for_field "teacher_code" (JStr teacher_code) teachers).

(** [round(x, 2)] and the record that [core.notifications.emit] builds
    are library or out-of-core code. *)
Variable py_round2 : float → float.
Variable notification_record : string → json → Z → json.

Local Notation archive_defense :=
  (Repo.archive_defense dumps loads _now_iso py_str py_lower py_round2 notification_record).

(** [_ensure_file(path, default)] *)
Definition _ensure_file (p : Path) (default : json) (w : @World text) : World :=
  match files w !! p with
  | Some _ => w
  | None => _atomic_write_text p (dumps default) w
  end.

(** [_DEFAULTS.items()], in the order of the dict literal *)
Definition defaults_items : list (Path * json) :=
  [ (STUDENTS_F, JArr []); (TEACHERS_F, JArr []); (COURSES_F, JArr []);
    (THESIS_F, JArr []); (DEFENDED_F, JArr []); (NOTIF_F, JArr []) ].

(** [for p, default in _DEFAULTS.items(): _ensure_file(p, default)] *)
Definition bootstrap (w : @World text) : World :=
  foldl (λ w pd, _ensure_file pd.1 pd.2 w) w defaults_items.

(** *** The lock *)

(** The number of polls a held lock is given before the timeout *)
Definition polls_until (timeout : Z) : nat :=
  Z.to_nat (timeout `div` LOCK_SLEEP_SEC + 1).

Lemma polls_until_spec timeout :
  0 ≤ timeout →
  LOCK_SLEEP_SEC * (Z.of_nat (polls_until timeout) - 1) ≤ timeout
  < LOCK_SLEEP_SEC * Z.of_nat (polls_until timeout).
Proof.
  intros Hpos. unfold polls_until, LOCK_SLEEP_SEC.
  pose proof (Z.div_mod timeout 50 ltac:(done)).
  pose proof (Z.mod_pos_bound timeout 50 ltac:(done)).
  assert (0 ≤ timeout `div` 50) by (apply Z.div_pos; lia).
  rewrite Z2Nat.id by lia. lia.
Qed.

(** X2. The lock is not reentrant: once [_acquire_lock] has returned the
    lock of a resource, a second acquisition of it that starts before the
    marker can become stale only sleeps and raises [TimeoutError]; so a
    [write_json] or an [update_atomic] of the resource made while the lock
    is held raises, without reading or changing any file or backup. *)
Theorem acquire_lock_not_reentrant p timeout w w1 lk :
  _acquire_lock p timeout w = (w1, Ok lk) →
  ∀ timeout', 0 ≤ timeout' → timeout' + LOCK_SLEEP_SEC ≤ STALE_LOCK_SEC →
  ∃ w2 n, _acquire_lock p timeout' w1 = (w2, Raise (TimeoutError p))
    ∧ trace w2 = replicate n EvSleep ++ trace w1
    ∧ files w2 = files w ∧ snapshots w2 = snapshots w ∧ markers w2 = markers w1
    ∧ (timeout' = LOCK_TIMEOUT_SEC →
       (∀ data, write_json p data w1 = (w2, Raise (TimeoutError p)))
       ∧ (∀ fn, update_atomic p fn w1 = (w2, Raise (TimeoutError p)))).
Proof.
  intros Hacq timeout' Hpos Hfresh.
  destruct (acquire_lock_frame _ _ _ _ _ Hacq) as (Hf & Hs & _ & _ & _ & Hm).
  pose proof (polls_until_spec timeout' Hpos) as Hn.
  set (n := polls_until timeout') in *.
  assert (Hagain : _acquire_lock p timeout' w1 = (sleeps n w1, Raise (TimeoutError p))).
  { unfold _acquire_lock. apply (acquire_from_held _ _ _ (clock w1)).
    - rewrite Hm. apply lookup_insert_eq.
    - unfold LOCK_SLEEP_SEC, STALE_LOCK_SEC in *. lia.
    - lia.
    - left. lia. }
  destruct (sleeps_frame n w1) as (Hf' & Hm' & Hs' & Ht').
  exists (sleeps n w1), n. split; [done|]. split; [done|].
  split; [congruence|]. split; [congruence|]. split; [done|].
  intros ->. split.
  - intros data. unfold Repo.write_json, bind. by rewrite Hagain.
  - intros fn. unfold Repo.update_atomic, bind. by rewrite Hagain.
Qed.

(** X3. The lock has no owner: when a holder has kept the lock longer
    than the staleness threshold and a second process has taken the marker
    over, the release by the first holder removes the marker of the
    second, and a third acquisition succeeds at once although the second
    holder has not released. *)
Theorem release_lock_frees_takeover p timeout (w w1 : @World text) lk delay :
  _acquire_lock p timeout w = (w1, Ok lk) →
  STALE_LOCK_SEC < delay →
  ∃ w2, _acquire_lock p timeout (pass delay w1) = (w2, Ok lk)
    ∧ markers w2 !! _lock_path p = Some (clock w1 + delay)
    ∧ markers (_release_lock lk w2) !! _lock_path p = None
    ∧ ∃ w3, _acquire_lock p timeout (_release_lock lk w2) = (w3, Ok lk)
        ∧ trace w3 = [EvLockCreate (_lock_path p); EvLockUnlink (_lock_path p);
                      EvLockCreate (_lock_path p); EvLockUnlink (_lock_path p)]
                     ++ trace w1.
Proof.
  intros Hacq Hstale.
  destruct (acquire_lock_frame _ _ _ _ _ Hacq) as (_ & _ & _ & _ & -> & Hm).
  assert (Htake : _acquire_lock p timeout (pass delay w1)
    = (log (EvLockCreate (_lock_path p))
         (set_markers (<[_lock_path p := clock w1 + delay]> (markers w1))
            (log (EvLockUnlink (_lock_path p)) (pass delay w1))),
       Ok (mk_Lock (_lock_path p) true))).
  { unfold _acquire_lock.
    rewrite acquire_from_step. unfold poll_once at 1. simpl.
    rewrite Hm, lookup_insert_eq.
    rewrite (proj2 (Z.ltb_lt _ _)) by lia.
    rewrite acquire_from_step. unfold poll_once. simpl.
    rewrite lookup_delete_eq. simpl. by rewrite insert_delete_eq. }
  eexists. split; [exact Htake|]. split; [simpl; apply lookup_insert_eq|].
  destruct (release_lock_frame p
              (log (EvLockCreate (_lock_path p))
                 (set_markers (<[_lock_path p := clock w1 + delay]> (markers w1))
                    (log (EvLockUnlink (_lock_path p)) (pass delay w1)))))
    as (_ & _ & _ & Hm' & _).
  split; [rewrite Hm'; apply lookup_delete_eq|].
  eexists. split.
  - apply acquire_lock_free. rewrite Hm'. apply lookup_delete_eq.
  - unfold _release_lock. simpl. rewrite lookup_insert_eq.
    rewrite bool_decide_true by eauto. done.
Qed.

(** *** Backups *)

(** [_rotate_backup] of an existing file: the content is filed under the
    current second, then all but the [BACKUP_RETAIN_PER_FILE] newest slots
    of the resource are unlinked. *)
Lemma rotate_backup_newest p (w : @World text) cur :
  files w !! p = Some cur →
  let w1 := set_snapshots (<[(stem p, clock w `div` 1000) := cur]> (snapshots w)) w in
  slots (stem p) (_rotate_backup p w) = take BACKUP_RETAIN_PER_FILE (slots (stem p) w1)
  ∧ ∀ st ts, snapshots (_rotate_backup p w) !! (st, ts)
             = if decide (st = stem p
                          ∧ ts ∈ drop BACKUP_RETAIN_PER_FILE (slots (stem p) w1))
               then None else snapshots w1 !! (st, ts).
Proof.
  intros Hcur w1. unfold _rotate_backup. rewrite Hcur.
  rewrite bool_decide_true by (unfold BACKUP_RETAIN_PER_FILE; lia).
  set (w1' := log _ (set_snapshots _ w)).
  fold (slots (stem p) w1'). rewrite (slots_ext (stem p) w1' w1) by done.
  match goal with |- context [foldl _ w1' ?olds] =>
    destruct (prune_frame (stem p) olds w1') as (_ & _ & _ & Hs & _) end.
  cbv zeta in Hs.
  assert (Hlook : ∀ st ts,
    snapshots (foldl (λ w' old, unlink_snapshot (stem p) old w') w1'
                 (drop BACKUP_RETAIN_PER_FILE (slots (stem p) w1))) !! (st, ts)
    = if decide (st = stem p ∧ ts ∈ drop BACKUP_RETAIN_PER_FILE (slots (stem p) w1))
      then None else snapshots w1 !! (st, ts)).
  { intros st ts. rewrite Hs, lookup_pruned. done. }
  split; [|done].
  pose proof (slots_NoDup (stem p) w1) as Hnd.
  rewrite <- (take_drop BACKUP_RETAIN_PER_FILE (slots (stem p) w1)) in Hnd.
  apply NoDup_app in Hnd as (Hnd1 & Hnd2 & _).
  apply slots_unique.
  - apply StronglySorted_take, slots_sorted.
  - done.
  - intros ts. rewrite Hlook. case_decide as Hd.
    + split; [intros Ht; by destruct (Hnd2 ts Ht) as []; apply Hd|by intros []].
    + rewrite <- (slots_elem (stem p) w1).
      rewrite <- (take_drop BACKUP_RETAIN_PER_FILE (slots (stem p) w1)) at 2.
      rewrite elem_of_app. split; [by left|]. intros [?|?]; [done|].
      by destruct Hd.
Qed.

(** What a returning [write_json] has done *)
Lemma write_json_run p data (w w' : @World text) :
  write_json p data w = (w', Ok tt) →
  ∃ w1, _acquire_lock p LOCK_TIMEOUT_SEC w = (w1, Ok (mk_Lock (_lock_path p) true))
    ∧ files w1 = files w ∧ snapshots w1 = snapshots w
    ∧ files w' = <[p := dumps data]> (files w)
    ∧ snapshots w' = snapshots (_rotate_backup p w1)
    ∧ markers w' !! _lock_path p = None.
Proof.
  unfold Repo.write_json, bind at 1.
  destruct (_acquire_lock p LOCK_TIMEOUT_SEC w) as [w1 [lk|e]] eqn:Hacq; [|done].
  destruct (acquire_lock_frame _ _ _ _ _ Hacq) as (Hf & Hs & _ & _ & -> & Hm).
  unfold finally, bind, effect. intros [= <-].
  destruct (release_lock_frame p (_atomic_write_text p (dumps data) (_rotate_backup p w1)))
    as (Hf' & Hs' & _ & Hm' & _).
  destruct (rotate_backup_frame p w1) as (Hf'' & _).
  exists w1. split; [done|]. split; [done|]. split; [done|]. split; [|split].
  - rewrite Hf'. simpl. by rewrite Hf'', Hf.
  - by rewrite Hs'.
  - rewrite Hm'. apply lookup_delete_eq.
Qed.

(** X4. Retention is a bound in every case: after a returning
    [write_json] to an existing file, however many snapshots of the
    resource there were and whenever they were taken, at most
    [BACKUP_RETAIN_PER_FILE] remain; a snapshot that was removed is not
    newer than any that was kept, and the snapshots of the other
    resources are as they were. *)
Theorem write_json_prunes_to_retention p data (w w' : @World text) :
  write_json p data w = (w', Ok tt) →
  is_Some (files w !! p) →
  (length (slots (stem p) w') ≤ BACKUP_RETAIN_PER_FILE)%nat
  ∧ (∀ kept gone, kept ∈ slots (stem p) w' →
       is_Some (snapshots w !! (stem p, gone)) → gone ∉ slots (stem p) w' →
       gone ≤ kept)
  ∧ (∀ st ts, st ≠ stem p → snapshots w' !! (st, ts) = snapshots w !! (st, ts)).
Proof.
  intros Hrun [cur Hcur].
  destruct (write_json_run _ _ _ _ Hrun) as (w1 & _ & Hf1 & Hs1 & _ & Hs' & _).
  rewrite <- Hf1 in Hcur.
  destruct (rotate_backup_newest p w1 cur Hcur) as [Hslots Hlook].
  set (wi := set_snapshots (<[(stem p, clock w1 `div` 1000) := cur]> (snapshots w1)) w1)
    in *.
  rewrite (slots_ext (stem p) w' (_rotate_backup p w1)) by done.
  rewrite Hslots. split; [|split].
  - rewrite length_take. lia.
  - intros kept gone Hkept Hgone Hnot.
    assert (Hin : gone ∈ slots (stem p) wi).
    { apply slots_elem. unfold wi. simpl. rewrite lookup_insert_is_Some'.
      right. by rewrite Hs1. }
    rewrite <- (take_drop BACKUP_RETAIN_PER_FILE (slots (stem p) wi)) in Hin.
    apply elem_of_app in Hin as [?|Hin]; [done|].
    pose proof (slots_sorted (stem p) wi) as Hsorted.
    rewrite <- (take_drop BACKUP_RETAIN_PER_FILE (slots (stem p) wi)) in Hsorted.
    exact (StronglySorted_app_1_elem_of _ _ _ _ _ Hsorted Hkept Hin).
  - intros st ts Hst. rewrite Hs', Hlook.
    rewrite decide_False by (by intros [? _]).
    unfold wi. simpl. rewrite lookup_insert_ne by (by intros [= ? _]).
    by rewrite Hs1.
Qed.

(** A list sorted newest first begins with its newest element. *)
Lemma newest_first_head (l : list Z) m :
  StronglySorted newer_first l → m ∈ l → (∀ x, x ∈ l → x ≤ m) →
  ∃ rest, l = m :: rest.
Proof.
  intros Hsorted Hin Hmax. destruct l as [|h rest]; [by apply elem_of_nil in Hin|].
  exists rest. f_equal.
  apply elem_of_cons in Hin as [->|Hin]; [done|].
  apply StronglySorted_inv in Hsorted as [_ Hh].
  rewrite Forall_forall in Hh. specialize (Hh _ Hin). unfold newer_first in Hh.
  specialize (Hmax h ltac:(left)). lia.
Qed.

(** X5. The state before the last write survives the loss of the primary
    file: [write_json] files the content it replaces under the current
    second, and when the primary file is then lost or damaged, [read_json]
    returns that previous content. *)
Theorem write_json_then_corruption p data (w w' : @World text) cur v :
  markers w !! _lock_path p = None →
  files w !! p = Some cur → loads cur = Some v →
  (∀ ts, is_Some (snapshots w !! (stem p, ts)) → ts ≤ clock w `div` 1000) →
  write_json p data w = (w', Ok tt) →
  snapshots w' !! (stem p, clock w `div` 1000) = Some cur
  ∧ ∀ w'', snapshots w'' = snapshots w' → files w'' !! p ≫= loads = None →
           ∃ w3, read_json p w'' = (w3, Ok v).
Proof.
  intros Hfree Hcur Hv Hold Hrun.
  destruct (write_json_run _ _ _ _ Hrun) as (w1 & Hacq & Hf1 & Hs1 & _ & Hs' & _).
  rewrite acquire_lock_free in Hacq by done. injection Hacq as <-.
  set (wb := log _ (set_markers _ w)) in *.
  change (files wb) with (files w) in *. change (snapshots wb) with (snapshots w) in *.
  destruct (rotate_backup_newest p wb cur Hcur) as [Hslots Hlook].
  change (clock wb) with (clock w) in *.
  set (now := clock w `div` 1000) in *.
  set (wi := set_snapshots (<[(stem p, now) := cur]> (snapshots wb)) wb) in *.
  assert (Hmax : ∀ ts, ts ∈ slots (stem p) wi → ts ≤ now).
  { intros ts Hts%slots_elem. unfold wi in Hts. simpl in Hts.
    apply lookup_insert_is_Some' in Hts as [[= <-]|Hts]; [done|by apply Hold]. }
  assert (Hnow : now ∈ slots (stem p) wi).
  { apply slots_elem. unfold wi. simpl. rewrite lookup_insert_eq. by eexists. }
  destruct (newest_first_head _ _ (slots_sorted (stem p) wi) Hnow Hmax) as [rest Hrest].
  assert (Hkept : snapshots w' !! (stem p, now) = Some cur).
  { rewrite Hs', Hlook, Hrest. rewrite decide_False.
    - unfold wi. simpl. apply lookup_insert_eq.
    - intros [_ Hin]. pose proof (slots_NoDup (stem p) wi) as Hnd.
      rewrite Hrest in Hnd. apply NoDup_cons in Hnd as [Hnd _].
      apply Hnd. change (drop BACKUP_RETAIN_PER_FILE (now :: rest)) with (drop 9 rest) in Hin.
      by apply (subseteq_drop 9 rest). }
  split; [done|]. intros w'' Hs'' Hbad.
  destruct (read_json_spec loads p w'') as (w3 & Hread & _).
  exists w3. rewrite Hread. do 2 f_equal.
  unfold Repo.recovered. rewrite Hbad.
  rewrite (first_loadable_newest loads (stem p) w'' now cur v); [done| | | |done|].
  - apply slots_sorted.
  - apply slots_elem. rewrite Hs'', Hkept. by eexists.
  - by rewrite Hs''.
  - intros ts' t' Hlt Hts'. exfalso.
    rewrite Hs'', Hs', Hlook in Hts'. case_decide; [done|].
    assert (ts' ≤ now); [|lia]. apply Hmax, slots_elem. by eexists.
Qed.

(** *** The transactional update *)

(** [update_atomic] with the lock free: what the transform is given, what
    is stored and what is returned *)
Lemma update_atomic_run p (f : transform) (w : @World text) :
  markers w !! _lock_path p = None →
  ∃ w2, clock w2 = clock w ∧ files w2 = files w ∧ snapshots w2 = snapshots w
    ∧ match f (recovered p w) w2 with
      | Raises e =>
          ∃ w', update_atomic p (Some f) w = (w', Raise e)
            ∧ files w' = files w ∧ snapshots w' = snapshots w
      | ReturnsArg data' =>
          ∃ w', update_atomic p (Some f) w = (w', Ok data') ∧ committed p data' w w'
      | ReturnsObj data' out =>
          ∃ w', update_atomic p (Some f) w = (w', Ok out)
            ∧ committed p (if is_null out then data' else out) w w'
      end.
Proof.
  intros Hfree.
  destruct (update_atomic_spec dumps loads loads_dumps p f w) as (w1 & r & Hacq & Hr).
  rewrite acquire_lock_free in Hacq by done. injection Hacq as <- <-.
  destruct Hr as (w2 & (_ & _ & _ & Hc) & Hf & Hs & Hr).
  exists w2. split; [done|]. split; [done|]. split; [done|].
  by destruct (f (recovered p w) w2).
Qed.

(** X6. [append_json] appends to the list that [read_json] returns and
    returns the new list; content that is not a list is replaced by the
    one-element list. The file then holds the new list and the lock is
    free. *)
Theorem append_json_appends p obj (w : @World text) :
  markers w !! _lock_path p = None →
  let new := JArr (as_list (recovered p w) ++ [obj]) in
  ∃ w', append_json p obj w = (w', Ok new)
    ∧ files w' = <[p := dumps new]> (files w)
    ∧ markers w' !! _lock_path p = None
    ∧ ∃ w'', read_json p w' = (w'', Ok new).
Proof.
  intros Hfree new.
  destruct (update_atomic_run p (append_json_fn obj) w Hfree) as (w2 & _ & _ & _ & Hr).
  assert (Hdone : ∃ w', append_json p obj w = (w', Ok new) ∧ committed p new w w').
  { unfold append_json, new, append_json_fn in *.
    destruct (recovered p w); simpl in *; destruct Hr as (w' & ? & ?); by exists w'. }
  destruct Hdone as (w' & Hrun & Hf & Hm & Hrec).
  exists w'. split; [done|]. split; [done|]. split; [done|].
  destruct (read_json_spec loads p w') as (w'' & Hread & _).
  exists w''. by rewrite Hread, Hrec.
Qed.


(** *** Thesis helpers *)

(** A list of records splits at the first one that carries the key. *)
Lemma first_with_key sc cid (theses : list json) :
  Forall (λ v, is_obj v = true) theses →
  Forall (other_record sc cid) theses
  ∨ ∃ pre r post, theses = pre ++ JObj r :: post
      ∧ Forall (other_record sc cid) pre ∧ has_key sc cid (JObj r) = true.
Proof.
  induction 1 as [|v l Hv Hl IH]; [by left|].
  destruct (has_key sc cid v) eqn:Hkey.
  - right. destruct v; try done. by exists [], d, l.
  - destruct IH as [IH|(pre & r & post & -> & Hpre & Hr)].
    + left. by constructor.
    + right. exists (v :: pre), r, post. split; [done|]. split; [|done].
      by constructor.
Qed.

Lemma find_record_first sc cid pre r post :
  Forall (other_record sc cid) pre →
  has_key sc cid (JObj r) = true →
  find_record sc cid (pre ++ JObj r :: post) = Ok (JObj r).
Proof.
  intros Hpre Hr. induction Hpre as [|v pre [Hv1 Hv2] Hpre IH]; simpl.
  - simpl in Hr. by rewrite Hr.
  - destruct v; try done. simpl in Hv2. by rewrite Hv2.
Qed.

Lemma find_record_none sc cid theses :
  Forall (other_record sc cid) theses → find_record sc cid theses = Ok JNull.
Proof.
  induction 1 as [|v l [Hv1 Hv2] Hl IH]; simpl; [done|].
  destruct v; try done. simpl in Hv2. by rewrite Hv2.
Qed.

Lemma find_thesis_spec sc cid (w : @World text) theses :
  recovered THESIS_F w = JArr theses →
  ∃ w', find_thesis sc cid w = (w', find_record (JStr sc) (JStr cid) theses)
    ∧ same_disk w w'.
Proof.
  intros Hrec. unfold find_thesis, bind.
  destruct (read_json_spec loads THESIS_F w) as (w' & -> & Hsame & _).
  rewrite Hrec. by exists w'.
Qed.

(** A record with string key fields carries its key. *)
Lemma has_key_fields sc cid (r : gmap string json) :
  r !! "student_code" = Some (JStr sc) → r !! "course_id" = Some (JStr cid) →
  has_key (JStr sc) (JStr cid) (JObj r) = true.
Proof.
  intros Hsc Hcid. unfold has_key, py_get. rewrite Hsc, Hcid. simpl.
  by rewrite !bool_decide_eq_true_2.
Qed.

(** X8. A thesis that was upserted is found: after [upsert_thesis] of a
    candidate with string key fields, [find_thesis] of that key returns a
    record that has every field of the candidate, with the candidate's
    value wherever that value is not a dict; when no record carried the
    key before, it returns the candidate itself. *)
Theorem upsert_thesis_then_find_thesis thesis sc cid (w : @World text) theses :
  thesis !! "student_code" = Some (JStr sc) →
  thesis !! "course_id" = Some (JStr cid) →
  sc ≠ ""%string → cid ≠ ""%string →
  markers w !! _lock_path THESIS_F = None →
  recovered THESIS_F w = JArr theses →
  Forall (λ v, is_obj v = true) theses →
  ∃ w1 w2 r, upsert_thesis thesis w = (w1, Ok tt)
    ∧ find_thesis sc cid w1 = (w2, Ok (JObj r))
    ∧ (∀ k, is_Some (thesis !! k) → is_Some (r !! k))
    ∧ (∀ k v, thesis !! k = Some v → is_obj v = false → r !! k = Some v)
    ∧ (Forall (other_record (JStr sc) (JStr cid)) theses → r = thesis).
Proof.
  intros Hsc Hcid Hsc' Hcid' Hfree Hrec Hobjs.
  assert (Hkey : ∀ r0, has_key (JStr sc) (JStr cid) (JObj (_deep_merge r0 thesis)) = true).
  { intros r0. apply has_key_fields; rewrite deep_merge_lookup; [rewrite Hsc|rewrite Hcid];
      f_equal; by apply merge_value_replaces. }
  destruct (update_atomic_run THESIS_F (upsert_thesis_fn (JStr sc) (JStr cid) thesis) w Hfree)
    as (w2 & _ & _ & _ & Hr).
  rewrite Hrec in Hr.
  assert (Hup : ∀ new,
    upsert_thesis_fn (JStr sc) (JStr cid) thesis (JArr theses) w2 = ReturnsArg (JArr new) →
    ∃ w1, upsert_thesis thesis w = (w1, Ok tt) ∧ recovered THESIS_F w1 = JArr new).
  { intros new Hfn. rewrite Hfn in Hr. destruct Hr as (w1 & Hrun & _ & _ & Hrec1).
    eexists. split.
    - unfold Repo.upsert_thesis, py_get. rewrite Hsc, Hcid. simpl.
      rewrite !bool_decide_eq_false_2 by done. simpl.
      unfold bind at 1. rewrite Hrun. unfold _audit_log, effect. done.
    - rewrite <- Hrec1. by apply recovered_ext. }
  destruct (first_with_key (JStr sc) (JStr cid) theses Hobjs)
    as [Hnone|(pre & r0 & post & -> & Hpre & Hr0)].
  - destruct (Hup (theses ++ [JObj thesis])) as (w1 & Hrun & Hrec1).
    { unfold upsert_thesis_fn. by rewrite upsert_loop_no_match. }
    destruct (find_thesis_spec sc cid w1 _ Hrec1) as (w3 & Hfind & _).
    exists w1, w3, thesis. split; [done|]. split; [|by eauto].
    rewrite Hfind.
    rewrite (find_record_first _ _ theses thesis []); [done|done|].
    by apply has_key_fields.
  - destruct (Hup (pre ++ JObj (_deep_merge r0 thesis) :: post)) as (w1 & Hrun & Hrec1).
    { unfold upsert_thesis_fn. by rewrite upsert_loop_match. }
    destruct (find_thesis_spec sc cid w1 _ Hrec1) as (w3 & Hfind & _).
    exists w1, w3, (_deep_merge r0 thesis). split; [done|]. split; [|split; [|split]].
    + rewrite Hfind. f_equal. by apply find_record_first.
    + intros k [v Hk]. rewrite deep_merge_lookup, Hk. by eexists.
    + intros k v Hk Hv. rewrite deep_merge_lookup, Hk. f_equal.
      apply merge_value_replaces. by rewrite Hv.
    + intros Hall. apply Forall_app in Hall as [_ Hall].
      apply Forall_cons in Hall as [[_ Hno] _]. congruence.
Qed.

Lemma index_of_key_first sc cid pre th post :
  Forall (other_record sc cid) pre →
  has_key sc cid (JObj th) = true →
  index_of_key sc cid (pre ++ JObj th :: post) = Ok (Some (length pre, th)).
Proof.
  intros Hpre Hth. induction Hpre as [|v pre [Hv1 Hv2] Hpre IH]; simpl.
  - simpl in Hth. by rewrite Hth.
  - destruct v; try done. simpl in Hv2. rewrite Hv2. by rewrite IH.
Qed.

Lemma index_of_key_none sc cid theses :
  Forall (other_record sc cid) theses → index_of_key sc cid theses = Ok None.
Proof.
  induction 1 as [|v l [Hv1 Hv2] Hl IH]; simpl; [done|].
  destruct v; try done. simpl in Hv2. rewrite Hv2. by rewrite IH.
Qed.

Lemma with_metadata_key sc cid abstract keywords th :
  has_key sc cid (JObj (with_metadata abstract keywords th)) = has_key sc cid (JObj th).
Proof.
  unfold has_key, with_metadata, py_get. by rewrite !lookup_insert_ne by done.
Qed.

(** X9. [add_thesis_metadata] sets the abstract and the keywords of the
    first thesis with the key, keeping its other fields and the other
    records, or appends a new pending thesis carrying them when none has
    the key; it returns the record as stored. *)
Theorem add_thesis_metadata_sets sc cid abstract keywords (w : @World text) theses :
  markers w !! _lock_path THESIS_F = None →
  recovered THESIS_F w = JArr theses →
  Forall (λ v, is_obj v = true) theses →
  ∃ w' r, add_thesis_metadata sc cid abstract keywords w = (w', Ok (JObj r))
    ∧ r !! "abstract" = Some (JStr abstract)
    ∧ r !! "keywords" = Some (JArr (JStr <$> keywords))
    ∧ (∀ k, k ≠ "abstract"%string → k ≠ "keywords"%string →
         (∀ pre th post, theses = pre ++ JObj th :: post →
            Forall (other_record (JStr sc) (JStr cid)) pre →
            has_key (JStr sc) (JStr cid) (JObj th) = true →
            r !! k = th !! k)
         ∧ (Forall (other_record (JStr sc) (JStr cid)) theses →
            r !! k = pending_thesis sc cid (clock w) !! k))
    ∧ (∀ pre th post, theses = pre ++ JObj th :: post →
         Forall (other_record (JStr sc) (JStr cid)) pre →
         has_key (JStr sc) (JStr cid) (JObj th) = true →
         recovered THESIS_F w' = JArr (pre ++ JObj r :: post))
    ∧ (Forall (other_record (JStr sc) (JStr cid)) theses →
       recovered THESIS_F w' = JArr (theses ++ [JObj r])).
Proof.
  intros Hfree Hrec Hobjs.
  destruct (update_atomic_run THESIS_F (add_thesis_metadata_fn sc cid abstract keywords)
              w Hfree) as (w2 & Hclock & _ & _ & Hr).
  rewrite Hrec in Hr.
  assert (Hrun : ∀ new r,
    add_thesis_metadata_fn sc cid abstract keywords (JArr theses) w2
      = ReturnsArg (JArr new) →
    find_record (JStr sc) (JStr cid) new = Ok (JObj r) →
    ∃ w', add_thesis_metadata sc cid abstract keywords w = (w', Ok (JObj r))
      ∧ recovered THESIS_F w' = JArr new).
  { intros new r Hfn Hfound. rewrite Hfn in Hr. destruct Hr as (w1 & Hrun & _ & _ & Hrec1).
    assert (Hrec1' : recovered THESIS_F
                       (log (EvAudit "INFO" "ADD_THESIS_METADATA" (sc +:+ "/" +:+ cid)) w1)
                     = JArr new) by (rewrite <- Hrec1; by apply recovered_ext).
    destruct (find_thesis_spec sc cid _ _ Hrec1') as (w3 & Hfind & (Hf & Hs & _)).
    exists w3. split.
    - unfold add_thesis_metadata, bind at 1. rewrite Hrun.
      unfold bind at 1, _audit_log, effect. by rewrite Hfind, Hfound.
    - rewrite <- Hrec1'. by apply recovered_ext. }
  assert (Hmeta : ∀ th, with_metadata abstract keywords th !! "abstract"
                        = Some (JStr abstract)
                      ∧ with_metadata abstract keywords th !! "keywords"
                        = Some (JArr (JStr <$> keywords))
                      ∧ ∀ k, k ≠ "abstract"%string → k ≠ "keywords"%string →
                             with_metadata abstract keywords th !! k = th !! k).
  { intros th. unfold with_metadata. split; [|split].
    - by rewrite lookup_insert_ne, lookup_insert_eq.
    - by rewrite lookup_insert_eq.
    - intros k ? ?. by rewrite !lookup_insert_ne. }
  destruct (first_with_key (JStr sc) (JStr cid) theses Hobjs)
    as [Hnone|(pre & th & post & -> & Hpre & Hth)].
  - set (r := with_metadata abstract keywords (pending_thesis sc cid (clock w))).
    destruct (Hrun (theses ++ [JObj r]) r) as (w' & Hdone & Hrec').
    { unfold add_thesis_metadata_fn. rewrite index_of_key_none by done.
      by rewrite Hclock. }
    { apply (find_record_first _ _ theses r []); [done|].
      unfold r. rewrite with_metadata_key. by apply has_key_fields. }
    destruct (Hmeta (pending_thesis sc cid (clock w))) as (Ha & Hk & Hother).
    exists w', r. split; [done|]. split; [done|]. split; [done|].
    split; [|split; [|done]].
    + intros k ? ?. split; [|intros _; by apply Hother].
      intros pre th post -> Hpre Hth. apply Forall_app in Hnone as [_ Hnone].
      apply Forall_cons in Hnone as [[_ Hno] _]. congruence.
    + intros pre th post -> Hpre Hth. apply Forall_app in Hnone as [_ Hnone].
      apply Forall_cons in Hnone as [[_ Hno] _]. congruence.
  - set (r := with_metadata abstract keywords th).
    destruct (Hrun (pre ++ JObj r :: post) r) as (w' & Hdone & Hrec').
    { unfold add_thesis_metadata_fn. rewrite index_of_key_first by done.
      rewrite insert_app_r_alt by lia. by rewrite Nat.sub_diag. }
    { apply find_record_first; [done|]. unfold r. by rewrite with_metadata_key. }
    destruct (Hmeta th) as (Ha & Hk & Hother).
    assert (Hsame : ∀ pre' th' post', pre ++ JObj th :: post = pre' ++ JObj th' :: post' →
              Forall (other_record (JStr sc) (JStr cid)) pre' →
              has_key (JStr sc) (JStr cid) (JObj th') = true →
              pre' = pre ∧ th' = th ∧ post' = post).
    { intros pre' th' post' Heq Hpre' Hth'.
      pose proof (index_of_key_first (JStr sc) (JStr cid) pre th post Hpre Hth) as H1.
      pose proof (index_of_key_first (JStr sc) (JStr cid) pre' th' post' Hpre' Hth') as H2.
      rewrite Heq, H2 in H1. injection H1 as Hlen ->.
      apply app_inj_1 in Heq as [-> [= ->]]; done. }
    exists w', r. split; [done|]. split; [done|]. split; [done|].
    split; [|split].
    + intros k ? ?. split.
      * intros pre' th' post' Heq Hpre' Hth'.
        destruct (Hsame _ _ _ Heq Hpre' Hth') as (_ & -> & _). by apply Hother.
      * intros Hall. apply Forall_app in Hall as [_ Hall].
        apply Forall_cons in Hall as [[_ Hno] _]. congruence.
    + intros pre' th' post' Heq Hpre' Hth'.
      by destruct (Hsame _ _ _ Heq Hpre' Hth') as (-> & -> & ->).
    + intros Hall. apply Forall_app in Hall as [_ Hall].
      apply Forall_cons in Hall as [[_ Hno] _]. congruence.
Qed.

(** What a returning [upsert_thesis] has stored, from the result of its
    loop *)
Lemma upsert_thesis_stores thesis sc cid (w : @World text) theses new :
  thesis !! "student_code" = Some (JStr sc) →
  thesis !! "course_id" = Some (JStr cid) →
  sc ≠ ""%string → cid ≠ ""%string →
  markers w !! _lock_path THESIS_F = None →
  recovered THESIS_F w = JArr theses →
  upsert_loop (JStr sc) (JStr cid) thesis theses = Ok (Some new)
  ∨ upsert_loop (JStr sc) (JStr cid) thesis theses = Ok None
    ∧ new = theses ++ [JObj thesis] →
  ∃ w1, upsert_thesis thesis w = (w1, Ok tt)
    ∧ markers w1 !! _lock_path THESIS_F = None
    ∧ files w1 = <[THESIS_F := dumps (JArr new)]> (files w)
    ∧ recovered THESIS_F w1 = JArr new.
Proof.
  intros Hsc Hcid Hsc' Hcid' Hfree Hrec Hloop.
  destruct (update_atomic_run THESIS_F (upsert_thesis_fn (JStr sc) (JStr cid) thesis) w Hfree)
    as (w2 & _ & _ & _ & Hr).
  rewrite Hrec in Hr.
  assert (Hfn : upsert_thesis_fn (JStr sc) (JStr cid) thesis (JArr theses) w2
                = ReturnsArg (JArr new)).
  { unfold upsert_thesis_fn. by destruct Hloop as [->|[-> ->]]. }
  rewrite Hfn in Hr. destruct Hr as (w1 & Hrun & Hf & Hm & Hrec1).
  eexists. split; [|split; [|split]].
  - unfold Repo.upsert_thesis, py_get. rewrite Hsc, Hcid. simpl.
    rewrite !bool_decide_eq_false_2 by done. simpl.
    unfold bind at 1. rewrite Hrun. unfold _audit_log, effect. done.
  - done.
  - done.
  - rewrite <- Hrec1. by apply recovered_ext.
Qed.


(** *** Registration of a teacher *)

(** The record [v] carries [code] as its teacher code. *)
Definition has_teacher_code (code : string) (v : json) : bool :=
  match v with
  | JObj t => py_eq (py_get t "teacher_code") (JStr code)
  | _ => false
  end.

Lemma any_teacher_code code teachers :
  Forall (λ v, is_obj v = true) teachers →
  any_field_eq "teacher_code" (JStr code) teachers
  = Ok (existsb (has_teacher_code code) teachers).
Proof.
  intros Hall. induction Hall as [|v l Hv Hall IH]; simpl; [done|].
  destruct v; try done. simpl. destruct (py_eq _ _); [done|]. by rewrite IH.
Qed.

Lemma first_teacher_code code teachers pre post :
  Forall (λ v, is_obj v = true) pre →
  existsb (has_teacher_code code) pre = false →
  has_teacher_code code (JObj teachers) = true →
  first_with_field "teacher_code" (JStr code) (pre ++ JObj teachers :: post)
  = Ok (JObj teachers).
Proof.
  intros Hall. induction Hall as [|v l Hv Hall IH]; simpl; intros Hnone Hrec.
  - simpl in Hrec. by rewrite Hrec.
  - destruct v; try done. simpl in Hnone. apply orb_false_iff in Hnone as [-> Hnone].
    by apply IH.
Qed.

Lemma teacher_record_valid name code password email cs cj now :
  validate_teacher (teacher_record name code password email cs cj now)
  = Ok (if email_accepted email then (true, "OK"%string)
        else (false, "Invalid teacher email"%string)).
Proof.
  unfold validate_teacher, teacher_record, email_accepted.
  rewrite lookup_insert_eq.
  rewrite (lookup_insert_ne _ "name" "teacher_code") by done. rewrite lookup_insert_eq.
  do 2 rewrite (lookup_insert_ne _ _ "password_hash") by done. rewrite lookup_insert_eq.
  do 4 rewrite (lookup_insert_ne _ _ "capacity_supervise") by done.
  rewrite lookup_insert_eq.
  do 5 rewrite (lookup_insert_ne _ _ "capacity_judge") by done.
  rewrite lookup_insert_eq.
  do 3 rewrite (lookup_insert_ne _ _ "email") by done. rewrite lookup_insert_eq.
  simpl. destruct (default ""%string email) as [|a e] eqn:He; [done|].
  rewrite !(bool_decide_false (String a e = ""%string)) by done. simpl.
  by destruct (str_in "@" (String a e) && negb (str_in " " (String a e))).
Qed.

(** What [register_teacher] does on a list of records, with the lock free *)
Lemma register_teacher_run name code password email cs cj (w : @World text) teachers :
  markers w !! _lock_path TEACHERS_F = None →
  recovered TEACHERS_F w = JArr teachers →
  Forall (λ v, is_obj v = true) teachers →
  if existsb (has_teacher_code code) teachers
  then ∃ w', register_teacher name code password email cs cj w
             = (w', Raise (ValueError "teacher_code already exists"))
         ∧ files w' = files w ∧ snapshots w' = snapshots w
  else if email_accepted email
  then let rec := teacher_record name code password email cs cj (clock w) in
       ∃ w', register_teacher name code password email cs cj w = (w', Ok (JObj rec))
         ∧ recovered TEACHERS_F w' = JArr (teachers ++ [JObj rec])
         ∧ markers w' !! _lock_path TEACHERS_F = None
  else ∃ w', register_teacher name code password email cs cj w
             = (w', Raise (ValueError "Invalid teacher record: Invalid teacher email"))
         ∧ files w' = files w ∧ snapshots w' = snapshots w.
Proof.
  intros Hfree Hdata Hall.
  destruct (update_atomic_run TEACHERS_F
              (register_teacher_fn name code password email cs cj) w Hfree)
    as (w2 & Hclock & _ & _ & Hr).
  rewrite Hdata in Hr.
  assert (Hfn : register_teacher_fn name code password email cs cj (JArr teachers) w2
    = if existsb (has_teacher_code code) teachers
      then Raises (ValueError "teacher_code already exists")
      else if email_accepted email
      then ReturnsArg (JArr (teachers ++
             [JObj (teacher_record name code password email cs cj (clock w))]))
      else Raises (ValueError "Invalid teacher record: Invalid teacher email")).
  { unfold register_teacher_fn. rewrite any_teacher_code by done.
    destruct (existsb _ _); [done|]. rewrite teacher_record_valid, Hclock.
    by destruct (email_accepted email). }
  rewrite Hfn in Hr. clear Hfn.
  assert (Hreg : register_teacher name code password email cs cj w
    = match update_atomic TEACHERS_F
              (Some (register_teacher_fn name code password email cs cj)) w with
      | (w', Ok _) =>
          (_audit_log "REGISTER_TEACHER" "repo" code ;;;
           teachers <- read_json TEACHERS_F ;;
           lift (scan_for_field "teacher_code" (JStr code) teachers)) w'
      | (w', Raise e) => (w', Raise e)
      end) by done.
  rewrite Hreg. clear Hreg.
  destruct (existsb (has_teacher_code code) teachers) eqn:Htaken.
  { destruct Hr as (w' & -> & ? & ?). by exists w'. }
  destruct (email_accepted email) eqn:Hemail.
  2: { destruct Hr as (w' & -> & ? & ?). by exists w'. }
  destruct Hr as (w' & -> & Hfiles & Hm & Hrec).
  set (rec := teacher_record name code password email cs cj (clock w)) in *.
  assert (Hhas : has_teacher_code code (JObj rec) = true).
  { simpl. unfold py_get, rec, teacher_record.
    rewrite lookup_insert_ne, lookup_insert_eq by done. simpl.
    by rewrite bool_decide_true. }
  unfold bind, _audit_log, effect.
  destruct (read_json_spec loads TEACHERS_F (log (EvAudit "INFO" "REGISTER_TEACHER" code) w'))
    as (w'' & -> & (Hf'' & Hs'' & Hm'' & _) & _).
  rewrite (recovered_ext loads TEACHERS_F w' (log (EvAudit "INFO" "REGISTER_TEACHER" code) w'))
    by done.
  rewrite Hrec.
  unfold lift, scan_for_field. rewrite (first_teacher_code code rec teachers []) by done.
  exists w''. split; [done|]. split.
  - rewrite <- Hrec. by apply recovered_ext.
  - by rewrite Hm''.
Qed.

(** X11. Registration of a teacher: a code that a record already carries
    makes [register_teacher] raise [ValueError] and change no file, and so
    does an e-mail that fails validation; otherwise exactly one record is
    appended and returned, with the code and the two capacities as given
    (the numeric check of [validate_teacher] cannot reject a record built
    here), and any later registration of that code is rejected. *)
Theorem register_teacher_unique name code password email cs cj (w : @World text) teachers :
  markers w !! _lock_path TEACHERS_F = None →
  recovered TEACHERS_F w = JArr teachers →
  Forall (λ v, is_obj v = true) teachers →
  (existsb (has_teacher_code code) teachers = true →
   ∃ w', register_teacher name code password email cs cj w
         = (w', Raise (ValueError "teacher_code already exists"))
     ∧ files w' = files w ∧ snapshots w' = snapshots w)
  ∧ (existsb (has_teacher_code code) teachers = false → email_accepted email = false →
     ∃ w', register_teacher name code password email cs cj w
           = (w', Raise (ValueError "Invalid teacher record: Invalid teacher email"))
       ∧ files w' = files w ∧ snapshots w' = snapshots w)
  ∧ (existsb (has_teacher_code code) teachers = false → email_accepted email = true →
     ∃ w' rec, register_teacher name code password email cs cj w = (w', Ok (JObj rec))
       ∧ recovered TEACHERS_F w' = JArr (teachers ++ [JObj rec])
       ∧ rec !! "teacher_code" = Some (JStr code)
       ∧ rec !! "capacity_supervise" = Some (JInt cs)
       ∧ rec !! "capacity_judge" = Some (JInt cj)
       ∧ ∀ name' password' email' cs' cj',
           ∃ w'', register_teacher name' code password' email' cs' cj' w'
                  = (w'', Raise (ValueError "teacher_code already exists"))
             ∧ files w'' = files w').
Proof.
  intros Hfree Hdata Hall.
  pose proof (register_teacher_run name code password email cs cj w teachers
                Hfree Hdata Hall) as Hrun.
  split; [|split].
  - intros Htaken. by rewrite Htaken in Hrun.
  - intros Hnew Hbad. by rewrite Hnew, Hbad in Hrun.
  - intros Hnew Hgood. rewrite Hnew, Hgood in Hrun. cbv zeta in Hrun.
    destruct Hrun as (w' & Hreg & Hrec & Hfree').
    set (rec := teacher_record name code password email cs cj (clock w)) in *.
    exists w', rec. split; [done|]. split; [done|].
    assert (Hcode : rec !! "teacher_code" = Some (JStr code)).
    { unfold rec, teacher_record. by rewrite lookup_insert_ne, lookup_insert_eq. }
    split; [done|]. split; [|split].
    + unfold rec, teacher_record.
      do 4 rewrite (lookup_insert_ne _ _ "capacity_supervise") by done.
      apply lookup_insert_eq.
    + unfold rec, teacher_record.
      do 5 rewrite (lookup_insert_ne _ _ "capacity_judge") by done.
      apply lookup_insert_eq.
    + intros name' password' email' cs' cj'.
      pose proof (register_teacher_run name' code password' email' cs' cj' w'
                    (teachers ++ [JObj rec]) Hfree' Hrec) as Hagain.
      rewrite existsb_app in Hagain. simpl in Hagain.
      unfold py_get in Hagain. rewrite Hcode in Hagain. simpl in Hagain.
      rewrite bool_decide_true, orb_true_r in Hagain by done.
      destruct Hagain as (w'' & ? & ? & _).
      { apply Forall_app. split; [done|]. by constructor. }
      by exists w''.
Qed.

(** *** Bootstrap *)

Lemma ensure_files_lookup (items : list (Path * json)) : ∀ (w : @World text) p,
  NoDup items.*1 →
  files (foldl (λ w pd, _ensure_file pd.1 pd.2 w) w items) !! p
  = match files w !! p with
    | Some t => Some t
    | None => dumps <$> (list_to_map items : gmap Path json) !! p
    end.
Proof.
  induction items as [|[q d] items IH]; intros w p Hnd.
  - simpl. rewrite lookup_empty. by destruct (files w !! p).
  - apply NoDup_cons in Hnd as [Hq Hnd]. cbn [foldl fst snd].
    rewrite IH by done. rewrite list_to_map_cons. cbn [fst snd]. unfold _ensure_file.
    destruct (decide (p = q)) as [->|Hne].
    + rewrite lookup_insert_eq.
      destruct (files w !! q) as [t|] eqn:Hw; [by rewrite Hw|].
      simpl. by rewrite lookup_insert_eq.
    + rewrite lookup_insert_ne by done.
      destruct (files w !! q) as [t|] eqn:Hw; [done|].
      simpl. by rewrite lookup_insert_ne.
Qed.

Lemma ensure_files_frame (items : list (Path * json)) : ∀ (w : @World text),
  markers (foldl (λ w pd, _ensure_file pd.1 pd.2 w) w items) = markers w
  ∧ snapshots (foldl (λ w pd, _ensure_file pd.1 pd.2 w) w items) = snapshots w.
Proof.
  induction items as [|[q d] items IH]; intros w; [done|].
  cbn [foldl fst snd]. destruct (IH (_ensure_file q d w)) as [-> ->].
  unfold _ensure_file. by destruct (files w !! q).
Qed.

Lemma defaults_items_map : list_to_map defaults_items = _DEFAULTS.
Proof. done. Qed.

Lemma defaults_items_NoDup : NoDup defaults_items.*1.
Proof. compute_done. Qed.

(** X12. The module bootstrap creates what is missing and nothing else:
    it writes the default [[]] to every declared resource that has no
    file, after which that resource reads as the empty list; it leaves
    every existing file as it is, parsable or not, and every undeclared
    path alone; it takes no lock and makes no backup; and a second run
    changes nothing. *)
Theorem bootstrap_creates_missing (w : @World text) :
  (∀ p t, files w !! p = Some t → files (bootstrap w) !! p = Some t)
  ∧ (∀ p, is_Some (_DEFAULTS !! p) → files w !! p = None →
          files (bootstrap w) !! p = Some (dumps (JArr []))
          ∧ recovered p (bootstrap w) = JArr [])
  ∧ (∀ p, _DEFAULTS !! p = None → files (bootstrap w) !! p = files w !! p)
  ∧ markers (bootstrap w) = markers w
  ∧ snapshots (bootstrap w) = snapshots w
  ∧ files (bootstrap (bootstrap w)) = files (bootstrap w).
Proof.
  assert (Hlook : ∀ (w0 : @World text) p, files (bootstrap w0) !! p
            = match files w0 !! p with
              | Some t => Some t
              | None => dumps <$> _DEFAULTS !! p
              end).
  { intros w0 p. unfold bootstrap.
    rewrite ensure_files_lookup by apply defaults_items_NoDup.
    by rewrite defaults_items_map. }
  split; [|split; [|split; [|split; [|split]]]].
  - intros p t Hp. by rewrite Hlook, Hp.
  - intros p [d Hd] Hp.
    assert (files (bootstrap w) !! p = Some (dumps (JArr []))) as Hnew.
    { rewrite Hlook, Hp, Hd. simpl. by rewrite (declared_defaults p d Hd). }
    split; [done|]. by apply (recovered_primary dumps loads loads_dumps).
  - intros p Hp. rewrite Hlook, Hp. by destruct (files w !! p).
  - apply ensure_files_frame.
  - apply ensure_files_frame.
  - apply map_eq. intros p. rewrite (Hlook (bootstrap w)).
    destruct (files (bootstrap w) !! p) as [t|] eqn:Hb; [done|].
    rewrite Hlook in Hb. destruct (files w !! p); [done|].
    by destruct (_DEFAULTS !! p).
Qed.

(** *** The archive of defenses *)

(** A write through [update_atomic] leaves the files of the other
    resources alone. *)
Lemma update_atomic_other p (f : transform) (w : @World text) q :
  q ≠ p → files (update_atomic p (Some f) w).1 !! q = files w !! q.
Proof.
  intros Hq.
  destruct (update_atomic_spec dumps loads loads_dumps p f w) as (w1 & r & Hacq & Hr).
  destruct (acquire_lock_frame _ _ _ _ _ Hacq) as (Hf1 & _).
  destruct r as [lk|e]; [|rewrite Hr; simpl; by rewrite Hf1].
  destruct Hr as (w2 & _ & _ & _ & Hr).
  destruct (f (recovered p w) w2); destruct Hr as (w' & -> & Hr); cbn [fst].
  - destruct Hr as [-> _]. done.
  - destruct Hr as [-> _]. by rewrite lookup_insert_ne.
  - destruct Hr as [-> _]. by rewrite lookup_insert_ne.
Qed.


(** *** Judges *)

(** X14. Whatever form the judges are given in, when [_normalize_judges]
    returns, it returns a dict with exactly the two keys [internal] and
    [external], both strings; and normalising that dict again returns it
    unchanged. (Python's [str] of a string is that string.) *)
Theorem normalize_judges_idempotent judges r :
  (∀ s, py_str (JStr s) = s) →
  _normalize_judges judges = Ok r →
  (∃ internal external,
     r = JObj {[ "internal" := JStr internal; "external" := JStr external ]})
  ∧ _normalize_judges r = Ok r.
Proof.
  intros Hstr Hr.
  assert (Hpair : ∀ i e, _normalize_judges (judges_pair i e) = Ok (judges_pair i e)).
  { intros i e. unfold Repo._normalize_judges, judges_pair.
    rewrite lookup_insert_eq, lookup_insert_ne, lookup_singleton_eq by done.
    simpl. by rewrite !Hstr. }
  assert (Hshape : ∃ i e, r = judges_pair i e).
  { unfold Repo._normalize_judges in Hr.
    destruct judges as [| | | | |l|d]; try (injection Hr as <-; by eauto).
    destruct l as [|x0 l]; [injection Hr as <-; by eauto|].
    destruct x0; try (destruct l as [|x1 l]; [injection Hr as <-; by eauto|];
      simpl in Hr; try (injection Hr as <-; by eauto);
      destruct (is_str_or_int x1); injection Hr as <-; by eauto).
    destruct (judges_by_role _ _ _ _) as [role_map|]; [|done].
    injection Hr as <-. by eauto. }
  destruct Hshape as (i & e & ->). split; [by exists i, e|apply Hpair].
Qed.

(** *** The notification list *)

Lemma write_json_free p data (w : @World text) :
  markers w !! _lock_path p = None →
  ∃ w', write_json p data w = (w', Ok tt)
    ∧ files w' = <[p := dumps data]> (files w)
    ∧ markers w' !! _lock_path p = None.
Proof.
  intros Hfree.
  assert (Hrun : ∃ w', write_json p data w = (w', Ok tt)).
  { unfold Repo.write_json, bind at 1. rewrite acquire_lock_free by done.
    unfold finally, bind, effect. by eexists. }
  destruct Hrun as [w' Hrun]. exists w'. split; [done|].
  by destruct (write_json_run _ _ _ _ Hrun) as (_ & _ & _ & _ & ? & _ & ?).
Qed.

(** X15. The notification list is a window: [_append_to_notif_list] stores
    the list it read with the record appended, cut down to its last
    [NOTIF_MEMORY_MAX] entries; the stored list ends with the new record
    and never has more than [NOTIF_MEMORY_MAX] entries, the oldest being
    dropped first. Content that is not a list is replaced. *)
Theorem append_to_notif_list_window rec (w : @World text) :
  markers w !! _lock_path NOTIF_F = None →
  let appended := as_list (recovered NOTIF_F w) ++ [rec] in
  ∃ w' kept, _append_to_notif_list rec w = (w', Ok tt)
    ∧ recovered NOTIF_F w' = JArr kept
    ∧ kept = drop (length appended - NOTIF_MEMORY_MAX) appended
    ∧ last kept = Some rec
    ∧ (length kept ≤ NOTIF_MEMORY_MAX)%nat.
Proof.
  intros Hfree appended.
  set (kept := drop (length appended - NOTIF_MEMORY_MAX) appended).
  unfold Repo._append_to_notif_list, bind, atomic_write.
  destruct (read_json_spec loads NOTIF_F w) as (w1 & -> & (_ & _ & Hm & _) & _).
  assert (Hdata : (let data := match recovered NOTIF_F w with JArr l => l | _ => [] end in
                   let data := data ++ [rec] in
                   if bool_decide (NOTIF_MEMORY_MAX < length data)%nat
                   then drop (length data - NOTIF_MEMORY_MAX) data else data) = kept).
  { cbv zeta. fold (as_list (recovered NOTIF_F w)). fold appended.
    case_bool_decide as Hlen; [done|].
    unfold kept. by replace (length appended - NOTIF_MEMORY_MAX)%nat with 0%nat by lia. }
  cbv zeta in Hdata. rewrite Hdata.
  destruct (write_json_free NOTIF_F (JArr kept) w1) as (w' & Hrun & Hf & _);
    [by rewrite Hm|].
  exists w', kept. rewrite Hrun. split; [done|]. split; [|split; [done|split]].
  - apply (recovered_primary dumps loads loads_dumps). rewrite Hf. apply lookup_insert_eq.
  - unfold kept, appended. rewrite length_app. cbn [length].
    rewrite drop_app_le by (unfold NOTIF_MEMORY_MAX; lia). apply last_snoc.
  - unfold kept. rewrite length_drop. lia.
Qed.

End Operations.
(** *** Worked instances *)

(** The world after the lock of theses.json was taken on [thesis_world] *)
Definition locked_world : @World demo_text :=
  (_acquire_lock THESIS_F LOCK_TIMEOUT_SEC thesis_world).1.

Lemma acquire_lock_not_reentrant_witness :
  _acquire_lock THESIS_F LOCK_TIMEOUT_SEC thesis_world
  = (locked_world, Ok (mk_Lock (_lock_path THESIS_F) true))
  ∧ ∃ w2, (∀ data, write_json demo_dumps THESIS_F data locked_world
                   = (w2, Raise (TimeoutError THESIS_F)))
      ∧ files w2 = files thesis_world.
Proof.
  assert (H : _acquire_lock THESIS_F LOCK_TIMEOUT_SEC thesis_world
              = (locked_world, Ok (mk_Lock (_lock_path THESIS_F) true)))
    by (vm_compute; reflexivity).
  split; [exact H|].
  destruct (acquire_lock_not_reentrant demo_dumps demo_loads THESIS_F LOCK_TIMEOUT_SEC
              thesis_world locked_world _ H LOCK_TIMEOUT_SEC
              ltac:(vm_compute; discriminate) ltac:(vm_compute; discriminate))
    as (w2 & n & _ & _ & Hfiles & _ & _ & Hcallers).
  exists w2. split; [exact (proj1 (Hcallers eq_refl))|exact Hfiles].
Defined.

Lemma release_lock_frees_takeover_witness :
  let lk := mk_Lock (_lock_path THESIS_F) true in
  ∃ w2, _acquire_lock THESIS_F LOCK_TIMEOUT_SEC (pass 61000 locked_world) = (w2, Ok lk)
    ∧ markers (_release_lock lk w2) !! _lock_path THESIS_F = None
    ∧ ∃ w3, _acquire_lock THESIS_F LOCK_TIMEOUT_SEC (_release_lock lk w2) = (w3, Ok lk).
Proof.
  assert (H : _acquire_lock THESIS_F LOCK_TIMEOUT_SEC thesis_world
              = (locked_world, Ok (mk_Lock (_lock_path THESIS_F) true)))
    by (vm_compute; reflexivity).
  destruct (release_lock_frees_takeover THESIS_F LOCK_TIMEOUT_SEC thesis_world
              locked_world _ 61000 H ltac:(vm_compute; reflexivity))
    as (w2 & Hsecond & _ & Hfree & w3 & Hthird & _).
  exists w2. split; [exact Hsecond|]. split; [exact Hfree|].
  exists w3. exact Hthird.
Defined.

(** theses.json with twelve backups, taken one second apart *)
Definition backed_up_world : @World demo_text :=
  mkWorld 5000000
    {[ THESIS_F := demo_dumps (JArr [JInt 12]) ]}
    ∅
    (list_to_map ((λ i : Z, ((stem THESIS_F, 4000 + i), demo_dumps (JArr [JInt i])))
                    <$> [0; 1; 2; 3; 4; 5; 6; 7; 8; 9; 10; 11]))
    [].

Lemma write_json_prunes_to_retention_witness :
  let w' := (write_json demo_dumps THESIS_F (JArr [JInt 13]) backed_up_world).1 in
  (length (slots (stem THESIS_F) backed_up_world) = 12)%nat
  ∧ (length (slots (stem THESIS_F) w') ≤ BACKUP_RETAIN_PER_FILE)%nat.
Proof.
  assert (H : write_json demo_dumps THESIS_F (JArr [JInt 13]) backed_up_world
              = ((write_json demo_dumps THESIS_F (JArr [JInt 13]) backed_up_world).1,
                 Ok tt))
    by (vm_compute; reflexivity).
  split; [vm_compute; reflexivity|].
  exact (proj1 (write_json_prunes_to_retention demo_dumps THESIS_F (JArr [JInt 13])
                  backed_up_world _ H ltac:(eexists; vm_compute; reflexivity))).
Defined.

(** The world with the primary file of [p] lost *)
Definition lose_primary (p : Path) (w : @World demo_text) : @World demo_text :=
  mkWorld (clock w) (delete p (files w)) (markers w) (snapshots w) (trace w).

Lemma lose_primary_spec (p : Path) (w : @World demo_text) :
  snapshots (lose_primary p w) = snapshots w
  ∧ files (lose_primary p w) !! p ≫= demo_loads = None.
Proof. split; [done|]. cbn. by rewrite lookup_delete_eq. Qed.

(** [thesis_world] after a write to theses.json *)
Definition rewritten_world : @World demo_text :=
  (write_json demo_dumps THESIS_F (JArr [JInt 7]) thesis_world).1.

Lemma write_json_then_corruption_witness :
  ∃ w3, read_json demo_loads THESIS_F (lose_primary THESIS_F rewritten_world)
        = (w3, Ok (JArr [JObj {[ "student_code" := JStr "s1";
                                 "course_id" := JStr "c1";
                                 "score" := JInt 18 ]}])).
Proof.
  assert (H : write_json demo_dumps THESIS_F (JArr [JInt 7]) thesis_world
              = (rewritten_world, Ok tt))
    by (vm_compute; reflexivity).
  assert (H1 : markers thesis_world !! _lock_path THESIS_F = None)
    by (vm_compute; reflexivity).
  assert (H2 : files thesis_world !! THESIS_F
               = Some (demo_dumps (JArr [JObj {[ "student_code" := JStr "s1";
                                                 "course_id" := JStr "c1";
                                                 "score" := JInt 18 ]}])))
    by (vm_compute; reflexivity).
  assert (H3 : ∀ ts, is_Some (snapshots thesis_world !! (stem THESIS_F, ts)) →
                     ts ≤ clock thesis_world `div` 1000)
    by (intros ts [x Hx]; cbn in Hx; rewrite lookup_empty in Hx; discriminate).
  destruct (write_json_then_corruption demo_dumps demo_loads THESIS_F (JArr [JInt 7])
              thesis_world rewritten_world _ _ H1 H2 eq_refl H3 H) as [_ Hread].
  exact (Hread (lose_primary THESIS_F rewritten_world)
           (proj1 (lose_primary_spec THESIS_F rewritten_world))
           (proj2 (lose_primary_spec THESIS_F rewritten_world))).
Defined.

Lemma append_json_appends_witness :
  ∃ w', append_json demo_dumps demo_loads THESIS_F (JInt 7) thesis_world
        = (w', Ok (JArr (as_list (recovered demo_loads THESIS_F thesis_world)
                           ++ [JInt 7])))
    ∧ markers w' !! _lock_path THESIS_F = None.
Proof.
  destruct (append_json_appends demo_dumps demo_loads demo_round_trip THESIS_F (JInt 7)
              thesis_world ltac:(vm_compute; reflexivity))
    as (w' & Hrun & _ & Hfree & _).
  exists w'. split; [exact Hrun|exact Hfree].
Defined.

(** theses.json is damaged; its newest backup holds one thesis *)
Definition damaged_world : @World demo_text :=
  mkWorld 5000000 {[ THESIS_F := None ]} ∅
    {[ (stem THESIS_F, 4000) := demo_dumps (JArr [JInt 1]);
       (stem THESIS_F, 4001) := demo_dumps (JArr [JInt 2]) ]}
    [].


Lemma upsert_thesis_then_find_thesis_witness :
  ∃ w1 w2 r, upsert_thesis demo_dumps demo_loads demo_str candidate thesis_world
             = (w1, Ok tt)
    ∧ find_thesis demo_loads "s1" "c1" w1 = (w2, Ok (JObj r))
    ∧ r !! "title" = Some (JStr "On maps").
Proof.
  pose (existing := ({[ "student_code" := JStr "s1"; "course_id" := JStr "c1";
                        "score" := JInt 18 ]} : gmap string json)).
  destruct (upsert_thesis_then_find_thesis demo_dumps demo_loads demo_round_trip demo_str
              candidate "s1" "c1" thesis_world [JObj existing]
              ltac:(vm_compute; reflexivity) ltac:(vm_compute; reflexivity)
              ltac:(discriminate) ltac:(discriminate)
              ltac:(vm_compute; reflexivity) ltac:(vm_compute; reflexivity)
              ltac:(repeat constructor))
    as (w1 & w2 & r & Hrun & Hfind & _ & Hleaf & _).
  exists w1, w2, r. split; [exact Hrun|]. split; [exact Hfind|].
  apply Hleaf; vm_compute; reflexivity.
Defined.

Lemma add_thesis_metadata_sets_witness :
  ∃ w' r, add_thesis_metadata demo_dumps demo_loads demo_now_iso "s1" "c1"
            "A study of maps" ["maps"; "tries"]%string thesis_world = (w', Ok (JObj r))
    ∧ r !! "abstract" = Some (JStr "A study of maps")
    ∧ r !! "score" = Some (JInt 18)
    ∧ recovered demo_loads THESIS_F w' = JArr [JObj r].
Proof.
  pose (existing := ({[ "student_code" := JStr "s1"; "course_id" := JStr "c1";
                        "score" := JInt 18 ]} : gmap string json)).
  destruct (add_thesis_metadata_sets demo_dumps demo_loads demo_round_trip demo_now_iso
              "s1" "c1" "A study of maps" ["maps"; "tries"]%string
              thesis_world [JObj existing]
              ltac:(vm_compute; reflexivity) ltac:(vm_compute; reflexivity)
              ltac:(repeat constructor))
    as (w' & r & Hrun & Habs & _ & Hother & Hstored & _).
  exists w', r. split; [exact Hrun|]. split; [exact Habs|]. split.
  - etrans; [apply (proj1 (Hother "score"%string ltac:(discriminate) ltac:(discriminate))
                      [] existing [] eq_refl (Forall_nil_2 _)
                      ltac:(vm_compute; reflexivity))|].
    vm_compute. reflexivity.
  - exact (Hstored [] existing [] eq_refl (Forall_nil_2 _)
             ltac:(vm_compute; reflexivity)).
Defined.


Definition teachers_world : @World demo_text :=
  mkWorld 5000000
    {[ TEACHERS_F := demo_dumps (JArr [JObj {[ "teacher_code" := JStr "t1" ]}]) ]}
    ∅ ∅ [].

(** Every string that [register_teacher] prints from an [int] parses. *)
Definition demo_int_literal (s : string) : bool := true.

Lemma register_teacher_unique_witness :
  ∃ w' rec, register_teacher demo_dumps demo_loads demo_now_iso demo_hash
              demo_int_literal "Ada" "t2" "secret" (Some "ada@example.org"%string) 5 10
              teachers_world = (w', Ok (JObj rec))
    ∧ rec !! "teacher_code" = Some (JStr "t2")
    ∧ ∃ w'', register_teacher demo_dumps demo_loads demo_now_iso demo_hash
               demo_int_literal "Bob" "t2" "other" None 1 1 w'
             = (w'', Raise (ValueError "teacher_code already exists")).
Proof.
  pose (teachers := [JObj ({[ "teacher_code" := JStr "t1" ]} : gmap string json)]).
  destruct (register_teacher_unique demo_dumps demo_loads demo_round_trip demo_now_iso
              demo_hash demo_int_literal "Ada" "t2" "secret"
              (Some "ada@example.org"%string) 5 10 teachers_world teachers
              ltac:(vm_compute; reflexivity) ltac:(vm_compute; reflexivity)
              ltac:(repeat constructor))
    as (_ & _ & Happend).
  destruct (Happend ltac:(vm_compute; reflexivity) ltac:(vm_compute; reflexivity))
    as (w' & rec & Hrun & _ & Hcode & _ & _ & Hlater).
  exists w', rec. split; [exact Hrun|]. split; [exact Hcode|].
  destruct (Hlater "Bob"%string "other"%string None 1 1) as (w'' & Hagain & _).
  exists w''. exact Hagain.
Defined.

Lemma bootstrap_creates_missing_witness :
  files (bootstrap demo_dumps thesis_world) !! THESIS_F = files thesis_world !! THESIS_F
  ∧ recovered demo_loads STUDENTS_F (bootstrap demo_dumps thesis_world) = JArr []
  ∧ files (bootstrap demo_dumps (bootstrap demo_dumps thesis_world))
    = files (bootstrap demo_dumps thesis_world).
Proof.
  destruct (bootstrap_creates_missing demo_dumps demo_loads demo_round_trip thesis_world)
    as (Hkept & Hnew & _ & _ & _ & Hagain).
  split; [|split; [|exact Hagain]].
  - etrans; [apply Hkept; vm_compute; reflexivity|]. vm_compute. reflexivity.
  - apply Hnew; [eexists; vm_compute; reflexivity|vm_compute; reflexivity].
Defined.

(** A defense whose supervisor score is out of range *)
Definition out_of_range_defense : defense :=
  mkDefense "s1" "c1" "On maps" 2026 "fall" "t1"
    (JObj {[ "internal" := JStr "t2"; "external" := JStr "t3" ]})
    {[ "supervisor" := 21%float; "internal" := 17%float; "external" := 19%float ]}
    None ∅.


Lemma normalize_judges_idempotent_witness :
  let r := JObj {[ "internal" := JStr "t2"; "external" := JStr "t4" ]} in
  _normalize_judges demo_str demo_lower (JArr [JStr "t2"; JStr "t4"]) = Ok r
  ∧ _normalize_judges demo_str demo_lower r = Ok r.
Proof.
  assert (H : _normalize_judges demo_str demo_lower (JArr [JStr "t2"; JStr "t4"])
              = Ok (JObj {[ "internal" := JStr "t2"; "external" := JStr "t4" ]}))
    by (vm_compute; reflexivity).
  split; [exact H|].
  exact (proj2 (normalize_judges_idempotent demo_str demo_lower _ _ (λ _, eq_refl) H)).
Defined.

Lemma append_to_notif_list_window_witness :
  ∃ w' kept, _append_to_notif_list demo_dumps demo_loads (JStr "defended") empty_world
             = (w', Ok tt)
    ∧ recovered demo_loads NOTIF_F w' = JArr kept
    ∧ last kept = Some (JStr "defended")
    ∧ (length kept ≤ NOTIF_MEMORY_MAX)%nat.
Proof.
  destruct (append_to_notif_list_window demo_dumps demo_loads demo_round_trip
              (JStr "defended") empty_world ltac:(vm_compute; reflexivity))
    as (w' & kept & Hrun & Hstored & _ & Hlast & Hbound).
  exists w', kept. repeat split; [exact Hrun|exact Hstored|exact Hlast|exact Hbound].
Defined.

End RepoOps.

(** ** More of the upload copier

    What [validate_and_copy] of [core/files.py] guarantees to its caller,
    and the two helpers that choose a destination. *)

Module FilesOps.
Import Files.

Section Uploads.

(** [hashlib.sha256] of the bytes, [_secure_filename] and [str.strip] are
    library code or regular-expression code. *)
Variable sha256 : string → string.
Variable _secure_filename : string → string.
Variable py_strip : string → string.

Local Notation validate_and_copy :=
  (Files.validate_and_copy sha256 _secure_filename py_strip).
Local Notation _find_duplicate_by_hash := (Files._find_duplicate_by_hash py_strip).
Local Notation holds_digest := (Files.holds_digest py_strip).

(** The checks that [validate_and_copy] makes before it computes a
    destination, in its order: existence, extensions, sizes, signatures *)
Definition accepts (pdf cover last : source) (pdf_max_bytes img_max_bytes : Z) : bool :=
  bool_decide (is_Some (src_bytes pdf) ∧ is_Some (src_bytes cover)
               ∧ is_Some (src_bytes last))
  && bool_decide (src_suffix pdf ∈ ALLOWED_PDF_EXT)
  && bool_decide (src_suffix cover ∈ ALLOWED_IMG_EXT)
  && bool_decide (src_suffix last ∈ ALLOWED_IMG_EXT)
  && _size_ok pdf pdf_max_bytes && _size_ok cover img_max_bytes
  && _size_ok last img_max_bytes
  && (_guess_mime_and_sig_ok pdf).2 && (_guess_mime_and_sig_ok cover).2
  && (_guess_mime_and_sig_ok last).2.

(** The exceptions of the validation phase *)
Definition is_rejection (e : exn) : Prop :=
  e = FileNotFoundError ∨ ∃ msg, e = ValueError msg.

(** *** The helpers that choose a destination *)

Lemma find_duplicate_Some (target_dir : dir) (sha256_hex suffix : string)
    (disk : Disk) (p : fpath) :
  _find_duplicate_by_hash target_dir sha256_hex suffix disk = Some p →
  p.1 = target_dir ∧ ends_with suffix p.2 = true ∧ is_Some (disk !! p)
  ∧ ∃ text, disk !! sidecar p = Some text ∧ py_strip text = sha256_hex.
Proof.
  unfold Files._find_duplicate_by_hash. intros [Hin Hp]%find_some.
  apply andb_true_iff in Hp as [[Hdir Hend]%andb_true_iff Hdig].
  apply bool_decide_eq_true in Hdir.
  split; [done|]. split; [done|]. split.
  - apply list_elem_of_In, list_elem_of_fmap in Hin as ([q c] & -> & Hin).
    apply elem_of_map_to_list in Hin. by eexists.
  - unfold Files.holds_digest in Hdig.
    destruct (disk !! sidecar p) as [text|]; [|done].
    apply bool_decide_eq_true in Hdig. by exists text.
Qed.

Lemma find_duplicate_None (target_dir : dir) (sha256_hex suffix : string)
    (disk : Disk) :
  _find_duplicate_by_hash target_dir sha256_hex suffix disk = None →
  ∀ p text, is_Some (disk !! p) → p.1 = target_dir →
    ends_with suffix p.2 = true → disk !! sidecar p = Some text →
    py_strip text ≠ sha256_hex.
Proof.
  unfold Files._find_duplicate_by_hash. intros Hfind p text [c Hp] Hdir Hend Hside Hdig.
  pose proof (find_none _ _ Hfind p) as Hnone. cbv beta in Hnone.
  rewrite Hdir, Hend in Hnone. unfold Files.holds_digest in Hnone.
  rewrite Hside in Hnone.
  rewrite !bool_decide_eq_true_2 in Hnone by done.
  assert (true = false); [|done]. apply Hnone.
  apply list_elem_of_In, list_elem_of_fmap. exists (p, c). split; [done|].
  by apply elem_of_map_to_list.
Qed.

(** X16. [_find_duplicate_by_hash] is sound and complete over the
    directory: what it returns is a file of the target directory whose
    name has the suffix and whose sidecar, stripped, is the digest; it
    returns [None] only when the directory holds no such file. *)
Theorem find_duplicate_by_hash_spec (target_dir : dir) (sha256_hex suffix : string)
    (disk : Disk) :
  match _find_duplicate_by_hash target_dir sha256_hex suffix disk with
  | Some p =>
      p.1 = target_dir ∧ ends_with suffix p.2 = true ∧ is_Some (disk !! p)
      ∧ ∃ text, disk !! sidecar p = Some text ∧ py_strip text = sha256_hex
  | None =>
      ∀ p text, is_Some (disk !! p) → p.1 = target_dir →
        ends_with suffix p.2 = true → disk !! sidecar p = Some text →
        py_strip text ≠ sha256_hex
  end.
Proof.
  destruct (_find_duplicate_by_hash _ _ _ _) as [p|] eqn:Hfind.
  - by apply find_duplicate_Some.
  - by apply find_duplicate_None.
Qed.

Lemma versioned_from_Some (fuel : nat) : ∀ (i : nat) (dest : destination) (disk : Disk)
    (p : fpath),
  versioned_from fuel i dest disk = Some p →
  ∃ n, (i ≤ n)%nat ∧ p = versioned_name dest n ∧ disk !! p = None
    ∧ ∀ j, (i ≤ j < n)%nat → is_Some (disk !! versioned_name dest j).
Proof.
  induction fuel as [|fuel IH]; intros i dest disk p; [done|].
  cbn [versioned_from]. fold (versioned_name dest i).
  destruct (exists_on disk (versioned_name dest i)) eqn:Hex.
  - intros (n & Hn & -> & Hfree & Hbelow)%IH.
    exists n. split; [lia|]. split; [done|]. split; [done|].
    intros j Hj. destruct (decide (j = i)) as [->|?].
    + by apply bool_decide_eq_true in Hex.
    + apply Hbelow. lia.
  - intros [= <-]. exists i. split; [done|]. split; [done|]. split.
    + apply bool_decide_eq_false in Hex. by apply eq_None_not_Some.
    + intros j Hj. lia.
Qed.

Lemma versioned_is_fresh_run (dest : destination) (disk : Disk) :
  ∃ p, _versioned dest disk = Some p ∧ disk !! p = None
    ∧ (p = dest_path dest ∨ ∃ i, p = versioned_name dest i).
Proof.
  unfold _versioned, exists_on. case_bool_decide as Hex.
  - destruct (versioned_from_total dest disk) as [p Hp].
    destruct (versioned_from_Some _ _ _ _ _ Hp) as (n & _ & -> & Hfree & _).
    exists (versioned_name dest n). split; [done|]. split; [done|]. right. by exists n.
  - apply eq_None_not_Some in Hex. exists (dest_path dest). by eauto.
Qed.

(** X17. [_versioned] always returns, and what it returns does not exist:
    the destination itself when that is free, and otherwise the name with
    the least version number from 2 on that is free, all smaller ones
    being taken. *)
Theorem versioned_is_fresh (dest : destination) (disk : Disk) :
  ∃ p, _versioned dest disk = Some p
    ∧ disk !! p = None
    ∧ (disk !! dest_path dest = None → p = dest_path dest)
    ∧ (is_Some (disk !! dest_path dest) →
       ∃ i, (2 ≤ i)%nat ∧ p = versioned_name dest i
         ∧ ∀ j, (2 ≤ j < i)%nat → is_Some (disk !! versioned_name dest j)).
Proof.
  unfold _versioned, exists_on.
  case_bool_decide as Hex.
  - destruct (versioned_from_total dest disk) as [p Hp].
    destruct (versioned_from_Some _ _ _ _ _ Hp) as (n & Hn & -> & Hfree & Hbelow).
    exists (versioned_name dest n). split; [done|]. split; [done|]. split.
    + intros Hnone. rewrite Hnone in Hex. by destruct Hex.
    + intros _. by exists n.
  - apply eq_None_not_Some in Hex. exists (dest_path dest).
    split; [done|]. split; [done|]. split; [done|].
    intros [? ?]. congruence.
Qed.

(** *** What the copy phase does to uploads *)

Section CopyPhase.

Variable env : Env.
Hypothesis tokens : ∀ d, is_upload (tmp_path env d) = false.

(** A copy leaves the other uploads, and an existing destination, as they
    are. *)
Lemma copy_one_upload (bytes sha256_hex : string) (dst : fpath)
    (st : Disk * list fpath) (k : fpath) :
  is_upload k = true → k ≠ dst ∨ is_Some (st.1 !! k) →
  (copy_one env bytes sha256_hex dst st).1.1 !! k = st.1 !! k.
Proof.
  intros Hup Hk. unfold copy_one, exists_on.
  case_bool_decide as Hex; [done|].
  assert (k ≠ dst) as Hne by (destruct Hk as [?|?]; [done|by intros ->]).
  assert (k ≠ tmp_path env dst) by (intros ->; by rewrite tokens in Hup).
  pose proof (atomic_copy_frame env bytes dst st.1 k Hne ltac:(done)) as Hcopy.
  destruct (_atomic_copy env bytes dst st.1) as [disk1 [[]|e]]; cbn [fst snd] in *; [|done].
  rewrite write_sidecar_frame; [done|by apply upload_not_sidecar|].
  intros ->. by rewrite tokens in Hup.
Qed.

(** A copy that returns has written the bytes to a destination that was
    free. *)
Lemma copy_one_content (bytes sha256_hex : string) (dst : fpath)
    (st : Disk * list fpath) :
  is_upload dst = true → st.1 !! dst = None →
  (copy_one env bytes sha256_hex dst st).2 = Ok tt →
  (copy_one env bytes sha256_hex dst st).1.1 !! dst = Some bytes.
Proof.
  intros Hup Hfree. unfold copy_one, exists_on.
  rewrite bool_decide_eq_false_2 by (rewrite Hfree; by intros [? ?]).
  pose proof (atomic_copy_returns env bytes dst st.1) as Hcopy.
  destruct (_atomic_copy env bytes dst st.1) as [disk1 [[]|e]]; cbn [fst snd] in *; [|done].
  intros _. rewrite write_sidecar_frame; [by apply Hcopy|by apply upload_not_sidecar|].
  intros Heq. by rewrite Heq, tokens in Hup.
Qed.

(** The destination [dst] holds [bytes], or is as it was before the call *)
Definition stored (disk disk' : Disk) (dst : fpath) (bytes : string) : Prop :=
  disk' !! dst = Some bytes ∨ (is_Some (disk !! dst) ∧ disk' !! dst = disk !! dst).

Lemma copy_with_rollback_stores (pdf cov last : string * string * fpath)
    (disk disk' : Disk) :
  is_upload pdf.2 = true → is_upload cov.2 = true → is_upload last.2 = true →
  pdf.2 ≠ cov.2 → pdf.2 ≠ last.2 →
  (cov.2 = last.2 → is_Some (disk !! cov.2)) →
  copy_with_rollback env pdf cov last disk = (disk', Ok tt) →
  stored disk disk' pdf.2 pdf.1.1 ∧ stored disk disk' cov.2 cov.1.1
  ∧ stored disk disk' last.2 last.1.1.
Proof.
  intros Hpdf Hcov Hlast Hpc Hpl Hcl. unfold copy_with_rollback. cbn [foldl].
  unfold copy_step at 3. cbn [fst snd].
  set (st0 := (disk, @nil fpath)).
  pose proof (copy_one_upload pdf.1.1 pdf.1.2 pdf.2 st0) as Hother1.
  pose proof (copy_one_content pdf.1.1 pdf.1.2 pdf.2 st0 Hpdf) as Hnew1.
  destruct (copy_one env pdf.1.1 pdf.1.2 pdf.2 st0) as [st1 [[]|e1]];
    [|by unfold copy_step; cbn].
  unfold copy_step at 2. cbn [fst snd] in *.
  pose proof (copy_one_upload cov.1.1 cov.1.2 cov.2 st1) as Hother2.
  pose proof (copy_one_content cov.1.1 cov.1.2 cov.2 st1 Hcov) as Hnew2.
  destruct (copy_one env cov.1.1 cov.1.2 cov.2 st1) as [st2 [[]|e2]];
    [|by unfold copy_step; cbn].
  unfold copy_step. cbn [fst snd] in *.
  pose proof (copy_one_upload last.1.1 last.1.2 last.2 st2) as Hother3.
  pose proof (copy_one_content last.1.1 last.1.2 last.2 st2 Hlast) as Hnew3.
  destruct (copy_one env last.1.1 last.1.2 last.2 st2) as [st3 [[]|e3]]; [|done].
  cbn [fst snd] in *. intros [= <-].
  assert (H1 : stored disk st1.1 pdf.2 pdf.1.1).
  { destruct (disk !! pdf.2) as [c|] eqn:Hc.
    - right. split; [by eexists|]. rewrite Hother1, Hc; [done|done|right; by eexists].
    - left. by apply Hnew1. }
  assert (H2 : stored disk st2.1 cov.2 cov.1.1).
  { assert (st1.1 !! cov.2 = disk !! cov.2) as Hsame by (apply Hother1; [done|by left]).
    destruct (disk !! cov.2) as [c|] eqn:Hc.
    - right. split; [by eexists|]. rewrite Hother2, Hsame; [done|done|].
      right. rewrite Hsame. by eexists.
    - left. by apply Hnew2. }
  assert (H3 : stored disk st3.1 last.2 last.1.1).
  { destruct (disk !! last.2) as [c|] eqn:Hc.
    - right. split; [by eexists|].
      assert (st1.1 !! last.2 = Some c) as Hs1
        by (rewrite Hother1; [done|done|by left]).
      assert (st2.1 !! last.2 = Some c) as Hs2
        by (rewrite Hother2; [done|done|right; rewrite Hs1; by eexists]).
      rewrite Hother3; [by rewrite Hc|done|right; rewrite Hs2; by eexists].
    - left. apply Hnew3; [|done].
      assert (cov.2 ≠ last.2) as Hne.
      { intros Heq. destruct (Hcl Heq) as [c' Hc']. rewrite Heq in Hc'. congruence. }
      rewrite Hother2 by (done || by left).
      rewrite Hother1 by (done || by left). done. }
  assert (Hkeep : ∀ (st st' : Disk * list fpath) (bytes : string) (k : fpath),
            (is_upload k = true → is_Some (st.1 !! k) → st'.1 !! k = st.1 !! k) →
            is_upload k = true → stored disk st.1 k bytes → stored disk st'.1 k bytes).
  { intros st st' bytes k Hsame Hup [Hs|[Hold Hs]].
    - left. rewrite Hsame; [done|done|]. rewrite Hs. by eexists.
    - right. split; [done|]. rewrite Hsame; [done|done|]. by rewrite Hs. }
  split; [|split]; [|  |done].
  - apply (Hkeep st2 st3); [intros; apply Hother3; auto|done|].
    apply (Hkeep st1 st2); [intros; apply Hother2; auto|done|done].
  - apply (Hkeep st2 st3); [intros; apply Hother3; auto|done|done].
Qed.

(** Whatever the outcome of the copy phase, rollback included, the
    uploads that were there are as they were. *)
Lemma copy_with_rollback_keeps (pdf cov last : string * string * fpath)
    (disk disk' : Disk) (r : result unit) :
  copy_with_rollback env pdf cov last disk = (disk', r) →
  ∀ k c, disk !! k = Some c → is_upload k = true → disk' !! k = Some c.
Proof.
  unfold copy_with_rollback.
  pose proof (copy_steps_inv sha256 _secure_filename py_strip env disk
                [pdf; cov; last] ((disk, []), Ok tt) tokens) as Hinv.
  destruct (foldl _ _ _) as [st [[]|e']]; intros [= <- <-];
    destruct Hinv as (_ & HB & HC);
    try (repeat split; cbn [fst snd]; [by intros k -> [c Hc]|done|
                                       by intros p Hp%elem_of_nil]).
  - done.
  - intros k c Hk Hup. unfold rollback.
    rewrite unlink_all_frame; [by apply HB|].
    intros p Hp. apply (proj1 (elem_of_reverse _ _)) in Hp. split.
    + intros ->. specialize (HC _ Hp Hup). congruence.
    + by apply upload_not_sidecar.
Qed.

End CopyPhase.

(** *** What [validate_and_copy] guarantees *)

(** The destination chosen for one file: a free name built on the stem, or
    a duplicate found by its digest *)
Lemma choose_destination_spec (deduplicate : bool) (target_dir : dir)
    (sha256_hex stem suffix : string) (disk : Disk) (p : fpath) :
  choose_destination deduplicate
    (_find_duplicate_by_hash target_dir sha256_hex suffix disk)
    (mkDestination target_dir stem suffix) disk = Some p →
  p.1 = target_dir
  ∧ (disk !! p = None ∧ (∃ rest, p.2 = stem +:+ rest)
     ∨ deduplicate = true ∧ is_Some (disk !! p)).
Proof.
  set (dest := mkDestination target_dir stem suffix).
  assert (Hfresh : (if exists_on disk (dest_path dest) then _versioned dest disk
                    else Some (dest_path dest)) = Some p →
                   p.1 = target_dir ∧ disk !! p = None ∧ ∃ rest, p.2 = stem +:+ rest).
  { destruct (versioned_is_fresh_run dest disk) as (q & Hq & Hfree & Hname).
    unfold _versioned in *. destruct (exists_on disk (dest_path dest)) eqn:Hex.
    - rewrite Hq. intros [= <-]. split; [|split; [done|]];
        destruct Hname as [->|[i ->]]; try done; by eexists.
    - intros [= <-]. injection Hq as <-. split; [done|]. split; [done|].
      by exists suffix. }
  unfold choose_destination.
  destruct deduplicate;
    [destruct (_find_duplicate_by_hash _ _ _ _) as [q|] eqn:Hdup|].
  - intros [= <-]. apply find_duplicate_Some in Hdup as (? & _ & ? & _).
    split; [done|]. by right.
  - intros (? & ? & ?)%Hfresh. split; [done|]. by left.
  - intros (? & ? & ?)%Hfresh. split; [done|]. by left.
Qed.

Lemma allowed_suffix (suffix : string) :
  suffix ∈ ALLOWED_PDF_EXT ∨ suffix ∈ ALLOWED_IMG_EXT →
  suffix ∈ [".pdf"; ".jpg"; ".jpeg"]%string.
Proof. unfold ALLOWED_PDF_EXT, ALLOWED_IMG_EXT. set_solver. Qed.

Lemma cover_last_differ (prefix r1 r2 : string) :
  (prefix +:+ "_cover") +:+ r1 ≠ (prefix +:+ "_last") +:+ r2.
Proof.
  induction prefix as [|a prefix IH]; [by intros [=]|].
  intros [= Heq]. by apply IH.
Qed.

(** X18. [validate_and_copy] never touches an upload that is already
    there: whether it returns or raises, and whether or not the unlinks of
    its rollback succeed, every file named [*.pdf], [*.jpg] or [*.jpeg]
    that existed before the call exists afterwards with the same bytes. *)
Theorem validate_and_copy_keeps_uploads (env : Env) (pdf cover last : source)
    (out_prefix : string) (deduplicate : bool) (pdf_max_bytes img_max_bytes : Z)
    (disk disk' : Disk) (r : result report) :
  (∀ d, is_upload (tmp_path env d) = false) →
  validate_and_copy env pdf cover last out_prefix deduplicate
    pdf_max_bytes img_max_bytes disk = Some (disk', r) →
  ∀ k c, disk !! k = Some c → is_upload k = true → disk' !! k = Some c.
Proof.
  intros Htok. unfold Files.validate_and_copy.
  repeat case_match; try done; try (by intros [= <- <-]).
  all: intros [= <- <-]; by eapply copy_with_rollback_keeps.
Qed.

Lemma validate_and_copy_rejected (env : Env) (pdf cover last : source)
    (out_prefix : string) (deduplicate : bool) (pdf_max_bytes img_max_bytes : Z)
    (disk : Disk) :
  accepts pdf cover last pdf_max_bytes img_max_bytes = false →
  ∃ e, validate_and_copy env pdf cover last out_prefix deduplicate
         pdf_max_bytes img_max_bytes disk = Some (disk, Raise e)
    ∧ is_rejection e.
Proof.
  unfold accepts, Files.validate_and_copy. intros Hacc.
  destruct (src_bytes pdf) as [pdf_b|];
    [|eexists; split; [done|by left]].
  destruct (src_bytes cover) as [cov_b|];
    [|eexists; split; [done|by left]].
  destruct (src_bytes last) as [last_b|];
    [|eexists; split; [done|by left]].
  rewrite bool_decide_eq_true_2 in Hacc by eauto.
  destruct (_guess_mime_and_sig_ok pdf) as [pdf_mime pdf_sig].
  destruct (_guess_mime_and_sig_ok cover) as [cov_mime cov_sig].
  destruct (_guess_mime_and_sig_ok last) as [last_mime last_sig].
  cbn [snd andb] in Hacc.
  destruct (bool_decide (src_suffix pdf ∈ ALLOWED_PDF_EXT));
    [|eexists; split; [done|right; by eexists]].
  destruct (bool_decide (src_suffix cover ∈ ALLOWED_IMG_EXT));
    [|eexists; split; [done|right; by eexists]].
  destruct (bool_decide (src_suffix last ∈ ALLOWED_IMG_EXT));
    [|eexists; split; [done|right; by eexists]].
  destruct (_size_ok pdf pdf_max_bytes);
    [|eexists; split; [done|right; by eexists]].
  destruct (_size_ok cover img_max_bytes);
    [|eexists; split; [done|right; by eexists]].
  destruct (_size_ok last img_max_bytes);
    [|eexists; split; [done|right; by eexists]].
  destruct pdf_sig; [|eexists; split; [done|right; by eexists]].
  destruct cov_sig; [|eexists; split; [done|right; by eexists]].
  destruct last_sig; [|eexists; split; [done|right; by eexists]].
  done.
Qed.

(** X19. Validation comes before any write: when an input is missing, has
    a wrong extension, is empty or over its size limit, or fails its
    signature check, [validate_and_copy] raises [FileNotFoundError] or
    [ValueError] and the destination directories are untouched; so a call
    that returns has been given three accepted files. *)
Theorem validate_and_copy_rejects (env : Env) (pdf cover last : source)
    (out_prefix : string) (deduplicate : bool) (pdf_max_bytes img_max_bytes : Z)
    (disk : Disk) :
  (accepts pdf cover last pdf_max_bytes img_max_bytes = false →
   ∃ e, validate_and_copy env pdf cover last out_prefix deduplicate
          pdf_max_bytes img_max_bytes disk = Some (disk, Raise e)
     ∧ is_rejection e)
  ∧ (∀ disk' rep,
       validate_and_copy env pdf cover last out_prefix deduplicate
         pdf_max_bytes img_max_bytes disk = Some (disk', Ok rep) →
       accepts pdf cover last pdf_max_bytes img_max_bytes = true).
Proof.
  split; [apply validate_and_copy_rejected|]. intros disk' rep Hrun.
  destruct (accepts pdf cover last pdf_max_bytes img_max_bytes) eqn:Hacc; [done|].
  destruct (validate_and_copy_rejected env pdf cover last out_prefix deduplicate
              pdf_max_bytes img_max_bytes disk Hacc) as (e & He & _).
  congruence.
Qed.

(** X20. What a returning [validate_and_copy] has stored: each of the
    three paths it reports lies in its directory and holds the bytes of
    the file given, unless the path existed before the call (a duplicate
    found by its digest), in which case it is as it was; the digests
    reported are those of the files given; and without deduplication all
    three paths are new files. *)
Theorem validate_and_copy_stores (env : Env) (pdf cover last : source)
    (out_prefix : string) (deduplicate : bool) (pdf_max_bytes img_max_bytes : Z)
    (disk disk' : Disk) (rep : report) (pdf_b cov_b last_b : string) :
  (∀ d, is_upload (tmp_path env d) = false) →
  src_bytes pdf = Some pdf_b → src_bytes cover = Some cov_b →
  src_bytes last = Some last_b →
  validate_and_copy env pdf cover last out_prefix deduplicate
    pdf_max_bytes img_max_bytes disk = Some (disk', Ok rep) →
  stored disk disk' (pdf_path rep) pdf_b
  ∧ stored disk disk' (cover_path rep) cov_b
  ∧ stored disk disk' (last_path rep) last_b
  ∧ (pdf_path rep).1 = THESIS_DIR ∧ (cover_path rep).1 = IMAGES_DIR
  ∧ (last_path rep).1 = IMAGES_DIR
  ∧ pdf_hash rep = sha256 pdf_b ∧ cover_hash rep = sha256 cov_b
  ∧ last_hash rep = sha256 last_b
  ∧ (deduplicate = false →
     disk !! pdf_path rep = None ∧ disk !! cover_path rep = None
     ∧ disk !! last_path rep = None).
Proof.
  intros Htok Hpdf Hcov Hlast. unfold Files.validate_and_copy.
  rewrite Hpdf, Hcov, Hlast.
  repeat case_match; try done.
  all: intros [= <- <-]; cbn [pdf_path cover_path last_path pdf_hash cover_hash last_hash].
  all: repeat match goal with
       | H : negb _ = false |- _ => apply negb_false_iff in H
       | H : _ || _ = false |- _ => apply orb_false_iff in H as [? ?]
       end.
  all: repeat match goal with
       | H : bool_decide (_ ∈ _) = true |- _ => apply bool_decide_eq_true in H
       end.
  all: match goal with
       | Hp : choose_destination _ _ (mkDestination THESIS_DIR _ _) _ = Some ?p,
         Hc : choose_destination _ _ (mkDestination IMAGES_DIR (_ +:+ "_cover") _) _
              = Some ?c,
         Hl : choose_destination _ _ (mkDestination IMAGES_DIR (_ +:+ "_last") _) _
              = Some ?l,
         Hrun : copy_with_rollback _ _ _ _ _ = (_, Ok ?u) |- _ =>
           destruct u; rename Hp into Hp', Hc into Hc', Hl into Hl', Hrun into Hrun'
       end.
  all: match goal with
       | H1 : src_suffix ?c ∈ ALLOWED_IMG_EXT,
         H2 : src_suffix ?l ∈ ALLOWED_IMG_EXT |- _ =>
           pose proof (chosen_upload py_strip _ _ _ _ _ _ _
                         (allowed_suffix ".pdf" ltac:(left; set_solver)) Hp') as Hup;
           pose proof (chosen_upload py_strip _ _ _ _ _ _ _
                         (allowed_suffix _ (or_intror H1)) Hc') as Huc;
           pose proof (chosen_upload py_strip _ _ _ _ _ _ _
                         (allowed_suffix _ (or_intror H2)) Hl') as Hul
       end.
  all: apply choose_destination_spec in Hp' as [Hdp Hsp].
  all: apply choose_destination_spec in Hc' as [Hdc Hsc].
  all: apply choose_destination_spec in Hl' as [Hdl Hsl].
  all: eapply (copy_with_rollback_stores env Htok) in Hrun' as (? & ? & ?);
         cbn [fst snd] in *; try done.
  all: try (by intros Heq; rewrite Heq in *; congruence).
  all: try (intros Heq; destruct Hsc as [[Hfc [rc Hrc]]|[_ ?]]; [|done];
            destruct Hsl as [[Hfl [rl Hrl]]|[_ Hex]]; [|by rewrite Heq];
            exfalso; rewrite Heq, Hrl in Hrc; by eapply cover_last_differ).
  all: repeat (split; [done|]).
  all: intros ->; destruct Hsp as [[? _]|[? _]], Hsc as [[? _]|[? _]],
         Hsl as [[? _]|[? _]]; done.
Qed.


(** *** Deduplication *)

(** The sanitised prefix, [_secure_filename(out_prefix) or "thesis"] *)
Definition safe_prefix (out_prefix : string) : string :=
  let safe := _secure_filename out_prefix in
  if bool_decide (safe = ""%string) then "thesis"%string else safe.

(** [validate_and_copy] on accepted files: the destinations, the copy
    phase and the report *)
Lemma validate_and_copy_accepted (env : Env) (pdf cover last : source)
    (out_prefix : string) (deduplicate : bool) (pdf_max_bytes img_max_bytes : Z)
    (disk : Disk) (pdf_b cov_b last_b : string) :
  accepts pdf cover last pdf_max_bytes img_max_bytes = true →
  src_bytes pdf = Some pdf_b → src_bytes cover = Some cov_b →
  src_bytes last = Some last_b →
  validate_and_copy env pdf cover last out_prefix deduplicate
    pdf_max_bytes img_max_bytes disk
  = match
      choose_destination deduplicate
        (_find_duplicate_by_hash THESIS_DIR (sha256 pdf_b) ".pdf" disk)
        (mkDestination THESIS_DIR (safe_prefix out_prefix) ".pdf") disk,
      choose_destination deduplicate
        (_find_duplicate_by_hash IMAGES_DIR (sha256 cov_b) (src_suffix cover) disk)
        (mkDestination IMAGES_DIR (safe_prefix out_prefix +:+ "_cover")
           (src_suffix cover)) disk,
      choose_destination deduplicate
        (_find_duplicate_by_hash IMAGES_DIR (sha256 last_b) (src_suffix last) disk)
        (mkDestination IMAGES_DIR (safe_prefix out_prefix +:+ "_last")
           (src_suffix last)) disk
    with
    | Some pdf_dst, Some cov_dst, Some last_dst =>
        match copy_with_rollback env (pdf_b, sha256 pdf_b, pdf_dst)
                (cov_b, sha256 cov_b, cov_dst) (last_b, sha256 last_b, last_dst) disk with
        | (disk', Raise e) => Some (disk', Raise e)
        | (disk', Ok _) =>
            match stat_size disk' pdf_dst, stat_size disk' cov_dst,
                  stat_size disk' last_dst with
            | Ok pdf_n, Ok cov_n, Ok last_n =>
                Some (disk',
                      Ok (mkReport pdf_dst cov_dst last_dst
                            (sha256 pdf_b) (sha256 cov_b) (sha256 last_b)
                            (mkMeta (_guess_mime_and_sig_ok pdf).1 pdf_n true)
                            (mkMeta (_guess_mime_and_sig_ok cover).1 cov_n true)
                            (mkMeta (_guess_mime_and_sig_ok last).1 last_n true)))
            | _, _, _ => Some (disk', Raise FileNotFoundError)
            end
        end
    | _, _, _ => None
    end.
Proof.
  unfold accepts, Files.validate_and_copy, safe_prefix.
  intros Hacc Hpdf Hcov Hlast. rewrite Hpdf, Hcov, Hlast.
  destruct (_guess_mime_and_sig_ok pdf) as [pdf_mime pdf_sig].
  destruct (_guess_mime_and_sig_ok cover) as [cov_mime cov_sig].
  destruct (_guess_mime_and_sig_ok last) as [last_mime last_sig].
  cbn [fst snd] in *.
  repeat (apply andb_true_iff in Hacc as [Hacc ?]).
  repeat match goal with H : _ = true |- _ => rewrite H; clear H end.
  cbn [negb orb]. done.
Qed.

(** The file exists and its sidecar holds the digest. *)
Definition has_digest (disk : Disk) (dst : fpath) (sha256_hex : string) : Prop :=
  is_Some (disk !! dst)
  ∧ ∃ text, disk !! sidecar dst = Some text ∧ py_strip text = sha256_hex.

(** With [deduplicate=True] the destination is a file that holds the
    digest, or a name that is free. *)
Lemma choose_destination_dedupe (target_dir : dir) (sha256_hex stem suffix : string)
    (disk : Disk) (p : fpath) :
  choose_destination true
    (_find_duplicate_by_hash target_dir sha256_hex suffix disk)
    (mkDestination target_dir stem suffix) disk = Some p →
  p.1 = target_dir ∧ ends_with suffix p.2 = true
  ∧ (has_digest disk p sha256_hex
     ∨ disk !! p = None ∧ ∃ rest, p.2 = stem +:+ rest).
Proof.
  intros Hp. split; [by apply choose_destination_spec in Hp as [? _]|].
  split.
  { eapply choose_destination_ends in Hp; [done|].
    intros q. apply find_duplicate_ends. }
  destruct (_find_duplicate_by_hash target_dir sha256_hex suffix disk) as [q|] eqn:Hdup.
  - injection Hp as <-. left.
    apply find_duplicate_Some in Hdup as (_ & _ & ? & ?). by split.
  - right.
    change (choose_destination false
              (_find_duplicate_by_hash target_dir sha256_hex suffix disk)
              (mkDestination target_dir stem suffix) disk = Some p) in Hp.
    by apply choose_destination_spec in Hp as [_ [?|[? _]]].
Qed.

(** A file that holds the digest is found, or another one that does. *)
Lemma find_duplicate_finds (target_dir : dir) (sha256_hex suffix : string)
    (disk : Disk) (p : fpath) :
  p.1 = target_dir → ends_with suffix p.2 = true → has_digest disk p sha256_hex →
  ∃ q, _find_duplicate_by_hash target_dir sha256_hex suffix disk = Some q
    ∧ has_digest disk q sha256_hex.
Proof.
  intros Hdir Hends [Hex (text & Htext & Hstrip)].
  destruct (_find_duplicate_by_hash target_dir sha256_hex suffix disk) as [q|] eqn:Hdup.
  - exists q. split; [done|].
    apply find_duplicate_Some in Hdup as (_ & _ & ? & ?). by split.
  - by destruct (find_duplicate_None _ _ _ _ Hdup p text).
Qed.

Section Dedupe.

Variable env : Env.
Hypothesis tokens : ∀ d, is_upload (tmp_path env d) = false.
Hypothesis tokens_sidecar : ∀ d, ends_with ".sha256" (tmp_path env d).2 = false.
Hypothesis writes_succeed : ∀ k, write_fault_at env k = WriteOk.
Hypothesis strip_digest : ∀ bytes, py_strip (sha256 bytes) = sha256 bytes.

Lemma tmp_not_sidecar (d k : fpath) : tmp_path env d ≠ sidecar k.
Proof.
  intros Heq. pose proof (tokens_sidecar d) as Hd. rewrite Heq in Hd.
  unfold sidecar in Hd. cbn [snd] in Hd. by rewrite ends_with_suffix in Hd.
Qed.

Lemma sidecar_inj (k k' : fpath) : sidecar k = sidecar k' → k = k'.
Proof.
  destruct k as [d n], k' as [d' n']. unfold sidecar. cbn [fst snd].
  intros [= -> Hn%string_app_inj_r]. by subst.
Qed.

(** A copy to another destination keeps a file and its digest. *)
Lemma copy_one_keeps_digest (bytes sha256_hex : string) (dst : fpath)
    (st : Disk * list fpath) (k : fpath) (h : string) :
  is_upload k = true → is_upload dst = true →
  has_digest st.1 k h →
  has_digest (copy_one env bytes sha256_hex dst st).1.1 k h.
Proof.
  intros Hk Hdst [Hex Hside]. unfold copy_one, exists_on.
  case_bool_decide as Hthere; [by split|].
  assert (k ≠ dst) as Hne by (by intros ->).
  assert (Hframe : ∀ q, q ≠ dst → q ≠ tmp_path env dst → q ≠ sidecar dst →
            q ≠ tmp_path env (sidecar dst) →
            (match _atomic_copy env bytes dst st.1 with
             | (disk', Raise e) => ((disk', st.2), Raise e)
             | (disk', Ok _) =>
                 ((_write_sidecar_hash env dst sha256_hex disk', st.2 ++ [dst]), Ok tt)
             end).1.1 !! q = st.1 !! q).
  { intros q ? ? ? ?.
    pose proof (atomic_copy_frame env bytes dst st.1 q ltac:(done) ltac:(done)) as Hc.
    destruct (_atomic_copy env bytes dst st.1) as [disk1 [[]|e]]; cbn [fst snd] in *;
      [|done].
    by rewrite write_sidecar_frame. }
  split.
  - rewrite Hframe; [done|done| | |].
    + intros ->. by rewrite tokens in Hk.
    + by apply upload_not_sidecar.
    + intros ->. by rewrite tokens in Hk.
  - rewrite Hframe; [done| | | |].
    + intros Heq. rewrite <- Heq, sidecar_not_upload in Hdst. done.
    + intros Heq. by apply (tmp_not_sidecar dst k).
    + by intros ?%sidecar_inj.
    + intros Heq. by apply (tmp_not_sidecar (sidecar dst) k).
Qed.

(** A copy that returns has written the file and its digest. *)
Lemma copy_one_writes_digest (bytes : string) (dst : fpath) (st : Disk * list fpath) :
  is_upload dst = true → st.1 !! dst = None →
  (copy_one env bytes (sha256 bytes) dst st).2 = Ok tt →
  has_digest (copy_one env bytes (sha256 bytes) dst st).1.1 dst (sha256 bytes).
Proof.
  intros Hup Hfree Hok. split.
  - rewrite (copy_one_content env tokens) by done. by eexists.
  - revert Hok. unfold copy_one, exists_on.
    rewrite bool_decide_eq_false_2 by (rewrite Hfree; by intros [? ?]).
    destruct (_atomic_copy env bytes dst st.1) as [disk1 [[]|e]]; cbn [fst snd]; [|done].
    intros _. exists (sha256 bytes). split; [|apply strip_digest].
    unfold _write_sidecar_hash, _atomic_write_text. rewrite writes_succeed.
    cbn [fst]. apply lookup_insert_eq.
Qed.

(** After a copy phase that returned, each destination that was either a
    file with its digest or free is a file with its digest. *)
Lemma copy_with_rollback_digests (pdf_b cov_b last_b : string)
    (pdf_dst cov_dst last_dst : fpath) (disk disk' : Disk) :
  is_upload pdf_dst = true → is_upload cov_dst = true → is_upload last_dst = true →
  has_digest disk pdf_dst (sha256 pdf_b) ∨ disk !! pdf_dst = None →
  has_digest disk cov_dst (sha256 cov_b) ∨ disk !! cov_dst = None →
  has_digest disk last_dst (sha256 last_b) ∨ disk !! last_dst = None →
  pdf_dst ≠ cov_dst → pdf_dst ≠ last_dst →
  (cov_dst = last_dst → is_Some (disk !! cov_dst)) →
  copy_with_rollback env (pdf_b, sha256 pdf_b, pdf_dst) (cov_b, sha256 cov_b, cov_dst)
    (last_b, sha256 last_b, last_dst) disk = (disk', Ok tt) →
  has_digest disk' pdf_dst (sha256 pdf_b) ∧ has_digest disk' cov_dst (sha256 cov_b)
  ∧ has_digest disk' last_dst (sha256 last_b).
Proof.
  intros Hpdf Hcov Hlast Hp Hc Hl Hpc Hpl Hcl.
  unfold copy_with_rollback. cbn [foldl].
  unfold copy_step at 3. cbn [fst snd].
  set (st0 := (disk, @nil fpath)).
  pose proof (copy_one_upload env tokens pdf_b (sha256 pdf_b) pdf_dst st0) as Hother1.
  pose proof (copy_one_keeps_digest pdf_b (sha256 pdf_b) pdf_dst st0) as Hkeep1.
  pose proof (copy_one_writes_digest pdf_b pdf_dst st0 Hpdf) as Hnew1.
  destruct (copy_one env pdf_b (sha256 pdf_b) pdf_dst st0) as [st1 [[]|e1]];
    [|by unfold copy_step; cbn].
  unfold copy_step at 2. cbn [fst snd] in *.
  pose proof (copy_one_upload env tokens cov_b (sha256 cov_b) cov_dst st1) as Hother2.
  pose proof (copy_one_keeps_digest cov_b (sha256 cov_b) cov_dst st1) as Hkeep2.
  pose proof (copy_one_writes_digest cov_b cov_dst st1 Hcov) as Hnew2.
  destruct (copy_one env cov_b (sha256 cov_b) cov_dst st1) as [st2 [[]|e2]];
    [|by unfold copy_step; cbn].
  unfold copy_step. cbn [fst snd] in *.
  pose proof (copy_one_keeps_digest last_b (sha256 last_b) last_dst st2) as Hkeep3.
  pose proof (copy_one_writes_digest last_b last_dst st2 Hlast) as Hnew3.
  destruct (copy_one env last_b (sha256 last_b) last_dst st2) as [st3 [[]|e3]]; [|done].
  cbn [fst snd] in *. intros [= <-].
  assert (H1 : has_digest st1.1 pdf_dst (sha256 pdf_b)).
  { destruct Hp as [Hp|Hp]; [by apply Hkeep1|by apply Hnew1]. }
  assert (H2 : has_digest st2.1 cov_dst (sha256 cov_b)).
  { destruct Hc as [Hc|Hc].
    - apply Hkeep2; [done..|]. by apply Hkeep1.
    - apply Hnew2; [|done]. rewrite Hother1; [done|done|by left]. }
  assert (H3 : has_digest st3.1 last_dst (sha256 last_b)).
  { destruct Hl as [Hl|Hl].
    - apply Hkeep3; [done..|]. apply Hkeep2; [done..|]. by apply Hkeep1.
    - apply Hnew3; [|done].
      assert (cov_dst ≠ last_dst) as Hne.
      { intros Heq. destruct (Hcl Heq) as [c' Hc']. rewrite Heq in Hc'. congruence. }
      rewrite Hother2 by (done || by left).
      rewrite Hother1 by (done || by left). done. }
  split; [|split; [|done]].
  - apply Hkeep3; [done..|]. by apply Hkeep2.
  - by apply Hkeep3.
Qed.

End Dedupe.

(** A copy phase whose three destinations exist copies nothing. *)
Lemma copy_with_rollback_existing (env : Env) (pdf cov last : string * string * fpath)
    (disk : Disk) :
  is_Some (disk !! pdf.2) → is_Some (disk !! cov.2) → is_Some (disk !! last.2) →
  copy_with_rollback env pdf cov last disk = (disk, Ok tt).
Proof.
  intros Hp Hc Hl. unfold copy_with_rollback. cbn [foldl].
  unfold copy_step, copy_one, exists_on. cbn [fst snd].
  rewrite (bool_decide_eq_true_2 _ Hp). cbn [fst snd].
  rewrite (bool_decide_eq_true_2 _ Hc). cbn [fst snd].
  rewrite (bool_decide_eq_true_2 _ Hl). done.
Qed.

(** X21. Deduplication makes an upload repeatable: after a call with
    [deduplicate=True] that returned and whose sidecar writes succeeded, a
    second call with the same three files finds each of them by its
    digest, copies nothing and leaves the directories exactly as they
    were, whatever the environment of the second call does; the paths it
    reports exist and their sidecars hold the digests of the files. *)
Theorem validate_and_copy_twice (env env' : Env) (pdf cover last : source)
    (out_prefix out_prefix' : string) (pdf_max_bytes img_max_bytes : Z)
    (disk disk1 : Disk) (rep : report) :
  (∀ d, is_upload (tmp_path env d) = false) →
  (∀ d, ends_with ".sha256" (tmp_path env d).2 = false) →
  (∀ k, write_fault_at env k = WriteOk) →
  (∀ bytes, py_strip (sha256 bytes) = sha256 bytes) →
  validate_and_copy env pdf cover last out_prefix true
    pdf_max_bytes img_max_bytes disk = Some (disk1, Ok rep) →
  ∃ rep', validate_and_copy env' pdf cover last out_prefix' true
            pdf_max_bytes img_max_bytes disk1 = Some (disk1, Ok rep')
    ∧ has_digest disk1 (pdf_path rep') (pdf_hash rep)
    ∧ has_digest disk1 (cover_path rep') (cover_hash rep)
    ∧ has_digest disk1 (last_path rep') (last_hash rep).
Proof.
  intros Htok Htok' Hwrites Hstrip Hrun.
  assert (Hacc : accepts pdf cover last pdf_max_bytes img_max_bytes = true).
  { destruct (accepts pdf cover last pdf_max_bytes img_max_bytes) eqn:Hacc; [done|].
    destruct (validate_and_copy_rejected env pdf cover last out_prefix true
                pdf_max_bytes img_max_bytes disk Hacc) as (e & He & _).
    congruence. }
  assert (Hsrc : is_Some (src_bytes pdf) ∧ is_Some (src_bytes cover)
                 ∧ is_Some (src_bytes last)).
  { unfold accepts in Hacc. repeat (apply andb_true_iff in Hacc as [Hacc _]).
    by apply bool_decide_eq_true in Hacc. }
  assert (Hext : src_suffix cover ∈ ALLOWED_IMG_EXT ∧ src_suffix last ∈ ALLOWED_IMG_EXT).
  { unfold accepts in Hacc.
    repeat (apply andb_true_iff in Hacc as [Hacc ?]).
    split; by eapply bool_decide_eq_true. }
  destruct Hsrc as ([pdf_b Hpdf] & [cov_b Hcov] & [last_b Hlast]).
  destruct Hext as [Hcext Hlext].
  rewrite (validate_and_copy_accepted env _ _ _ _ _ _ _ _ _ _ _
             Hacc Hpdf Hcov Hlast) in Hrun.
  rewrite (validate_and_copy_accepted env' _ _ _ _ _ _ _ _ _ _ _
             Hacc Hpdf Hcov Hlast).
  destruct (choose_destination true (_find_duplicate_by_hash THESIS_DIR _ _ disk) _ disk)
    as [pdf_dst|] eqn:Hp; [|by repeat case_match].
  destruct (choose_destination true
              (_find_duplicate_by_hash IMAGES_DIR (sha256 cov_b) _ disk) _ disk)
    as [cov_dst|] eqn:Hc; [|by repeat case_match].
  destruct (choose_destination true
              (_find_duplicate_by_hash IMAGES_DIR (sha256 last_b) _ disk) _ disk)
    as [last_dst|] eqn:Hl; [|done].
  pose proof (chosen_upload py_strip _ _ _ _ _ _ _
                (allowed_suffix ".pdf" ltac:(left; set_solver)) Hp) as Hup.
  pose proof (chosen_upload py_strip _ _ _ _ _ _ _
                (allowed_suffix _ (or_intror Hcext)) Hc) as Huc.
  pose proof (chosen_upload py_strip _ _ _ _ _ _ _
                (allowed_suffix _ (or_intror Hlext)) Hl) as Hul.
  apply choose_destination_dedupe in Hp as (Hdp & Hep & Hsp).
  apply choose_destination_dedupe in Hc as (Hdc & Hec & Hsc).
  apply choose_destination_dedupe in Hl as (Hdl & Hel & Hsl).
  destruct (copy_with_rollback env _ _ _ disk) as [disk' [[]|e]] eqn:Hcopy;
    [|done].
  assert (disk' = disk1 ∧ pdf_hash rep = sha256 pdf_b ∧ cover_hash rep = sha256 cov_b
          ∧ last_hash rep = sha256 last_b) as (-> & -> & -> & ->).
  { revert Hrun. repeat case_match; try done. by intros [= <- <-]. }
  clear Hrun.
  apply (copy_with_rollback_digests env Htok Htok' Hwrites Hstrip) in Hcopy
    as (Hp1 & Hc1 & Hl1); try done.
  - destruct (find_duplicate_finds _ _ _ _ _ Hdp Hep Hp1) as (p' & -> & Hp').
    destruct (find_duplicate_finds _ _ _ _ _ Hdc Hec Hc1) as (c' & -> & Hc').
    destruct (find_duplicate_finds _ _ _ _ _ Hdl Hel Hl1) as (l' & -> & Hl').
    cbn [choose_destination].
    rewrite copy_with_rollback_existing by (cbn [snd]; apply Hp' || apply Hc' || apply Hl').
    destruct Hp' as [[pc Hpc] Hps], Hc' as [[cc Hcc] Hcs], Hl' as [[lc Hlc] Hls].
    unfold stat_size. rewrite Hpc, Hcc, Hlc.
    eexists. split; [done|]. cbn [pdf_path cover_path last_path].
    repeat split; by eauto.
  - destruct Hsp as [?|[? _]]; by eauto.
  - destruct Hsc as [?|[? _]]; by eauto.
  - destruct Hsl as [?|[? _]]; by eauto.
  - intros Heq. rewrite Heq, Hdc in Hdp. done.
  - intros Heq. rewrite Heq, Hdl in Hdp. done.
  - intros Heq. destruct Hsc as [[? _]|[Hfc [rc Hrc]]]; [done|].
    destruct Hsl as [[Hex _]|[Hfl [rl Hrl]]]; [by rewrite Heq|].
    exfalso. rewrite Heq, Hrl in Hrc. symmetry in Hrc. by eapply cover_last_differ.
Qed.

End Uploads.
(** *** Worked instances *)

(** An environment in which every copy, write and unlink succeeds *)
Definition healthy : Env :=
  mkEnv (λ _, CopyOk) (λ _, WriteOk) (λ _, false) (λ _, "0f3a").

Lemma healthy_tokens (d : fpath) : is_upload (tmp_path healthy d) = false.
Proof.
  unfold is_upload, tmp_path. cbn [snd uuid_hex healthy].
  rewrite !(ends_with_app _ "."), !(ends_with_app _ d.2); [done|..];
    rewrite ?string_app_length; cbn; lia.
Qed.

Lemma healthy_tokens_sidecar (d : fpath) :
  ends_with ".sha256" (tmp_path healthy d).2 = false.
Proof.
  unfold tmp_path. cbn [snd uuid_hex healthy].
  rewrite !(ends_with_app _ "."), !(ends_with_app _ d.2); [done|..];
    rewrite ?string_app_length; cbn; lia.
Qed.

(** The upload of three files under the prefix of the earlier upload *)
Definition upload (env : Env) (deduplicate : bool) (disk : Disk) :
    option (Disk * result report) :=
  validate_and_copy demo_sha256 demo_secure_filename demo_strip env
    demo_pdf (demo_jpeg "cover") (demo_jpeg "last") "s0_c0" deduplicate
    PDF_MAX_BYTES IMG_MAX_BYTES disk.

(** The call returned a report. *)
Definition returned (outcome : option (Disk * result report)) : bool :=
  match outcome with Some (_, Ok _) => true | _ => false end.

Lemma validate_and_copy_keeps_uploads_witness :
  validate_and_copy demo_sha256 demo_secure_filename demo_strip failing_cover
    demo_pdf (demo_jpeg "cover") (demo_jpeg "last") "s1_c1" true
    PDF_MAX_BYTES IMG_MAX_BYTES earlier_uploads
  = Some (after_failed_cover, Raise OSError)
  ∧ after_failed_cover !! (THESIS_DIR, "s0_c0.pdf"%string)
    = Some "%PDF-1.7 earlier %%EOF"%string.
Proof.
  assert (Hrun :
    validate_and_copy demo_sha256 demo_secure_filename demo_strip failing_cover
      demo_pdf (demo_jpeg "cover") (demo_jpeg "last") "s1_c1" true
      PDF_MAX_BYTES IMG_MAX_BYTES earlier_uploads
    = Some (after_failed_cover, Raise OSError)) by (vm_compute; reflexivity).
  split; [exact Hrun|].
  apply (validate_and_copy_keeps_uploads demo_sha256 demo_secure_filename demo_strip
           failing_cover demo_pdf (demo_jpeg "cover") (demo_jpeg "last") "s1_c1" true
           PDF_MAX_BYTES IMG_MAX_BYTES earlier_uploads after_failed_cover _
           failing_cover_tokens Hrun);
    vm_compute; reflexivity.
Defined.

Lemma validate_and_copy_stores_witness :
  ∃ disk' rep, upload healthy false earlier_uploads = Some (disk', Ok rep)
    ∧ disk' !! pdf_path rep = Some "%PDF-1.7 thesis %%EOF"%string
    ∧ earlier_uploads !! pdf_path rep = None.
Proof.
  assert (Hret : returned (upload healthy false earlier_uploads) = true)
    by (vm_compute; reflexivity).
  revert Hret.
  destruct (upload healthy false earlier_uploads) as [[disk' [rep|e]]|] eqn:Hrun;
    intros Hret; [|discriminate Hret..].
  exists disk', rep. split; [done|].
  destruct (validate_and_copy_stores demo_sha256 demo_secure_filename demo_strip
              healthy demo_pdf (demo_jpeg "cover") (demo_jpeg "last") "s0_c0" false
              PDF_MAX_BYTES IMG_MAX_BYTES earlier_uploads disk' rep _ _ _
              healthy_tokens eq_refl eq_refl eq_refl Hrun)
    as (Hpdf & _ & _ & _ & _ & _ & _ & _ & _ & Hfresh).
  destruct (Hfresh eq_refl) as (Hfree & _ & _).
  split; [|exact Hfree].
  destruct Hpdf as [Hnew|[[c Hc] _]]; [exact Hnew|].
  rewrite Hfree in Hc. discriminate.
Defined.

Lemma validate_and_copy_twice_witness :
  ∃ disk1 rep rep', upload healthy true earlier_uploads = Some (disk1, Ok rep)
    ∧ upload failing_cover true disk1 = Some (disk1, Ok rep')
    ∧ has_digest demo_strip disk1 (pdf_path rep') (pdf_hash rep).
Proof.
  assert (Hret : returned (upload healthy true earlier_uploads) = true)
    by (vm_compute; reflexivity).
  revert Hret.
  destruct (upload healthy true earlier_uploads) as [[disk1 [rep|e]]|] eqn:Hrun;
    intros Hret; [|discriminate Hret..].
  destruct (validate_and_copy_twice demo_sha256 demo_secure_filename demo_strip
              healthy failing_cover demo_pdf (demo_jpeg "cover") (demo_jpeg "last")
              "s0_c0" "s0_c0" PDF_MAX_BYTES IMG_MAX_BYTES earlier_uploads disk1 rep
              healthy_tokens healthy_tokens_sidecar (λ _, eq_refl) (λ _, eq_refl) Hrun)
    as (rep' & Hagain & Hpdf & _).
  exists disk1, rep, rep'. split; [done|]. split; [exact Hagain|exact Hpdf].
Defined.

End FilesOps.
